(** * mcp-cache: a shallow embedding of the query engine, the cache store,
      the configuration, the proxy with its size gate and its management
      tools, and the transport with its framing and request correlation.

    Conventions of the embedding.
    - A JavaScript string is the list of its UTF-16 code units, so that
      [String.prototype.length] is the length of the list, while
      [Buffer.byteLength(s, 'utf8')] is computed from the code units.
    - JavaScript numbers that the code uses as counts, indices, sizes and
      timestamps are integers ([Z]), with the exact arithmetic that numbers
      have below [2 ^ 53]; [NaN] and the infinities of the floating-point
      runtime are not represented. A time value is a valid date within
      8.64e15 milliseconds of the epoch, and [parseInt] gives the number
      value of what it reads.
    - A thrown exception is the [Throw] case of [result]; [try]/[catch] is
      written out with [catch].
    - Built-in services of the runtime that the code calls ([JSON.stringify],
      [JSON.parse], [RegExp], the JSONPath evaluator, [toLowerCase]) are the
      fields of the class [Runtime]. *)

From Stdlib Require Import ZArith Lia Bool String Ascii DecimalString.
From Stdlib Require Import DecimalPos.
From stdpp Require Import base option list gmap.

Local Open Scope Z_scope.

(** ** JavaScript strings and arrays *)

Abbreviation jsstring := (list N).

(** An ASCII literal as a JavaScript string. *)
Definition js (s : string) : jsstring :=
  (fun a => N_of_ascii a) <$> list_ascii_of_string s.
Arguments js : simpl never.

(** [s.length] and [a.length]. *)
Definition len {A} (l : list A) : Z := Z.of_nat (length l).

(** The relative index of [Array.prototype.slice] and
    [String.prototype.slice]: a negative index counts from the end. *)
Definition relative_index (n i : Z) : Z :=
  if i <? 0 then Z.max (n + i) 0 else Z.min i n.

(** [l.slice(start, end)] *)
Definition slice {A} (l : list A) (start end_ : Z) : list A :=
  let k := relative_index (len l) start in
  let final := relative_index (len l) end_ in
  take (Z.to_nat (final - k)) (drop (Z.to_nat k) l).

(** [l.slice(start)] *)
Definition slice_from {A} (l : list A) (start : Z) : list A :=
  slice l start (len l).

(** [l[i]]: [None] is [undefined]. *)
Definition nth_js {A} (l : list A) (i : Z) : option A :=
  if i <? 0 then None else l !! Z.to_nat i.

(** [s.startsWith(p)] *)
Fixpoint startsWith (s p : jsstring) : bool :=
  match p, s with
  | [], _ => true
  | c :: p', d :: s' => (c =? d)%N && startsWith s' p'
  | _ :: _, [] => false
  end.

(** [s.endsWith(p)] *)
Definition endsWith (s p : jsstring) : bool :=
  startsWith (rev s) (rev p).

(** [s.includes(sub)] *)
Fixpoint includes (s sub : jsstring) : bool :=
  startsWith s sub ||
  match s with
  | [] => false
  | _ :: s' => includes s' sub
  end.

(** [s.split(sep)] for a one-unit separator. *)
Fixpoint split (sep : N) (s : jsstring) : list jsstring :=
  match s with
  | [] => [[]]
  | c :: s' =>
      if (c =? sep)%N then [] :: split sep s'
      else match split sep s' with
           | l :: ls => (c :: l) :: ls
           | [] => [[c]]
           end
  end.

(** [s.lastIndexOf(c)] for a one-unit needle; [-1] when absent. *)
Fixpoint lastIndexOf_from (c : N) (s : jsstring) (i : Z) (found : Z) : Z :=
  match s with
  | [] => found
  | d :: s' => lastIndexOf_from c s' (i + 1) (if (d =? c)%N then i else found)
  end.

Definition lastIndexOf (s : jsstring) (c : N) : Z :=
  lastIndexOf_from c s 0 (-1).

(** White space and line terminators of ECMAScript, as removed by [trim]. *)
Definition is_space (c : N) : bool :=
  ((9 <=? c) && (c <=? 13) || (c =? 32) || (c =? 160) || (c =? 5760)
   || (8192 <=? c) && (c <=? 8202) || (c =? 8232) || (c =? 8233)
   || (c =? 8239) || (c =? 8287) || (c =? 12288) || (c =? 65279))%N.

Fixpoint trimStart (s : jsstring) : jsstring :=
  match s with
  | c :: s' => if is_space c then trimStart s' else s
  | [] => []
  end.

(** [s.trim()] *)
Definition trim (s : jsstring) : jsstring :=
  rev (trimStart (rev (trimStart s))).

Definition slash : N := 47.
Definition newline : N := 10.

(** [Math.ceil(a / b)] for integers and a divisor other than zero. *)
Definition ceil_div (a b : Z) : Z := - ((- a) / b).

(** [String(n)] for an integer. *)
Definition Number_toString (n : Z) : jsstring :=
  js (NilZero.string_of_int (Z.to_int n)).

(** [(a / b).toFixed(2)] for integers [0 <= a] and [0 < b]: the quotient
    rounded to hundredths, halves upwards. *)
Definition toFixed2 (a b : Z) : jsstring :=
  let hundredths := (200 * a + b) / (2 * b) in
  Number_toString (hundredths / 100) ++ js "." ++
  Number_toString (hundredths mod 100 / 10) ++
  Number_toString (hundredths mod 10).

(** [Buffer.byteLength(s, 'utf8')]: a surrogate pair takes four bytes, a
    lone surrogate is encoded as U+FFFD. *)
Definition is_high_surrogate (c : N) : bool := ((55296 <=? c) && (c <=? 56319))%N.
Definition is_low_surrogate (c : N) : bool := ((56320 <=? c) && (c <=? 57343))%N.

Fixpoint byteLength_from (prev_high : bool) (s : jsstring) : Z :=
  match s with
  | [] => 0
  | c :: s' =>
      if (c <? 128)%N then 1 + byteLength_from false s'
      else if (c <? 2048)%N then 2 + byteLength_from false s'
      else if prev_high && is_low_surrogate c then 1 + byteLength_from false s'
      else 3 + byteLength_from (is_high_surrogate c) s'
  end.

Definition byteLength (s : jsstring) : Z := byteLength_from false s.

(** The digits that [parseInt(s, 10)] reads. *)
Definition digit_of (c : N) : option Z :=
  if ((48 <=? c) && (c <=? 57))%N then Some (Z.of_N c - 48) else None.

Fixpoint digits_value (s : jsstring) (acc : option Z) : option Z :=
  match s with
  | c :: s' =>
      match digit_of c with
      | Some d => digits_value s' (Some (10 * default 0 acc + d))
      | None => acc
      end
  | [] => acc
  end.

(** The number value of an integer, which is the nearest integer that a
    double holds, ties going to the even significand; [None] when that is
    an infinity. An integer below [2 ^ 53] in magnitude is its own number
    value. *)
Definition to_double (n : Z) : option Z :=
  let a := Z.abs n in
  let shift := Z.log2 a - 52 in
  let m :=
    if shift <=? 0 then a
    else
      let q := Z.shiftr a shift in
      let r := a - Z.shiftl q shift in
      let half := Z.shiftl 1 (shift - 1) in
      let q' := if (half <? r) || ((half =? r) && Z.odd q) then q + 1 else q in
      Z.shiftl q' shift in
  if m <? 2 ^ 1024 then Some (Z.sgn n * m) else None.

(** [parseInt(s, 10)]; [None] is [NaN] or an infinity. *)
Definition parseInt (s : jsstring) : option Z :=
  match trimStart s with
  | c :: s' =>
      if (c =? 45)%N then (Z.opp <$> digits_value s' None) ≫= to_double
      else if (c =? 43)%N then digits_value s' None ≫= to_double
      else digits_value (c :: s') None ≫= to_double
  | [] => None
  end.

(** ** Exceptions *)

Record Error := mkError { message : jsstring }.

Inductive result (A : Type) : Type :=
| Ok (a : A)
| Throw (e : Error).
Arguments Ok {A} a.
Arguments Throw {A} e.

Definition rbind {A B} (r : result A) (k : A -> result B) : result B :=
  match r with
  | Ok a => k a
  | Throw e => Throw e
  end.

(** [try { r } catch (error) { h error }] *)
Definition catch {A} (r : result A) (h : Error -> result A) : result A :=
  match r with
  | Ok a => Ok a
  | Throw e => h e
  end.

Definition is_throw {A} (r : result A) : Prop :=
  match r with
  | Ok _ => False
  | Throw _ => True
  end.

Fixpoint rmapM {A B} (f : A -> result B) (l : list A) : result (list B) :=
  match l with
  | [] => Ok []
  | a :: l' =>
      rbind (f a) (fun b => rbind (rmapM f l') (fun bs => Ok (b :: bs)))
  end.

(** ** Dates *)

(** The time values of a [Date], in milliseconds since the epoch: a date is
    valid within 8.64e15 milliseconds of it. *)
Definition MAX_TIME : Z := 8640000000000000.

Definition valid_time (ms : Z) : bool := (- MAX_TIME <=? ms) && (ms <=? MAX_TIME).

(** [new Date(ms).toISOString()], kept as the time value that the text
    denotes; an invalid date throws a [RangeError]. *)
Definition Date_toISOString (ms : Z) : result Z :=
  if valid_time ms then Ok ms
  else Throw (mkError (js "Invalid time value")).

(** ** The runtime *)

Class Runtime := {
  (** structured values, as [JSON.parse] produces them *)
  json : Type;
  (** [JSON.stringify(v)] *)
  JSON_stringify : json -> jsstring;
  (** [JSON.stringify(v, null, 2)] *)
  JSON_stringify_indent : json -> jsstring;
  (** [JSON.parse(s)]; [Throw] is its [SyntaxError] *)
  JSON_parse : jsstring -> result json;
  (** [JSONPath({ path, json })] of jsonpath-plus *)
  JSONPath : jsstring -> json -> result (list json);
  (** compiled regular expressions *)
  regexp : Type;
  (** [new RegExp(pattern, flags)] *)
  RegExp_new : jsstring -> jsstring -> result regexp;
  (** [line.match(regex)] for a global expression: every match, or [null] *)
  String_match : jsstring -> regexp -> option (list jsstring);
  (** [s.toLowerCase()] *)
  toLowerCase : jsstring -> jsstring;
  (** truthiness of a structured value *)
  truthy : json -> bool;
  (** the object literal [{}] *)
  empty_object : json;
  (** [new Date(ms).toISOString()] *)
  toISOString : Z -> jsstring;
  (** [os.homedir()] and [path.join] *)
  homedir : jsstring;
  path_join : jsstring -> jsstring -> jsstring
}.

(** ** types.ts *)

Inductive Mode := text | jsonpath | regex.

Record QueryOptions := mkQueryOptions {
  mode : option Mode;
  limit : option Z;
  offset : option Z;
  contextLines : option Z;
  caseSensitive : option bool
}.

(** [options = {}] *)
Definition no_options : QueryOptions :=
  mkQueryOptions None None None None None.

(** [a || b] on an optional number: [undefined] and [0] are falsy. *)
Definition or_number (a : option Z) (b : Z) : Z :=
  match a with
  | Some v => if v =? 0 then b else v
  | None => b
  end.

(** [a ?? b] *)
Definition nullish {A} (a : option A) (b : A) : A :=
  match a with
  | Some v => v
  | None => b
  end.

(** ** query.ts

    The repository holds two versions of the query engine. They share
    [detectMode], [applyPagination] and [extractChunk] word for word; the
    one embedded here is the one that searches line by line and attaches
    context lines. *)

Module QueryEngine.

Record Match := mkMatch {
  line : Z;
  content : jsstring;
  matched : option jsstring;
  chunk_percent : option Z
}.

Record MatchWithContext := mkMatchWithContext {
  the_match : Match;
  before : list jsstring;
  after : list jsstring
}.

Record Page (A : Type) := mkPage {
  results : list A;
  total : Z;
  page_limit : Z;
  page_offset : Z;
  hasMore : bool
}.
Arguments mkPage {A}.
Arguments results {A}.
Arguments total {A}.
Arguments page_limit {A}.
Arguments page_offset {A}.
Arguments hasMore {A}.

Record Chunk := mkChunk {
  chunk : jsstring;
  chunkNumber : Z;
  totalChunks : Z;
  chunkSize : Z;
  chunk_hasMore : bool
}.

(** Auto-detect query mode based on pattern *)
Definition detectMode (query : jsstring) : Mode :=
  if startsWith query (js "$") then jsonpath
  else if startsWith query (js "/") && endsWith query (js "/") then regex
  else text.

(** Apply pagination to results (for JSONPath) *)
Definition applyPagination {A} (results : list A) (options : QueryOptions)
  : Page A :=
  let limit := or_number (limit options) 100 in
  let offset := or_number (offset options) 0 in
  let paginated := slice results offset (offset + limit) in
  mkPage paginated (len results) limit offset (offset + limit <? len results).

(** [allLines[i].trim()] for [i] from [lo] while [i < hi]. *)
Definition context_lines (allLines : list jsstring) (lo hi : Z)
  : result (list jsstring) :=
  rmapM (fun i =>
           match nth_js allLines i with
           | Some l => Ok (trim l)
           | None =>
               Throw (mkError
                 (js "Cannot read properties of undefined (reading 'trim')"))
           end)
        (seqZ lo (hi - lo)).

Definition add_context (allLines : list jsstring) (contextLines : Z)
    (m : Match) : result MatchWithContext :=
  let lineIndex := line m - 1 in
  rbind (context_lines allLines (Z.max 0 (lineIndex - contextLines)) lineIndex)
    (fun before =>
  rbind (context_lines allLines (lineIndex + 1)
           (Z.min (len allLines - 1) (lineIndex + contextLines) + 1))
    (fun after =>
  Ok (mkMatchWithContext m before after))).

(** Apply pagination with context to results *)
Definition applyPaginationWithContext (matches : list Match)
    (allLines : list jsstring) (options : QueryOptions)
  : result (Page MatchWithContext) :=
  let contextLines := nullish (contextLines options) 2 in
  rbind (rmapM (add_context allLines contextLines) matches)
    (fun matchesWithContext =>
  let limit := or_number (limit options) 100 in
  let offset := or_number (offset options) 0 in
  let paginated := slice matchesWithContext offset (offset + limit) in
  Ok (mkPage paginated (len matches) limit offset
        (offset + limit <? len matches))).

Section WithRuntime.
Context `{Runtime}.

(** JSONPath query *)
Definition queryJsonPath (data : json) (query : jsstring)
    (options : QueryOptions) : result (Page json) :=
  catch
    (rbind (JSONPath query data)
       (fun results => Ok (applyPagination results options)))
    (fun error =>
       Throw (mkError (js "JSONPath query failed: " ++ message error))).

(** The lines of [lines.forEach] for which the callback pushes a match. *)
Fixpoint collect (f : jsstring -> Z -> option Match) (lines : list jsstring)
    (index : Z) : list Match :=
  match lines with
  | [] => []
  | l :: rest =>
      match f l index with
      | Some m => m :: collect f rest (index + 1)
      | None => collect f rest (index + 1)
      end
  end.

(** Regex query on stringified data *)
Definition queryRegex (data : json) (query : jsstring)
    (options : QueryOptions) : result (Page MatchWithContext) :=
  catch
    (let lastSlash := lastIndexOf query slash in
     let pattern := slice query 1 lastSlash in
     let flags :=
       match slice_from query (lastSlash + 1) with
       | [] => js "gi"
       | f => f
       end in
     rbind (RegExp_new pattern
              (if includes flags (js "g") then flags else flags ++ js "g"))
       (fun regex =>
     let dataStr := JSON_stringify_indent data in
     let lines := split newline dataStr in
     let matches :=
       collect (fun line index =>
                  match String_match line regex with
                  | Some lineMatches =>
                      Some (mkMatch (index + 1) (trim line)
                              (head lineMatches)
                              (Some ((index * 100) / len lines)))
                  | None => None
                  end) lines 0 in
     applyPaginationWithContext matches lines options))
    (fun error =>
       Throw (mkError (js "Regex query failed: " ++ message error))).

(** Simple text search with improved matching *)
Definition queryText (data : json) (query : jsstring)
    (options : QueryOptions) : result (Page MatchWithContext) :=
  let dataStr := JSON_stringify_indent data in
  let lines := split newline dataStr in
  let caseSensitive := nullish (caseSensitive options) false in
  let searchQuery := if caseSensitive then query else toLowerCase query in
  let matchingLines :=
    collect (fun line index =>
               let searchLine :=
                 if caseSensitive then line else toLowerCase line in
               if includes searchLine searchQuery
               then Some (mkMatch (index + 1) (trim line) None
                            (Some ((index * 100) / len lines)))
               else None) lines 0 in
  applyPaginationWithContext matchingLines lines options.

Inductive QueryOutput :=
| ValueResults (p : Page json)
| LineResults (p : Page MatchWithContext).

(** Query a response with various modes *)
Definition query (data : json) (q : jsstring) (options : QueryOptions)
  : result QueryOutput :=
  let mode := match mode options with
              | Some m => m
              | None => detectMode q
              end in
  match mode with
  | jsonpath => rbind (queryJsonPath data q options) (fun p => Ok (ValueResults p))
  | regex => rbind (queryRegex data q options) (fun p => Ok (LineResults p))
  | text => rbind (queryText data q options) (fun p => Ok (LineResults p))
  end.

(** Extract chunk from data, for a chunk size other than zero: with zero
    the code counts infinitely many chunks, which [totalChunks] cannot
    hold. *)
Definition extractChunk (data : json) (chunkNumber chunkSize : Z)
  : result Chunk :=
  let dataStr := JSON_stringify_indent data in
  let totalChunks := ceil_div (len dataStr) chunkSize in
  if (chunkNumber <? 0) || (chunkNumber >=? totalChunks) then
    Throw (mkError (js "Invalid chunk number. Valid range: 0-" ++
                    Number_toString (totalChunks - 1)))
  else
    let start := chunkNumber * chunkSize in
    let end_ := Z.min (start + chunkSize) (len dataStr) in
    let chunk := slice dataStr start end_ in
    Ok (mkChunk chunk chunkNumber totalChunks (len chunk)
          (chunkNumber <? totalChunks - 1)).

End WithRuntime.
End QueryEngine.

(** ** query.ts, the copy under [src/src]

    This is the copy that [proxy.ts] imports. It detects the mode, evaluates
    a JSONPath, paginates and cuts chunks with the same code as the copy
    above; its text and regex searches are older: they return plain lines
    and plain matches, without context, flags or case sensitivity. *)

Module QueryEngineSrc.

Record Line := mkLine {
  line : Z;
  content : jsstring
}.

Section WithRuntime.
Context `{Runtime}.

Inductive Output :=
| ValueResults (p : QueryEngine.Page json)
| MatchResults (p : QueryEngine.Page jsstring)
| LineResults (p : QueryEngine.Page Line).

(** [results.total], [results.offset], [results.limit] and
    [results.results.length] *)
Definition output_total (results : Output) : Z :=
  match results with
  | ValueResults p => QueryEngine.total p
  | MatchResults p => QueryEngine.total p
  | LineResults p => QueryEngine.total p
  end.

Definition output_offset (results : Output) : Z :=
  match results with
  | ValueResults p => QueryEngine.page_offset p
  | MatchResults p => QueryEngine.page_offset p
  | LineResults p => QueryEngine.page_offset p
  end.

Definition output_limit (results : Output) : Z :=
  match results with
  | ValueResults p => QueryEngine.page_limit p
  | MatchResults p => QueryEngine.page_limit p
  | LineResults p => QueryEngine.page_limit p
  end.

Definition output_count (results : Output) : Z :=
  match results with
  | ValueResults p => len (QueryEngine.results p)
  | MatchResults p => len (QueryEngine.results p)
  | LineResults p => len (QueryEngine.results p)
  end.

(** The strings [match[0]] that the loop
    [while ((match = regex.exec(dataStr)) !== null)] pushes; [None] when
    the loop does not end, as for an expression that matches the empty
    string, after which [lastIndex] stays where it is. *)
Variable exec_all : regexp -> jsstring -> option (list jsstring).

(** Regex query on stringified data; [None] when it does not return. *)
Definition queryRegex (data : json) (query : jsstring)
    (options : QueryOptions) : option (result (QueryEngine.Page jsstring)) :=
  (* Remove leading/trailing slashes *)
  let pattern := slice query 1 (-1) in
  match RegExp_new pattern (js "g") with
  | Ok re =>
      let dataStr := JSON_stringify_indent data in
      match exec_all re dataStr with
      | Some matches => Some (Ok (QueryEngine.applyPagination matches options))
      | None => None
      end
  | Throw error =>
      Some (Throw (mkError (js "Regex query failed: " ++ message error)))
  end.

(** The lines of [lines.forEach] that contain the query. *)
Fixpoint matching (lowerQuery : jsstring) (lines : list jsstring) (index : Z)
  : list Line :=
  match lines with
  | [] => []
  | l :: rest =>
      if includes (toLowerCase l) lowerQuery
      then mkLine (index + 1) (trim l) :: matching lowerQuery rest (index + 1)
      else matching lowerQuery rest (index + 1)
  end.

(** Simple text search *)
Definition queryText (data : json) (query : jsstring)
    (options : QueryOptions) : QueryEngine.Page Line :=
  let dataStr := JSON_stringify_indent data in
  let lines := split newline dataStr in
  let lowerQuery := toLowerCase query in
  let matchingLines := matching lowerQuery lines 0 in
  QueryEngine.applyPagination matchingLines options.

(** Query a response with various modes; [None] when the call does not
    return. *)
Definition query (data : json) (q : jsstring) (options : QueryOptions)
  : option (result Output) :=
  let mode := match mode options with
              | Some m => m
              | None => QueryEngine.detectMode q
              end in
  match mode with
  | jsonpath =>
      Some (rbind (QueryEngine.queryJsonPath data q options)
              (fun p => Ok (ValueResults p)))
  | regex =>
      match queryRegex data q options with
      | Some r => Some (rbind r (fun p => Ok (MatchResults p)))
      | None => None
      end
  | text => Some (Ok (LineResults (queryText data q options)))
  end.

End WithRuntime.
End QueryEngineSrc.

(** ** types.ts and config.ts *)

Record ClientInfo := mkClientInfo {
  name : jsstring;
  version : jsstring
}.

Record StreamConfig := mkStreamConfig {
  maxTokens : Z;
  chunkSize : Z;
  ttl : Z;
  cacheDir : jsstring;
  enableIndexing : bool;
  compression : bool;
  debug : bool
}.

Definition CLIENT_PRESETS : list (jsstring * Z) :=
  [ (js "claude-ai", 25000);
    (js "claude-code", 25000);
    (js "cursor", 30000);
    (js "cline", 25000);
    (js "default", 20000) ].

Definition DEFAULT_CONFIG : StreamConfig :=
  mkStreamConfig 25000 10000 3600 (js "~/.mcp-cache/cache") true true false.

(** [CLIENT_PRESETS[key]] *)
Fixpoint preset (table : list (jsstring * Z)) (key : jsstring) : option Z :=
  match table with
  | [] => None
  | (k, v) :: rest => if decide (k = key) then Some v else preset rest key
  end.

(** The variables of [process.env] that the configuration reads. *)
Record Env := mkEnv {
  MCP_CACHE_MAX_TOKENS : option jsstring;
  MCP_CACHE_CHUNK_SIZE : option jsstring;
  MCP_CACHE_TTL : option jsstring;
  MCP_CACHE_CACHE_DIR : option jsstring;
  MCP_CACHE_ENABLE_INDEXING : option jsstring;
  MCP_CACHE_COMPRESSION : option jsstring;
  MCP_CACHE_DEBUG : option jsstring
}.

Definition empty_env : Env := mkEnv None None None None None None None.

(** [if (process.env.X)]: set and not the empty string. *)
Definition env_set (v : option jsstring) : option jsstring :=
  match v with
  | Some (c :: s) => Some (c :: s)
  | _ => None
  end.

Module ConfigManager.
Section WithRuntime.
Context `{Runtime}.

(** A numeric override; the outer [None] stands for a value that
    [parseInt] turns into [NaN] or an infinity, which the integer fields do
    not hold. *)
Definition override_number (v : option jsstring) (current : Z) : option Z :=
  match env_set v with
  | Some s => parseInt s
  | None => Some current
  end.

Definition override_flag (v : option jsstring) (current : bool) : bool :=
  match v with
  | Some s => bool_decide (s = js "true")
  | None => current
  end.

Definition loadConfig (env : Env) (clientInfo : option ClientInfo)
  : option StreamConfig :=
  let config := DEFAULT_CONFIG in
  (* 1. Apply client-specific presets *)
  let maxTokens1 :=
    match clientInfo with
    | Some ci =>
        or_number (preset CLIENT_PRESETS (name ci))
                  (default 0 (preset CLIENT_PRESETS (js "default")))
    | None => maxTokens config
    end in
  (* 2. Override with environment variables *)
  maxTokens2 ← override_number (MCP_CACHE_MAX_TOKENS env) maxTokens1;
  chunkSize2 ← override_number (MCP_CACHE_CHUNK_SIZE env) (chunkSize config);
  ttl2 ← override_number (MCP_CACHE_TTL env) (ttl config);
  let cacheDir2 := default (cacheDir config) (env_set (MCP_CACHE_CACHE_DIR env)) in
  let enableIndexing2 :=
    override_flag (MCP_CACHE_ENABLE_INDEXING env) (enableIndexing config) in
  let compression2 :=
    override_flag (MCP_CACHE_COMPRESSION env) (compression config) in
  let debug2 := override_flag (MCP_CACHE_DEBUG env) (debug config) in
  (* 3. Expand home directory *)
  let cacheDir3 :=
    if startsWith cacheDir2 (js "~")
    then path_join homedir (slice_from cacheDir2 1)
    else cacheDir2 in
  Some (mkStreamConfig maxTokens2 chunkSize2 ttl2 cacheDir3
          enableIndexing2 compression2 debug2).

Definition getMaxTokens (config : StreamConfig) : Z := maxTokens config.
Definition getChunkSize (config : StreamConfig) : Z := chunkSize config.
Definition getTTL (config : StreamConfig) : Z := ttl config.

End WithRuntime.
End ConfigManager.

(** ** cache.ts *)

Module CacheManager.

Record ResponseMetadata := mkResponseMetadata {
  id : jsstring;
  tool : jsstring;
  sizeBytes : Z;
  createdAt : Z;
  expiresAt : Z;
  client : jsstring;
  chunks : Z;
  indexed : bool
}.

(** The cache directory. For an id it holds at most the file [<id>.json],
    whose text is kept as it was written, and the file [<id>.meta.json],
    kept as the metadata record that its text denotes. The two time stamps
    of a record are kept in milliseconds since the epoch rather than as the
    ISO strings that denote them. Writing into the directory succeeds;
    reading or unlinking a file that is not there throws.

    The two maps describe a directory by the ids of its files, and that is
    right for ids without a full stop, as the manager gives them out. For
    an id [<k>.meta] the file [<id>.json] is the metadata file of [<k>],
    which the maps keep apart: statements about an id that a client may have
    made up say that it holds no full stop. *)
Record CacheDir := mkCacheDir {
  dataFiles : gmap jsstring jsstring;
  metaFiles : gmap jsstring ResponseMetadata
}.

(** A computation on the cache directory that may throw. The directory that
    comes back is the one at the return or at the throw. *)
Definition io (A : Type) : Type := CacheDir -> result A * CacheDir.

Definition ret {A} (a : A) : io A := fun d => (Ok a, d).

Definition throw {A} (e : Error) : io A := fun d => (Throw e, d).

Definition bind {A B} (c : io A) (k : A -> io B) : io B :=
  fun d =>
    match c d with
    | (Ok a, d') => k a d'
    | (Throw e, d') => (Throw e, d')
    end.

Definition try_catch {A} (c : io A) (h : Error -> io A) : io A :=
  fun d =>
    match c d with
    | (Ok a, d') => (Ok a, d')
    | (Throw e, d') => h e d'
    end.

Definition lift {A} (r : result A) : io A := fun d => (r, d).

#[global] Instance io_ret : MRet io := @ret.
#[global] Instance io_bind : MBind io := fun A B k c => bind c k.

Definition ENOENT : Error :=
  mkError (js "ENOENT: no such file or directory").

(** [readFile(this.getFilePath(id), 'utf8')] *)
Definition readFile_data (id : jsstring) : io jsstring :=
  fun d =>
    match dataFiles d !! id with
    | Some s => (Ok s, d)
    | None => (Throw ENOENT, d)
    end.

(** [JSON.parse(await readFile(this.getMetaFilePath(id), 'utf8'))] *)
Definition readFile_meta (id : jsstring) : io ResponseMetadata :=
  fun d =>
    match metaFiles d !! id with
    | Some m => (Ok m, d)
    | None => (Throw ENOENT, d)
    end.

(** [writeFile(this.getFilePath(id), s, 'utf8')] *)
Definition writeFile_data (id s : jsstring) : io unit :=
  fun d => (Ok tt, mkCacheDir (<[id := s]> (dataFiles d)) (metaFiles d)).

(** [writeFile(this.getMetaFilePath(id), JSON.stringify(m, null, 2), 'utf8')] *)
Definition writeFile_meta (id : jsstring) (m : ResponseMetadata) : io unit :=
  fun d => (Ok tt, mkCacheDir (dataFiles d) (<[id := m]> (metaFiles d))).

(** [unlink(this.getFilePath(id))] *)
Definition unlink_data (id : jsstring) : io unit :=
  fun d =>
    match dataFiles d !! id with
    | Some _ => (Ok tt, mkCacheDir (base.delete id (dataFiles d)) (metaFiles d))
    | None => (Throw ENOENT, d)
    end.

(** [unlink(this.getMetaFilePath(id))] *)
Definition unlink_meta (id : jsstring) : io unit :=
  fun d =>
    match metaFiles d !! id with
    | Some _ => (Ok tt, mkCacheDir (dataFiles d) (base.delete id (metaFiles d)))
    | None => (Throw ENOENT, d)
    end.

(** [bytes.toString('hex')] *)
Definition hex_digit (n : N) : N :=
  (if n <? 10 then 48 + n else 87 + n)%N.

Definition hex (bytes : list N) : jsstring :=
  bytes ≫= (fun b => [hex_digit (b / 16); hex_digit (b mod 16)]%N).

(** [generateId], from the six bytes that [randomBytes(6)] returned. *)
Definition generateId (random : list N) : jsstring :=
  js "resp_" ++ hex random.

Definition getMetadata (id : jsstring) : io (option ResponseMetadata) :=
  try_catch
    (data ← readFile_meta id;
     ret (Some data))
    (fun error => ret None).

Definition delete (id : jsstring) : io bool :=
  try_catch
    (unlink_data id;;
     unlink_meta id;;
     ret true)
    (fun error => ret false).

(** [s.replace(pattern, '')]: the first occurrence of [pattern] is taken
    out. *)
Fixpoint remove_first (pattern s : jsstring) : jsstring :=
  if startsWith s pattern then drop (length pattern) s
  else match s with
       | [] => []
       | c :: s' => c :: remove_first pattern s'
       end.

(** [readdir(this.cacheDir)]: the names of the files of the directory. The
    order of the names is the one of the operating system; here the payload
    files come first. *)
Definition readdir (d : CacheDir) : list jsstring :=
  ((fun k => k ++ js ".json") <$> (map_to_list (dataFiles d)).*1) ++
  ((fun k => k ++ js ".meta.json") <$> (map_to_list (metaFiles d)).*1).

(** [list]; every [getMetadata] of its [Promise.all] only reads. *)
Definition list_ : io (list ResponseMetadata) :=
  try_catch
    (files ← (fun d => (Ok (readdir d), d));
     let metaFiles :=
       List.filter (fun f => endsWith f (js ".meta.json")) files in
     metadata ← mapM (fun file =>
                        let id := remove_first (js ".meta.json") file in
                        getMetadata id) metaFiles;
     ret (omap (fun m => m) metadata))
    (fun error => ret []).

(** The loop of [cleanup] over the listed items. *)
Fixpoint cleanup_loop (now : Z) (items : list ResponseMetadata) (cleaned : Z)
  : io Z :=
  match items with
  | [] => ret cleaned
  | item :: rest =>
      if expiresAt item <? now
      then delete (id item);; cleanup_loop now rest (cleaned + 1)
      else cleanup_loop now rest cleaned
  end.

(** [cleanup]; [now] is the clock read by its [new Date()]. *)
Definition cleanup (now : Z) : io Z :=
  items ← list_;
  cleanup_loop now items 0.

(** [refresh]; [ttl] is the field of the manager and [now] the clock. The
    new expiry is turned into text before the [try]: one that is no valid
    date throws. *)
Definition refresh (ttl now : Z) (response_id : jsstring) : io bool :=
  metadata ← getMetadata response_id;
  match metadata with
  | None => ret false
  | Some m =>
      let expiresAt := now + ttl * 1000 in
      expiresAt ← lift (Date_toISOString expiresAt);
      let metadata :=
        mkResponseMetadata (id m) (tool m) (sizeBytes m) (createdAt m)
          expiresAt (client m) (chunks m) (indexed m) in
      try_catch
        (writeFile_meta response_id metadata;;
         ret true)
        (fun error => ret false)
  end.

(** A directory as the manager itself leaves it: a metadata record sits
    under its own id, and no id holds a full stop. *)
Definition consistent (d : CacheDir) : Prop :=
  (forall k m, metaFiles d !! k = Some m -> id m = k /\ 46%N ∉ k) /\
  (forall k s, dataFiles d !! k = Some s -> 46%N ∉ k).

(** The metadata of [k] is there and has expired at [now]. *)
Definition expired (now : Z) (d : CacheDir) (k : jsstring) : bool :=
  match metaFiles d !! k with
  | Some m => expiresAt m <? now
  | None => false
  end.

Section WithRuntime.
Context `{Runtime}.

(** [save]; [ttl] is the field of the manager, [random] the bytes drawn by
    [generateId] and [now] the clock read by [new Date()]. The two calls of
    [toISOString] come before the [try]: an expiry that is no valid date
    throws, and nothing is written. *)
Definition save (ttl : Z) (random : list N) (now : Z)
    (tool : jsstring) (data : json) (client : jsstring) : io jsstring :=
  let id := generateId random in
  let expiresAt := now + ttl * 1000 in
  let dataStr := JSON_stringify data in
  let sizeBytes := byteLength dataStr in
  createdAt ← lift (Date_toISOString now);
  expiresAt ← lift (Date_toISOString expiresAt);
  let chunks := ceil_div (len dataStr) 10000 in (* rough estimate *)
  let metadata :=
    mkResponseMetadata id tool sizeBytes createdAt expiresAt client chunks
      false in
  try_catch
    ((* Save data *)
     writeFile_data id dataStr;;
     (* Save metadata *)
     writeFile_meta id metadata;;
     ret id)
    (fun error => throw error).

(** [get]; [None] is the [null] of its two [return null] statements. *)
Definition get (now : Z) (id : jsstring) : io (option json) :=
  try_catch
    ((* Check if expired *)
     metadata ← getMetadata id;
     if match metadata with
        | Some m => expiresAt m <? now
        | None => false
        end
     then delete id;; ret None
     else data ← readFile_data id;
          v ← lift (JSON_parse data);
          ret (Some v))
    (fun error => ret None).

End WithRuntime.
End CacheManager.

(** The state of a promise of [sendRequest] once it is settled: resolved
    with the [result] field of the response ([None] when the response has
    no such field) or rejected with an error. *)
Inductive Settlement `{Runtime} : Type :=
| Resolved (v : option json)
| Rejected (e : Error).

(** ** proxy.ts *)

Module MCPProxy.
Import CacheManager.
Section WithRuntime.
Context `{Runtime}.

(** What a tool call returns to the client: the response of the target
    server as it is, or [{ content: [{ type: 'text', text }], isError }]. *)
Inductive CallToolResult : Type :=
| Forwarded (response : json)
| TextContent (text : jsstring) (isError : bool).

(** The fields of the proxy that a forwarded call reads. *)
Record Proxy := mkProxy {
  configManager : StreamConfig;
  cacheManager_ttl : Z;
  clientInfo : option ClientInfo
}.

(** [this.clientInfo?.name || 'unknown'] *)
Definition client_label (p : Proxy) : jsstring :=
  match clientInfo p with
  | Some (mkClientInfo (c :: n) _) => c :: n
  | _ => js "unknown"
  end.

(** [await this.targetTransport.sendRequest(...)] *)
Definition await (outcome : Settlement) : io (option json) :=
  match outcome with
  | Resolved v => ret v
  | Rejected e => throw e
  end.

(** The response as [JSON.stringify(response).length] needs it:
    [JSON.stringify(undefined)] is [undefined], and reading its [length]
    throws a [TypeError]. *)
Definition serializable (response : option json) : io json :=
  match response with
  | Some v => ret v
  | None =>
      throw (mkError
        (js "Cannot read properties of undefined (reading 'length')"))
  end.

Definition saved_summary (responseSize : Z) (responseId : jsstring)
    (metadata : option ResponseMetadata) : jsstring :=
  let sizeKB := toFixed2 responseSize 1024 in
  js "Response too large (" ++ sizeKB ++ js "KB, " ++
  match metadata with
  | Some m => Number_toString (chunks m)
  | None => js "undefined"
  end ++ js " chunks). Saved as " ++ responseId ++ [46; 10; 10]%N ++
  js "Use query_response('" ++ responseId ++ js "', '<query>') to search." ++
  [newline] ++
  js "Use get_chunk('" ++ responseId ++ js "', 0) to read first chunk." ++
  [newline; newline] ++
  js "Expires: " ++
  match metadata with
  | Some m => toISOString (expiresAt m)
  | None => js "undefined"
  end.

Definition size_limit_text : jsstring :=
  js "Response exceeded MCP protocol size limit (1MB). This is a known issue." ++
  [newline; newline] ++
  js "The response was too large to cache. Please try:" ++ [newline] ++
  js "1. Using more specific queries (e.g., CSS selectors)" ++ [newline] ++
  js "2. Breaking the operation into smaller parts" ++ [newline] ++
  js "3. Using simpler tools that return less data".

(** [forwardToolCall]; [outcome] is how the promise of
    [sendRequest('tools/call', { name, arguments })] was settled, [random] and
    [now] are what [save] draws and reads. *)
Definition forwardToolCall (p : Proxy) (toolName : jsstring)
    (outcome : Settlement) (random : list N) (now : Z) : io CallToolResult :=
  try_catch
    ((* Forward to target server *)
     response ← await outcome;
     (* Check response size with multiple thresholds *)
     response ← serializable response;
     let responseSize := len (JSON_stringify response) in
     let MCP_SDK_LIMIT := 900000 in
     let tokenLimit := ConfigManager.getMaxTokens (configManager p) * 4 in
     let maxSize := Z.min MCP_SDK_LIMIT tokenLimit in
     if responseSize >? maxSize then
       (* Save to cache *)
       responseId ← save (cacheManager_ttl p) random now
                      toolName response (client_label p);
       metadata ← getMetadata responseId;
       ret (TextContent (saved_summary responseSize responseId metadata) false)
     else
       (* Return response as-is if small enough *)
       ret (Forwarded response))
    (fun error =>
       let errorMsg := message error in
       (* If it's a size error, try to provide helpful message *)
       if includes errorMsg (js "maximum length")
          || includes errorMsg (js "exceeds")
       then ret (TextContent size_limit_text false)
       else ret (TextContent
                   (js "Error calling " ++ toolName ++ js ": " ++ errorMsg)
                   true)).

(** The fields of the proxy as [start] leaves them, once the target server
    is initialised and the client connected: the client is taken to be
    [claude-ai], and the configuration and the ttl of the cache manager are
    loaded for it. [None] stands for a configuration with a [NaN]. *)
Definition start (env : Env) : option Proxy :=
  (* For now, use a default client name *)
  let clientInfo := mkClientInfo (js "claude-ai") (js "0.1.0") in
  (* Update config with client info *)
  config ← ConfigManager.loadConfig env (Some clientInfo);
  Some (mkProxy config (ttl config) (Some clientInfo)).

(** *** The management tools *)

(** A tool as [tools/list] describes it: its name, the properties of its
    input schema with their types, and the required ones. The descriptions
    are left out. *)
Record Tool := mkTool {
  tool_name : jsstring;
  tool_properties : list (jsstring * jsstring);
  tool_required : list jsstring
}.

Definition getManagementTools : list Tool :=
  [ mkTool (js "query_response")
      [ (js "response_id", js "string"); (js "query", js "string");
        (js "mode", js "string"); (js "limit", js "number") ]
      [ js "response_id"; js "query" ];
    mkTool (js "get_chunk")
      [ (js "response_id", js "string"); (js "chunk_number", js "number") ]
      [ js "response_id"; js "chunk_number" ];
    mkTool (js "list_responses") [] [];
    mkTool (js "get_response_info")
      [ (js "response_id", js "string") ] [ js "response_id" ];
    mkTool (js "refresh_response")
      [ (js "response_id", js "string") ] [ js "response_id" ];
    mkTool (js "delete_response")
      [ (js "response_id", js "string") ] [ js "response_id" ] ].

Definition isManagementTool (toolName : jsstring) : bool :=
  bool_decide
    (toolName ∈ [ js "query_response"; js "get_chunk"; js "list_responses";
                  js "get_response_info"; js "refresh_response";
                  js "delete_response" ]).

(** The arguments of a call to a management tool, with the types that the
    input schemas declare: [response_id] and [query] are strings, [mode] and
    [limit] may be left out, [chunk_number] is an integer. A [response_id]
    that is left out reads as the text [undefined] wherever it is used. *)
Record ToolArgs := mkToolArgs {
  response_id : jsstring;
  arg_query : jsstring;
  arg_mode : option Mode;
  arg_limit : option Z;
  chunk_number : Z
}.

Definition MAX_RESPONSE_SIZE : Z := 800000. (* 800KB to be safe *)

Section ManagementTools.

(** [this.queryEngine.query(data, query, options)] of the engine that the
    proxy imports, for a call that returns or throws. A call that does not
    return has no value here: what the handlers do is said of the calls
    that come back. *)
Variable query : json -> jsstring -> QueryOptions -> result QueryEngineSrc.Output.

(** [JSON.stringify(x, null, 2)] of the results of a query, of a metadata
    record and of a list of metadata records. *)
Variable results_text : QueryEngineSrc.Output -> jsstring.
Variable metadata_text : ResponseMetadata -> jsstring.
Variable list_text : list ResponseMetadata -> jsstring.

Definition truncated_text (results : QueryEngineSrc.Output) : jsstring :=
  let resultsStr := results_text results in
  (* Truncate results and provide info *)
  let truncated := take (Z.to_nat MAX_RESPONSE_SIZE) resultsStr in
  js "Query results are too large (" ++ toFixed2 (len resultsStr) 1024 ++
  js "KB). Showing first 800KB:" ++ [newline; newline] ++
  truncated ++ [newline; newline] ++
  js "[... " ++ Number_toString (len resultsStr - MAX_RESPONSE_SIZE) ++
  js " bytes truncated]" ++ [newline; newline] ++
  js "Total results: " ++
  (if QueryEngineSrc.output_total results =? 0 then js "unknown"
   else Number_toString (QueryEngineSrc.output_total results)) ++ [newline] ++
  js "Tip: Use a more specific query or increase the 'limit' parameter to get fewer results.".

(** In the two handlers that read the payload, [!data] holds for the [null]
    of [get] and for a payload that is falsy. *)
Definition handleQueryResponse (now : Z) (args : ToolArgs)
  : io CallToolResult :=
  data ← get now (response_id args);
  match data with
  | Some data' =>
      if truthy data' then
        let results_or_throw :=
          query data' (arg_query args)
            (mkQueryOptions (arg_mode args) (arg_limit args) None None None) in
        results ← lift results_or_throw;
        (* Check if results are too large *)
        let resultsStr := results_text results in
        if len resultsStr >? MAX_RESPONSE_SIZE
        then ret (TextContent (truncated_text results) false)
        else ret (TextContent resultsStr false)
      else
        throw (mkError (js "Response " ++ response_id args ++
                        js " not found or expired"))
  | None =>
      throw (mkError (js "Response " ++ response_id args ++
                      js " not found or expired"))
  end.

Definition chunk_text (args : ToolArgs) (result : QueryEngine.Chunk)
  : jsstring :=
  js "Chunk " ++ Number_toString (chunk_number args + 1) ++ js "/" ++
  Number_toString (QueryEngine.totalChunks result) ++ js " of " ++
  response_id args ++ js ":" ++ [newline; newline] ++
  QueryEngine.chunk result.

(** [extractChunk] is the same code in both copies of the engine. *)
Definition handleGetChunk (now : Z) (p : Proxy) (args : ToolArgs)
  : io CallToolResult :=
  data ← get now (response_id args);
  match data with
  | Some data' =>
      if truthy data' then
        let config := configManager p in
        result ← lift (QueryEngine.extractChunk data' (chunk_number args)
                         (chunkSize config));
        ret (TextContent (chunk_text args result) false)
      else
        throw (mkError (js "Response " ++ response_id args ++
                        js " not found or expired"))
  | None =>
      throw (mkError (js "Response " ++ response_id args ++
                      js " not found or expired"))
  end.

Definition handleListResponses : io CallToolResult :=
  responses ← list_;
  ret (TextContent (list_text responses) false).

Definition handleGetResponseInfo (args : ToolArgs) : io CallToolResult :=
  metadata ← getMetadata (response_id args);
  match metadata with
  | None =>
      throw (mkError (js "Response " ++ response_id args ++ js " not found"))
  | Some m => ret (TextContent (metadata_text m) false)
  end.

Definition handleRefreshResponse (now : Z) (p : Proxy) (args : ToolArgs)
  : io CallToolResult :=
  success ← refresh (cacheManager_ttl p) now (response_id args);
  if success : bool then
    metadata ← getMetadata (response_id args);
    ret (TextContent
           (js "Refreshed " ++ response_id args ++ js ". New expiry: " ++
            match metadata with
            | Some m => toISOString (expiresAt m)
            | None => js "undefined"
            end) false)
  else throw (mkError (js "Failed to refresh " ++ response_id args)).

Definition handleDeleteResponse (args : ToolArgs) : io CallToolResult :=
  success ← delete (response_id args);
  ret (TextContent
         (if success : bool then js "Deleted " ++ response_id args
          else js "Failed to delete " ++ response_id args) false).

(** The [catch] of [handleManagementTool]. *)
Definition error_text (error : Error) : io CallToolResult :=
  ret (TextContent (js "Error: " ++ message error) false).

Definition handleManagementTool (now : Z) (p : Proxy) (toolName : jsstring)
    (args : ToolArgs) : io CallToolResult :=
  try_catch
    (if decide (toolName = js "query_response")
     then handleQueryResponse now args
     else if decide (toolName = js "get_chunk")
     then handleGetChunk now p args
     else if decide (toolName = js "list_responses")
     then handleListResponses
     else if decide (toolName = js "get_response_info")
     then handleGetResponseInfo args
     else if decide (toolName = js "refresh_response")
     then handleRefreshResponse now p args
     else if decide (toolName = js "delete_response")
     then handleDeleteResponse args
     else throw (mkError (js "Unknown management tool: " ++ toolName)))
    error_text.

(** The handler of [tools/call]; [outcome] is only looked at when the call
    is forwarded. *)
Definition callTool (now : Z) (p : Proxy) (toolName : jsstring)
    (args : ToolArgs) (outcome : Settlement) (random : list N)
  : io CallToolResult :=
  (* Check if it's a management tool *)
  if isManagementTool toolName
  then handleManagementTool now p toolName args
  else (* Forward to target server and handle response *)
       forwardToolCall p toolName outcome random now.

End ManagementTools.

End WithRuntime.
End MCPProxy.

(** ** transport.ts *)

Module TargetServerTransport.
Section WithRuntime.
Context `{Runtime}.

(** The [error] member of a response, when it is there and truthy. *)
Record RpcError := mkRpcError {
  error_message : option jsstring
}.

(** A parsed incoming message. [msg_id = None] is a message without an
    [id]; an [id] that is not a number finds no handler, as a number that
    was never allocated does. *)
Record Message := mkMessage {
  msg_id : option Z;
  msg_result : option json;
  msg_error : option RpcError;
  msg_method : option jsstring
}.

(** A line written to the target server. *)
Record Request := mkRequest {
  req_id : option Z;
  req_method : jsstring;
  req_params : json
}.

(** The closure that [sendRequest] registers for the request [id]: it
    settles the promise of that call. *)
Inductive Handler := SettleRequest (id : Z).

Record Transport := mkTransport {
  messageHandlers : gmap Z Handler;
  (** number of listeners registered by [onNotification] *)
  notificationHandlers : nat;
  nextId : Z;
  (** lines written to [inputStream], the latest first; [None] before [start] *)
  inputStream : option (list Request);
  (** the promises returned by [sendRequest], by request id, once settled *)
  promises : gmap Z Settlement;
  (** pending [setTimeout] calls: delay in milliseconds and request id *)
  timers : list (Z * Z);
  (** notifications handed to listeners: listener and message, latest first *)
  delivered : list (nat * Message)
}.

Definition initial : Transport :=
  mkTransport ∅ 0 1 None ∅ [] [].

(** [resolve] and [reject]: a promise is settled once. *)
Definition settle (id : Z) (s : Settlement) (t : Transport) : Transport :=
  match promises t !! id with
  | Some _ => t
  | None =>
      mkTransport (messageHandlers t) (notificationHandlers t) (nextId t)
        (inputStream t) (<[id := s]> (promises t)) (timers t) (delivered t)
  end.

Definition set_handlers (h : gmap Z Handler) (t : Transport) : Transport :=
  mkTransport h (notificationHandlers t) (nextId t)
    (inputStream t) (promises t) (timers t) (delivered t).

(** [params || {}] *)
Definition params_or_empty (params : option json) : json :=
  match params with
  | Some v => if truthy v then v else empty_object
  | None => empty_object
  end.

(** [this.inputStream?.write(message)] *)
Definition write (r : Request) (t : Transport) : Transport :=
  mkTransport (messageHandlers t) (notificationHandlers t) (nextId t)
    (cons r <$> inputStream t) (promises t) (timers t) (delivered t).

Definition REQUEST_TIMEOUT : Z := 30000.

(** [sendRequest]: the id of the request, which names the promise that is
    returned, and the transport after the call. *)
Definition sendRequest (method : jsstring) (params : option json)
    (t : Transport) : Z * Transport :=
  let id := nextId t in
  let t1 :=
    mkTransport (messageHandlers t) (notificationHandlers t) (nextId t + 1)
      (inputStream t) (promises t) (timers t) (delivered t) in
  let request := mkRequest (Some id) method (params_or_empty params) in
  let t2 := set_handlers (<[id := SettleRequest id]> (messageHandlers t1)) t1 in
  let t3 := write request t2 in
  (* Timeout after 30 seconds *)
  (id, mkTransport (messageHandlers t3) (notificationHandlers t3) (nextId t3)
         (inputStream t3) (promises t3)
         ((REQUEST_TIMEOUT, id) :: timers t3) (delivered t3)).

(** [sendNotification]: the same line without an id; nothing is awaited. *)
Definition sendNotification (method : jsstring) (params : option json)
    (t : Transport) : Transport :=
  write (mkRequest None method (params_or_empty params)) t.

(** [onNotification]: one more listener. *)
Definition onNotification (t : Transport) : Transport :=
  mkTransport (messageHandlers t) (S (notificationHandlers t)) (nextId t)
    (inputStream t) (promises t) (timers t) (delivered t).

(** The callback of that timer, when it fires. *)
Definition on_timeout (id : Z) (t : Transport) : Transport :=
  match messageHandlers t !! id with
  | Some _ =>
      settle id (Rejected (mkError (js "Request timeout")))
        (set_handlers (base.delete id (messageHandlers t)) t)
  | None => t
  end.

(** The body of a registered handler. *)
Definition run_handler (h : Handler) (response : Message) (t : Transport)
  : Transport :=
  match h with
  | SettleRequest id =>
      match msg_error response with
      | Some e =>
          settle id
            (Rejected (mkError
               match error_message e with
               | Some (c :: m) => c :: m
               | _ => js "Unknown error"
               end)) t
      | None => settle id (Resolved (msg_result response)) t
      end
  end.

Definition handleMessage (message : Message) (t : Transport) : Transport :=
  match msg_id message with
  | Some id =>
      (* Response to a request *)
      match messageHandlers t !! id with
      | Some handler =>
          let t' := run_handler handler message t in
          set_handlers (base.delete id (messageHandlers t')) t'
      | None => t
      end
  | None =>
      match msg_method message with
      | Some (_ :: _) =>
          (* Notification from server *)
          mkTransport (messageHandlers t) (notificationHandlers t) (nextId t)
            (inputStream t) (promises t) (timers t)
            (rev ((fun h => (h, message)) <$> seq 0 (notificationHandlers t))
               ++ delivered t)
      | _ => t
      end
  end.

(** What happens to a transport, one event at a time. *)
Inductive Event :=
| Send (method : jsstring) (params : option json)
| Notify (method : jsstring) (params : option json)
| Listen
| Receive (message : Message)
| TimerFired (id : Z).

Definition step (t : Transport) (e : Event) : Transport :=
  match e with
  | Send method params => snd (sendRequest method params t)
  | Notify method params => sendNotification method params t
  | Listen => onNotification t
  | Receive message => handleMessage message t
  | TimerFired id => on_timeout id t
  end.

Definition run (events : list Event) (t : Transport) : Transport :=
  foldl step t events.

(** How an event settles the pending request [id], if it does. *)
Definition settles (id : Z) (e : Event) : option Settlement :=
  match e with
  | Receive message =>
      if decide (msg_id message = Some id) then
        Some match msg_error message with
             | Some err =>
                 Rejected (mkError
                   match error_message err with
                   | Some (c :: m) => c :: m
                   | _ => js "Unknown error"
                   end)
             | None => Resolved (msg_result message)
             end
      else None
  | TimerFired id' =>
      if decide (id' = id) then Some (Rejected (mkError (js "Request timeout")))
      else None
  | Send _ _ | Notify _ _ | Listen => None
  end.

(** The first event of a trace that settles [id]. *)
Fixpoint first_settling (id : Z) (events : list Event) : option Settlement :=
  match events with
  | [] => None
  | e :: rest =>
      match settles id e with
      | Some s => Some s
      | None => first_settling id rest
      end
  end.

(** Reachable transports: every registered handler is the closure of its own
    key, below the next id, and its promise is not settled. *)
Definition well_formed (t : Transport) : Prop :=
  (forall k h, messageHandlers t !! k = Some h ->
     h = SettleRequest k /\ k < nextId t /\ promises t !! k = None) /\
  (forall k s, promises t !! k = Some s -> k < nextId t).

(** The request [id] is waiting for its response. *)
Definition pending (id : Z) (t : Transport) : Prop :=
  messageHandlers t !! id = Some (SettleRequest id) /\ promises t !! id = None.

(** The promise of the request [id] is settled and its handler is gone. *)
Definition settled (id : Z) (s : Settlement) (t : Transport) : Prop :=
  messageHandlers t !! id = None /\ promises t !! id = Some s.

End WithRuntime.
End TargetServerTransport.


(** Every id that has been handed out is either waiting, with its own
    handler and no settled promise, or settled, with no handler left. *)
Definition accounted `{Runtime} (t : TargetServerTransport.Transport) : Prop :=
  forall k, 1 <= k < TargetServerTransport.nextId t ->
    (TargetServerTransport.messageHandlers t !! k
     = Some (TargetServerTransport.SettleRequest k) /\
     TargetServerTransport.promises t !! k = None) \/
    (TargetServerTransport.messageHandlers t !! k = None /\
     is_Some (TargetServerTransport.promises t !! k)).

(** The number of requests that a trace sends. *)
Definition sends `{Runtime} (events : list TargetServerTransport.Event) : Z :=
  len (List.filter (fun e => match e with
                             | TargetServerTransport.Send _ _ => true
                             | _ => false
                             end) events).

(** *** The framing of the output of the target server *)

Module Framing.
Section WithRuntime.
Context `{Runtime}.
Import TargetServerTransport.

(** [JSON.parse(line)] with the members that [handleMessage] reads; [Throw]
    when the line is not JSON, or is the JSON [null], whose members cannot
    be read. *)
Variable decode : jsstring -> result Message.

(** The transport with the text that has arrived after the last newline. *)
Record Connection := mkConnection {
  buffer : jsstring;
  transport : Transport
}.

(** The body of the loop over the complete lines: a blank line is skipped,
    and so is, after logging, a line that throws. *)
Definition handleLine (t : Transport) (line : jsstring) : Transport :=
  match trim line with
  | [] => t
  | _ =>
      match decode line with
      | Ok message => handleMessage message t
      | Throw error => t
      end
  end.

(** [handleData]; [chunk] is the text of the chunk, [chunk.toString()]. *)
Definition handleData (chunk : jsstring) (c : Connection) : Connection :=
  let buffer1 := buffer c ++ chunk in
  (* Process complete JSON-RPC messages *)
  let lines := split newline buffer1 in
  mkConnection (default [] (last lines))
    (foldl handleLine (transport c) (removelast lines)).

End WithRuntime.
End Framing.

(** ** A small runtime

    An instance of [Runtime] on which the definitions above evaluate: JSON
    restricted to [null], the booleans, the empty object and arrays of these,
    regular expressions restricted to literal patterns, lower-casing
    restricted to ASCII, paths joined without normalisation. *)

Module SmallRuntime.

Inductive value :=
| VNull
| VBool (b : bool)
| VEmptyObject
| VArr (items : list value).

Definition join (sep : jsstring) (parts : list jsstring) : jsstring :=
  match parts with
  | [] => []
  | p :: ps => p ++ (ps ≫= (fun q => sep ++ q))
  end.

Fixpoint stringify (v : value) : jsstring :=
  match v with
  | VNull => js "null"
  | VBool true => js "true"
  | VBool false => js "false"
  | VEmptyObject => js "{}"
  | VArr items => js "[" ++ join (js ",") (List.map stringify items) ++ js "]"
  end.

Fixpoint stringify_indent (depth : nat) (v : value) : jsstring :=
  match v with
  | VArr (i :: items) =>
      let pad := replicate (2 * S depth) 32%N in
      js "[" ++ [newline] ++
      join (js "," ++ [newline])
        (List.map (fun x => pad ++ stringify_indent (S depth) x) (i :: items)) ++
      [newline] ++ replicate (2 * depth) 32%N ++ js "]"
  | VArr [] => js "[]"
  | _ => stringify v
  end.

Fixpoint skip_space (s : jsstring) : jsstring :=
  match s with
  | c :: s' =>
      if ((c =? 32) || (c =? 9) || (c =? 10) || (c =? 13))%N
      then skip_space s' else s
  | [] => []
  end.

Fixpoint parse_value (fuel : nat) (s : jsstring) : option (value * jsstring) :=
  match fuel with
  | O => None
  | S fuel' =>
      let s := skip_space s in
      if startsWith s (js "null") then Some (VNull, drop 4 s)
      else if startsWith s (js "true") then Some (VBool true, drop 4 s)
      else if startsWith s (js "false") then Some (VBool false, drop 5 s)
      else if startsWith s (js "{}") then Some (VEmptyObject, drop 2 s)
      else match s with
           | 91%N :: rest =>
               match skip_space rest with
               | 93%N :: rest' => Some (VArr [], rest')
               | _ =>
                   (fix items (n : nat) (s : jsstring) (acc : list value)
                      : option (value * jsstring) :=
                      match n with
                      | O => None
                      | S n' =>
                          match parse_value fuel' s with
                          | Some (v, rest1) =>
                              match skip_space rest1 with
                              | 44%N :: rest2 => items n' rest2 (acc ++ [v])
                              | 93%N :: rest2 => Some (VArr (acc ++ [v]), rest2)
                              | _ => None
                              end
                          | None => None
                          end
                      end) (length rest) rest []
               end
           | _ => None
           end
  end.

Definition parse (s : jsstring) : result value :=
  match parse_value (S (length s)) s with
  | Some (v, rest) =>
      match skip_space rest with
      | [] => Ok v
      | _ => Throw (mkError (js "Unexpected non-whitespace character after JSON"))
      end
  | None => Throw (mkError (js "Unexpected token in JSON"))
  end.

Definition evaluate_path (path : jsstring) (v : value) : result (list value) :=
  if decide (path = js "$") then Ok [v]
  else if decide (path = js "$[*]") then
    Ok match v with
       | VArr items => items
       | _ => []
       end
  else Throw (mkError (js "unsupported path")).

Definition lower (s : jsstring) : jsstring :=
  (fun c => if ((65 <=? c) && (c <=? 90))%N then (c + 32)%N else c) <$> s.

Definition match_literal (line pattern : jsstring) : option (list jsstring) :=
  if includes line pattern then Some [pattern] else None.

Definition is_truthy (v : value) : bool :=
  match v with
  | VNull => false
  | VBool b => b
  | _ => true
  end.

(** Digits of [n], padded with zeros to [width]. *)
Definition padded (width : nat) (n : Z) : jsstring :=
  let digits := Number_toString n in
  replicate (width - length digits) 48%N ++ digits.

(** The ISO rendering of a time stamp, for the years 0000 to 9999. *)
Definition iso (ms : Z) : jsstring :=
  let days := ms / 86400000 in
  let rest := ms mod 86400000 in
  let z := days + 719468 in
  let era := z / 146097 in
  let doe := z - era * 146097 in
  let yoe := (doe - doe / 1460 + doe / 36524 - doe / 146096) / 365 in
  let doy := doe - (365 * yoe + yoe / 4 - yoe / 100) in
  let mp := (5 * doy + 2) / 153 in
  let d := doy - (153 * mp + 2) / 5 + 1 in
  let m := if mp <? 10 then mp + 3 else mp - 9 in
  let y := yoe + era * 400 + (if m <=? 2 then 1 else 0) in
  padded 4 y ++ js "-" ++ padded 2 m ++ js "-" ++ padded 2 d ++ js "T" ++
  padded 2 (rest / 3600000) ++ js ":" ++
  padded 2 (rest / 60000 mod 60) ++ js ":" ++
  padded 2 (rest / 1000 mod 60) ++ js "." ++
  padded 3 (rest mod 1000) ++ js "Z".

#[export] Instance small : Runtime := {|
  json := value;
  JSON_stringify := stringify;
  JSON_stringify_indent := stringify_indent 0;
  JSON_parse := parse;
  JSONPath := evaluate_path;
  regexp := jsstring;
  RegExp_new := fun pattern flags => Ok pattern;
  String_match := match_literal;
  toLowerCase := lower;
  truthy := is_truthy;
  empty_object := VEmptyObject;
  toISOString := iso;
  homedir := js "/home/user";
  path_join := fun a b => a ++ (if startsWith b (js "/") then b else js "/" ++ b)
|}.

End SmallRuntime.

(** The metadata of a saved response, for the examples. *)
Definition sample_metadata : CacheManager.ResponseMetadata :=
  CacheManager.mkResponseMetadata (js "resp_0a1b2c3d4e5f") (js "dom") 4 1000
    2000 (js "claude-ai") 1 false.

(** A proxy whose token limit is one, a proxy with the default
    configuration, and six random bytes, for the examples. *)
Definition tiny_limit : MCPProxy.Proxy :=
  MCPProxy.mkProxy
    (mkStreamConfig 1 10000 3600 (js "/cache") true true false) 3600
    (Some (mkClientInfo (js "claude-ai") (js "0.1.0"))).

Definition defaults : MCPProxy.Proxy :=
  MCPProxy.mkProxy DEFAULT_CONFIG 3600 None.

Definition random : list N := [10; 27; 44; 61; 78; 95]%N.

(** A directory that holds one saved response, for the examples. *)
Definition sample_dir : CacheManager.CacheDir :=
  CacheManager.mkCacheDir {[ js "resp_0a1b2c3d4e5f" := js "true" ]}
    {[ js "resp_0a1b2c3d4e5f" := sample_metadata ]}.

(** A small payload, the arguments that name the saved response of the
    examples, and renderings that are enough for them. *)
Definition sample_value : SmallRuntime.value :=
  SmallRuntime.VArr [SmallRuntime.VNull; SmallRuntime.VBool true].

Definition sample_args (response_id : jsstring) : MCPProxy.ToolArgs :=
  MCPProxy.mkToolArgs response_id (js "true") None None 0.

Definition sample_exec (re : @regexp SmallRuntime.small) (s : jsstring)
  : option (list jsstring) :=
  Some (default [] (SmallRuntime.match_literal s re)).

Definition sample_query (data : SmallRuntime.value) (q : jsstring)
    (options : QueryOptions) : result (@QueryEngineSrc.Output SmallRuntime.small) :=
  default (Throw (mkError (js "no answer")))
    (@QueryEngineSrc.query SmallRuntime.small sample_exec data q options).

Definition sample_text (results : @QueryEngineSrc.Output SmallRuntime.small)
  : jsstring :=
  Number_toString (QueryEngineSrc.output_total results).

Definition sample_manage :=
  @MCPProxy.handleManagementTool SmallRuntime.small sample_query sample_text
    (fun m => CacheManager.id m)
    (fun l => Number_toString (len l)).

(** The values of [randomBytes]: every element is a byte. *)
Definition bytes (l : list N) : Prop := Forall (fun b => (b < 256)%N) l.

(** A digit or a letter from [a] to [f]. *)
Definition lower_hex (c : N) : Prop :=
  (48 <= c <= 57 \/ 97 <= c <= 102)%N.

(** * Properties *)

(** ** Slices and ceilings *)

Lemma len_nonneg {A} (l : list A) : 0 <= len l.
Proof. unfold len. lia. Qed.

(** Between non-negative bounds, [slice] is [take] after [drop]. *)
Lemma slice_take_drop {A} (l : list A) (start count : Z) :
  0 <= start -> 0 <= count ->
  slice l start (start + count)
  = take (Z.to_nat count) (drop (Z.to_nat start) l).
Proof.
  intros Hs Hc. unfold slice, relative_index, len.
  destruct (Z.ltb_spec start 0) as [|_]; [lia|].
  destruct (Z.ltb_spec (start + count) 0) as [|_]; [lia|].
  destruct (Z.le_gt_cases start (Z.of_nat (length l))) as [Hin|Hout].
  - rewrite (Z.min_l start) by lia.
    destruct (Z.le_gt_cases (start + count) (Z.of_nat (length l))).
    + rewrite Z.min_l by lia. f_equal. lia.
    + rewrite Z.min_r by lia.
      rewrite !take_ge; [done| |]; rewrite length_drop; lia.
  - rewrite !Z.min_r by lia.
    rewrite !(drop_ge l) by lia. by rewrite !take_nil.
Qed.

Lemma ceil_div_bounds (a b : Z) :
  0 <= a -> 0 < b ->
  0 <= ceil_div a b /\ a <= ceil_div a b * b /\
  (0 < a -> (ceil_div a b - 1) * b < a).
Proof.
  intros Ha Hb. unfold ceil_div.
  pose proof (Z.div_mod (- a) b ltac:(lia)) as Hdm.
  pose proof (Z.mod_pos_bound (- a) b Hb) as Hm.
  nia.
Qed.

Lemma rmapM_ok {A B} (f : A -> result B) (g : A -> B) (l : list A) :
  (forall x, x ∈ l -> f x = Ok (g x)) -> rmapM f l = Ok (g <$> l).
Proof.
  induction l as [|a l IH]; intros Hf; [done|].
  cbn. rewrite Hf by left. cbn. rewrite IH; [done|].
  intros x Hx. apply Hf. by right.
Qed.

Lemma rmapM_total {A B} (f : A -> result B) (l : list A) :
  (forall x, x ∈ l -> exists b, f x = Ok b) -> exists bs, rmapM f l = Ok bs.
Proof.
  induction l as [|a l IH]; intros Hf; [by exists []|].
  destruct (Hf a ltac:(left)) as [b Hb].
  destruct IH as [bs Hbs]; [intros x Hx; apply Hf; by right|].
  exists (b :: bs). cbn [rmapM]. rewrite Hb. cbn [rbind]. by rewrite Hbs.
Qed.

(** Cutting a list into [m] pieces of [c] elements loses nothing as soon as
    [m] pieces cover it. *)
Lemma pieces_concat {A} (c m : nat) (l : list A) :
  (length l <= m * c)%nat ->
  mjoin ((fun k : nat => take c (drop (k * c) l)) <$> seq 0 m) = l.
Proof.
  revert l. induction m as [|m IH]; intros l Hl.
  - destruct l; [done|]. cbn in Hl. lia.
  - cbn [seq]. rewrite <- fmap_S_seq. rewrite fmap_cons, <- list_fmap_compose.
    cbn [mjoin list_join]. cbn [Nat.mul Nat.add drop].
    transitivity (take c l ++ drop c l); [|apply take_drop]. f_equal.
    rewrite <- (IH (drop c l)) by (rewrite length_drop; lia).
    f_equal. apply list_fmap_ext. intros _ k _. cbn.
    rewrite drop_drop. done.
Qed.

(** ** Strings *)

Lemma startsWith_app (s rest : jsstring) : startsWith (s ++ rest) s = true.
Proof.
  induction s as [|c s IH]; [by destruct rest|].
  cbn. by rewrite N.eqb_refl, IH.
Qed.

Lemma includes_here (s rest : jsstring) : includes (s ++ rest) s = true.
Proof.
  assert (Hunfold : forall l sub,
            includes l sub = startsWith l sub ||
                             match l with
                             | [] => false
                             | _ :: l' => includes l' sub
                             end) by (by intros [|c l] sub).
  by rewrite Hunfold, startsWith_app.
Qed.

Lemma includes_later (front s sub : jsstring) :
  includes s sub = true -> includes (front ++ s) sub = true.
Proof.
  intros Hs. induction front as [|c front IH]; [done|].
  cbn [app includes]. rewrite IH. apply orb_true_r.
Qed.

(** ** The query engine *)

Section QueryEngineFacts.
Context `{Runtime}.
Import QueryEngine.

Lemma or_number_zero (d : Z) : or_number (Some 0) d = or_number None d.
Proof. reflexivity. Qed.

Lemma or_number_pos (v d : Z) : v <> 0 -> or_number (Some v) d = v.
Proof.
  intros Hv. unfold or_number. destruct (Z.eqb_spec v 0); [congruence|done].
Qed.

Lemma endsWith_last (s : jsstring) (c d : N) :
  endsWith (s ++ [c]) [d] = (d =? c)%N.
Proof.
  unfold endsWith. rewrite rev_unit. cbn [rev app startsWith].
  destruct (rev s); apply andb_true_r.
Qed.

(** C4, as amended. With [options.mode] unset the mode is detected from the
    two ends of the query: a query that starts with a dollar sign is a
    structured-path query; a query that starts and ends with a slash is a
    regular-expression query; every other query is a text query, among them
    a pattern between slashes that is followed by flags, since it does not
    end with a slash. The query is answered by the function of the detected
    mode. *)
Theorem detectMode_cases :
  (forall rest, detectMode (js "$" ++ rest) = jsonpath) /\
  detectMode (js "/") = regex /\
  (forall body, detectMode (js "/" ++ body ++ js "/") = regex) /\
  (forall rest c, c <> slash -> detectMode (js "/" ++ rest ++ [c]) = text) /\
  (forall c rest, c <> 36%N -> c <> slash -> detectMode (c :: rest) = text) /\
  detectMode [] = text /\
  (forall (data : json) (q : jsstring) (lim off ctx : option Z)
          (cs : option bool),
     let options := mkQueryOptions None lim off ctx cs in
     query data q options
     = match detectMode q with
       | jsonpath =>
           rbind (queryJsonPath data q options) (fun p => Ok (ValueResults p))
       | regex =>
           rbind (queryRegex data q options) (fun p => Ok (LineResults p))
       | text =>
           rbind (queryText data q options) (fun p => Ok (LineResults p))
       end).
Proof.
  split; [|split; [reflexivity|split; [|split; [|split; [|split]]]]];
    [| | | |reflexivity|reflexivity].
  - intros rest. unfold detectMode. change (js "$") with [36%N].
    cbn [app startsWith]. by destruct rest.
  - intros body. unfold detectMode.
    change (startsWith (js "/" ++ body ++ js "/") (js "$")) with false.
    rewrite (startsWith_app (js "/")). cbn [andb].
    change (js "/" ++ body ++ js "/") with ((slash :: body) ++ [slash]).
    change (js "/") with [slash]. by rewrite endsWith_last.
  - intros rest c Hc. unfold detectMode.
    change (startsWith (js "/" ++ rest ++ [c]) (js "$")) with false.
    rewrite (startsWith_app (js "/")). cbn [andb]. change (js "/") with [slash].
    rewrite (assoc_L (++)), endsWith_last.
    by destruct (N.eqb_spec slash c).
  - intros c rest Hd Hs. unfold detectMode. change (js "$") with [36%N].
    change (js "/") with [slash]. cbn [startsWith].
    destruct (N.eqb_spec 36 c) as [|_]; [congruence|].
    by destruct (N.eqb_spec slash c) as [|_]; [congruence|].
Qed.

(** C4, as stated, fails on its own example: the query ["/foo/i"] is
    detected as a text query, not as a regular expression. *)
Lemma detectMode_trailing_flags :
  detectMode (js "/foo/i") = text /\ detectMode (js "/foo/i") <> regex.
Proof. split; [reflexivity|discriminate]. Qed.

Example detectMode_path : detectMode (js "$.a.b") = jsonpath.
Proof. reflexivity. Qed.

Example detectMode_plain : detectMode (js "foo") = text.
Proof. reflexivity. Qed.

Example detectMode_wrapped : detectMode (js "/foo/") = regex.
Proof. reflexivity. Qed.

(** The context lines of a match that lies inside [allLines] are there. *)
Lemma context_lines_ok (allLines : list jsstring) (lo hi : Z) :
  0 <= lo -> hi <= len allLines ->
  exists ctx, context_lines allLines lo hi = Ok ctx.
Proof.
  intros Hlo Hhi. unfold context_lines.
  assert (Hall : forall i, i ∈ seqZ lo (hi - lo) ->
                   exists l, nth_js allLines i = Some l).
  { intros i Hi. apply elem_of_seqZ in Hi. unfold nth_js.
    destruct (Z.ltb_spec i 0); [lia|].
    apply lookup_lt_is_Some_2. unfold len in Hhi. lia. }
  apply rmapM_total. intros i Hi. destruct (Hall i Hi) as [l ->]. by eexists.
Qed.

Lemma add_context_ok (allLines : list jsstring) (c : Z) (m : Match) :
  1 <= line m <= len allLines ->
  exists b a, add_context allLines c m = Ok (mkMatchWithContext m b a).
Proof.
  intros Hm. unfold add_context.
  destruct (context_lines_ok allLines (Z.max 0 (line m - 1 - c)) (line m - 1))
    as [b ->]; [lia..|].
  destruct (context_lines_ok allLines (line m - 1 + 1)
              (Z.min (len allLines - 1) (line m - 1 + c) + 1))
    as [a ->]; [lia..|].
  cbn. by eexists _, _.
Qed.

Lemma add_context_all (allLines : list jsstring) (c : Z) (matches : list Match) :
  Forall (fun m => 1 <= line m <= len allLines) matches ->
  exists withContext,
    rmapM (add_context allLines c) matches = Ok withContext /\
    the_match <$> withContext = matches.
Proof.
  induction 1 as [|m ms Hm _ IH]; [by exists []|].
  destruct (add_context_ok allLines c m Hm) as (b & a & Hma).
  destruct IH as (rest & Hrest & Hproj).
  eexists (_ :: rest). cbn. rewrite Hma. cbn. rewrite Hrest. cbn.
  split; [done|]. cbn. by rewrite Hproj.
Qed.

(** C6, as amended. For a limit [L] of at least one and an offset [O] that is
    not negative, a page holds the matches from [O] up to [O + L], counts
    all matches in [total], and says [hasMore] exactly when [O + L] is below
    that count; the pages at offsets [0] and [L] together are the first
    [2 * L] matches. The pagination that attaches context lines does the same
    for matches that lie on the lines it is given. *)
Theorem pagination_law (L O : Z) (md : option Mode) (ctx : option Z)
    (cs : option bool) :
  1 <= L -> 0 <= O ->
  let options o := mkQueryOptions md (Some L) (Some o) ctx cs in
  (forall (A : Type) (matches : list A),
     let page := applyPagination matches (options O) in
     results page = take (Z.to_nat L) (drop (Z.to_nat O) matches) /\
     total page = len matches /\
     (hasMore page = true <-> O + L < len matches) /\
     results (applyPagination matches (options 0))
       ++ results (applyPagination matches (options L))
     = take (Z.to_nat (2 * L)) matches) /\
  (forall (matches : list Match) (allLines : list jsstring),
     Forall (fun m => 1 <= line m <= len allLines) matches ->
     exists page first second,
       applyPaginationWithContext matches allLines (options O) = Ok page /\
       the_match <$> results page
         = take (Z.to_nat L) (drop (Z.to_nat O) matches) /\
       total page = len matches /\
       (hasMore page = true <-> O + L < len matches) /\
       applyPaginationWithContext matches allLines (options 0) = Ok first /\
       applyPaginationWithContext matches allLines (options L) = Ok second /\
       the_match <$> (results first ++ results second)
         = take (Z.to_nat (2 * L)) matches).
Proof.
  intros HL HO options.
  assert (Hpair : forall (B : Type) (l : list B),
            slice l (or_number (Some 0) 0) (or_number (Some 0) 0 + L)
              ++ slice l L (L + L)
            = take (Z.to_nat (2 * L)) l).
  { intros B l. change (or_number (Some 0) 0) with 0.
    rewrite !slice_take_drop by lia. change (Z.to_nat 0) with 0%nat.
    rewrite drop_0, take_take_drop. f_equal. lia. }
  split.
  - intros A matches page. subst page. unfold applyPagination, options.
    cbn [limit offset results total hasMore].
    rewrite !(or_number_pos L) by lia.
    repeat split.
    + destruct (Z.eqb_spec O 0) as [->|HO0].
      * change (or_number (Some 0) 0) with 0.
        by rewrite slice_take_drop by lia.
      * rewrite (or_number_pos O) by done. by rewrite slice_take_drop by lia.
    + destruct (Z.eqb_spec O 0) as [->|HO0];
        [change (or_number (Some 0) 0) with 0
        |rewrite (or_number_pos O) by done]; intros Hlt; by apply Z.ltb_lt.
    + destruct (Z.eqb_spec O 0) as [->|HO0];
        [change (or_number (Some 0) 0) with 0
        |rewrite (or_number_pos O) by done]; intros Hlt; by apply Z.ltb_lt.
    + apply Hpair.
  - intros matches allLines Hlines.
    destruct (add_context_all allLines (nullish ctx 2) matches Hlines)
      as (withContext & Hrun & Hproj).
    unfold applyPaginationWithContext, options.
    cbn [limit offset contextLines]. rewrite Hrun. cbn [rbind].
    rewrite !(or_number_pos L) by lia.
    assert (HOO : or_number (Some O) 0 = O).
    { destruct (Z.eqb_spec O 0) as [->|]; [done|by apply or_number_pos]. }
    rewrite HOO.
    eexists _, _, _. split; [reflexivity|]. cbn [results total hasMore].
    split; [|split; [done|split; [apply Z.ltb_lt|]]].
    + rewrite slice_take_drop by lia.
      by rewrite fmap_take, fmap_drop, Hproj.
    + split; [reflexivity|]. split; [reflexivity|]. cbn [results].
      rewrite Hpair. by rewrite fmap_take, Hproj.
Qed.

(** C6, as stated, fails for a limit of zero: the page then holds up to a
    hundred matches, not none. *)
Lemma pagination_zero_limit :
  ~ (forall (matches : list Z) (L O : Z),
       0 <= L -> 0 <= O ->
       let page :=
         applyPagination matches (mkQueryOptions None (Some L) (Some O) None None) in
       results page = take (Z.to_nat L) (drop (Z.to_nat O) matches) /\
       total page = len matches /\
       (hasMore page = true <-> O + L < len matches)).
Proof.
  intros Hclaim.
  destruct (Hclaim [7] 0 0 ltac:(lia) ltac:(lia)) as [Hres _].
  vm_compute in Hres. discriminate Hres.
Qed.

(** C10. A limit of zero and an offset of zero are replaced by the defaults
    one hundred and zero: a query, and either pagination, with [limit: 0]
    returns what it returns without a limit, the page limit is one hundred,
    and the page holds the first hundred matches, not none. *)
Theorem zero_limit_is_default (md : option Mode) (off ctx : option Z)
    (cs : option bool) :
  let zero := mkQueryOptions md (Some 0) off ctx cs in
  let unset := mkQueryOptions md None off ctx cs in
  (forall (data : json) (q : jsstring), query data q zero = query data q unset) /\
  (forall (A : Type) (matches : list A),
     applyPagination matches zero = applyPagination matches unset /\
     page_limit (applyPagination matches zero) = 100 /\
     results (applyPagination matches (mkQueryOptions md (Some 0) (Some 0) ctx cs))
     = take 100 matches /\
     results (applyPagination matches (mkQueryOptions md (Some 0) None ctx cs))
     = take 100 matches) /\
  (forall (matches : list Match) (allLines : list jsstring),
     applyPaginationWithContext matches allLines zero
     = applyPaginationWithContext matches allLines unset) /\
  (forall (A : Type) (matches : list A) (lim : option Z),
     applyPagination matches (mkQueryOptions md lim (Some 0) ctx cs)
     = applyPagination matches (mkQueryOptions md lim None ctx cs)).
Proof.
  intros zero unset. repeat split.
  - unfold applyPagination. cbn [limit offset results].
    change (or_number (Some 0) 100) with 100.
    change (or_number (Some 0) 0) with 0.
    by rewrite (slice_take_drop matches 0 100) by lia.
  - unfold applyPagination. cbn [limit offset results].
    change (or_number (Some 0) 100) with 100.
    change (or_number None 0) with 0.
    by rewrite (slice_take_drop matches 0 100) by lia.
Qed.

(** The chunk with a number in range is a piece of [chunkSize] units. *)
Lemma extractChunk_in_range (data : json) (k size : Z) :
  0 < size ->
  0 <= k < ceil_div (len (JSON_stringify_indent data)) size ->
  extractChunk data k size
  = Ok (let piece := take (Z.to_nat size)
                       (drop (Z.to_nat k * Z.to_nat size)
                          (JSON_stringify_indent data)) in
        mkChunk piece k (ceil_div (len (JSON_stringify_indent data)) size)
          (len piece)
          (k <? ceil_div (len (JSON_stringify_indent data)) size - 1)).
Proof.
  intros Hsize Hk. unfold extractChunk.
  set (s := JSON_stringify_indent data) in *.
  pose proof (len_nonneg s) as Hn0.
  destruct (ceil_div_bounds (len s) size Hn0 Hsize) as (Ht0 & Hcover & Hlast).
  destruct (Z.ltb_spec k 0); [lia|].
  destruct (Z.geb_spec k (ceil_div (len s) size)); [lia|]. cbn [orb].
  assert (Hpos : 0 < len s).
  { destruct (Z.eq_dec (len s) 0) as [E|]; [|lia].
    rewrite E in Hk. unfold ceil_div in Hk.
    change (- 0) with 0 in Hk. rewrite Z.div_0_l in Hk by lia. lia. }
  assert (Hstart : k * size < len s).
  { specialize (Hlast Hpos).
    assert (k * size <= (ceil_div (len s) size - 1) * size)
      by (apply Z.mul_le_mono_nonneg_r; lia).
    lia. }
  assert (Hpiece :
    slice s (k * size) (Z.min (k * size + size) (len s))
    = take (Z.to_nat size) (drop (Z.to_nat k * Z.to_nat size) s)).
  { replace (Z.min (k * size + size) (len s))
      with (k * size + Z.min size (len s - k * size)) by lia.
    rewrite slice_take_drop by lia.
    replace (Z.to_nat (k * size)) with (Z.to_nat k * Z.to_nat size)%nat by nia.
    destruct (Z.le_gt_cases size (len s - k * size)).
    - by rewrite Z.min_l by lia.
    - rewrite Z.min_r by lia. unfold len in *.
      rewrite !take_ge; [done| |]; rewrite length_drop; nia. }
  by rewrite Hpiece.
Qed.

(** C3. For a chunk size of at least one, the chunks numbered from zero to
    [totalChunks - 1] all exist, each reports the same [totalChunks], and
    their texts in order make up the indented serialisation of the value;
    the chunk number [totalChunks] and every negative chunk number throw. *)
Theorem extractChunk_roundtrip (data : json) (size : Z) :
  0 < size ->
  let dataStr := JSON_stringify_indent data in
  let count := ceil_div (len dataStr) size in
  (exists pieces,
     rmapM (fun k => extractChunk data k size) (seqZ 0 count) = Ok pieces /\
     mjoin (chunk <$> pieces) = dataStr /\
     chunkNumber <$> pieces = seqZ 0 count /\
     Forall (fun c => totalChunks c = count) pieces) /\
  is_throw (extractChunk data count size) /\
  (forall k, k < 0 -> is_throw (extractChunk data k size)).
Proof.
  intros Hsize dataStr count.
  pose proof (len_nonneg dataStr) as Hn0.
  destruct (ceil_div_bounds (len dataStr) size Hn0 Hsize) as (Ht0 & Hcover & _).
  split; [|split].
  - eexists. split.
    + apply rmapM_ok. intros k Hk. apply elem_of_seqZ in Hk.
      apply extractChunk_in_range; [done|]. fold dataStr count. lia.
    + split; [|split].
      * unfold seqZ. rewrite <- !list_fmap_compose.
        etrans; [|apply (pieces_concat (Z.to_nat size) (Z.to_nat count) dataStr);
                  unfold len in *; nia].
        f_equal. apply list_fmap_ext. intros _ k _. cbn.
        do 3 f_equal. lia.
      * rewrite <- list_fmap_compose. etrans; [|apply list_fmap_id].
        apply list_fmap_ext. by intros _ k _.
      * apply Forall_fmap, Forall_forall. by intros k _.
  - unfold extractChunk. fold dataStr count.
    destruct (Z.ltb_spec count 0); [done|].
    destruct (Z.geb_spec count count); [done|lia].
  - intros k Hk. unfold extractChunk.
    by destruct (Z.ltb_spec k 0); [|lia].
Qed.

End QueryEngineFacts.

(** The detection of C4 on a pattern with a flag. *)
Lemma detectMode_cases_witness :
  105%N <> slash /\ QueryEngine.detectMode (js "/foo/i") = text.
Proof.
  split; [discriminate|].
  exact (proj1 (proj2 (proj2 (proj2 (@detectMode_cases SmallRuntime.small))))
           (js "foo/") 105%N ltac:(discriminate)).
Defined.

(** The laws of C6 on a page of two matches from the second one on. *)
Lemma pagination_law_witness :
  1 <= 2 /\ 0 <= 1 /\
  QueryEngine.results
    (QueryEngine.applyPagination [10; 20; 30; 40]
       (mkQueryOptions None (Some 2) (Some 1) None None)) = [20; 30].
Proof.
  split; [lia|]. split; [lia|].
  destruct (pagination_law 2 1 None None None
              ltac:(lia) ltac:(lia)) as [Hpage _].
  destruct (Hpage Z [10; 20; 30; 40]) as [Hresults _].
  exact Hresults.
Defined.

(** The round trip of C3 on a value of the small runtime, in chunks of ten. *)
Lemma extractChunk_roundtrip_witness :
  0 < 10 /\
  is_throw (@QueryEngine.extractChunk SmallRuntime.small
              (SmallRuntime.VArr [SmallRuntime.VNull; SmallRuntime.VBool true])
              3 10).
Proof.
  split; [lia|].
  exact (proj1 (proj2 (@extractChunk_roundtrip SmallRuntime.small
           (SmallRuntime.VArr [SmallRuntime.VNull; SmallRuntime.VBool true])
           10 ltac:(lia)))).
Defined.

(** ** The cache store *)

Section CacheManagerFacts.
Context `{Runtime}.
Import CacheManager.

Lemma getMetadata_run (id : jsstring) (d : CacheDir) :
  getMetadata id d = (Ok (metaFiles d !! id), d).
Proof.
  unfold getMetadata, try_catch, mbind, io_bind, bind, readFile_meta.
  by destruct (metaFiles d !! id).
Qed.

(** [save], by whether the clock and the expiry are valid dates. *)
Lemma save_cases (ttl : Z) (random : list N) (now : Z) (tool : jsstring)
    (data : json) (client : jsstring) (d : CacheDir) :
  save ttl random now tool data client d
  = if valid_time now && valid_time (now + ttl * 1000)
    then
      (Ok (generateId random),
       mkCacheDir
         (<[generateId random := JSON_stringify data]> (dataFiles d))
         (<[generateId random :=
              mkResponseMetadata (generateId random) tool
                (byteLength (JSON_stringify data)) now (now + ttl * 1000)
                client (ceil_div (len (JSON_stringify data)) 10000) false]>
            (metaFiles d)))
    else (Throw (mkError (js "Invalid time value")), d).
Proof.
  unfold save, mbind, io_bind, bind, lift, Date_toISOString.
  by destruct (valid_time now), (valid_time (now + ttl * 1000)).
Qed.

Lemma save_run (ttl : Z) (random : list N) (now : Z) (tool : jsstring)
    (data : json) (client : jsstring) (d : CacheDir) :
  valid_time now = true -> valid_time (now + ttl * 1000) = true ->
  save ttl random now tool data client d
  = (Ok (generateId random),
     mkCacheDir
       (<[generateId random := JSON_stringify data]> (dataFiles d))
       (<[generateId random :=
            mkResponseMetadata (generateId random) tool
              (byteLength (JSON_stringify data)) now (now + ttl * 1000) client
              (ceil_div (len (JSON_stringify data)) 10000) false]>
          (metaFiles d))).
Proof. intros Hnow Hexpiry. by rewrite save_cases, Hnow, Hexpiry. Qed.

(** [delete], by which of the two files are there. *)
Lemma delete_run (id : jsstring) (d : CacheDir) :
  delete id d =
  match dataFiles d !! id, metaFiles d !! id with
  | Some _, Some _ =>
      (Ok true, mkCacheDir (base.delete id (dataFiles d))
                  (base.delete id (metaFiles d)))
  | Some _, None =>
      (Ok false, mkCacheDir (base.delete id (dataFiles d)) (metaFiles d))
  | None, _ => (Ok false, d)
  end.
Proof.
  unfold delete, try_catch, mbind, io_bind, bind, unlink_data, unlink_meta.
  destruct (dataFiles d !! id); [|done]. cbn.
  by destruct (metaFiles d !! id).
Qed.

Lemma delete_no_data (id : jsstring) (d : CacheDir) :
  dataFiles (snd (delete id d)) !! id = None.
Proof.
  rewrite delete_run.
  destruct (dataFiles d !! id) eqn:Hdata; [|done].
  destruct (metaFiles d !! id); cbn; apply lookup_delete_eq.
Qed.

Lemma delete_stored (id : jsstring) (d : CacheDir) :
  is_Some (dataFiles d !! id) ->
  metaFiles (snd (delete id d)) !! id = None.
Proof.
  intros [s Hs]. rewrite delete_run, Hs.
  destruct (metaFiles d !! id) eqn:Hmeta; cbn; [apply lookup_delete_eq|done].
Qed.

Lemma get_run (now : Z) (id : jsstring) (d : CacheDir) :
  get now id d =
  if match metaFiles d !! id with
     | Some m => expiresAt m <? now
     | None => false
     end
  then (Ok None, snd (delete id d))
  else match dataFiles d !! id with
       | Some s =>
           match JSON_parse s with
           | Ok v => (Ok (Some v), d)
           | Throw _ => (Ok None, d)
           end
       | None => (Ok None, d)
       end.
Proof.
  unfold get, try_catch, mbind, io_bind.
  unfold bind at 1. rewrite getMetadata_run.
  destruct (match metaFiles d !! id with
            | Some m => expiresAt m <? now
            | None => false
            end).
  - unfold bind. rewrite delete_run.
    by destruct (dataFiles d !! id), (metaFiles d !! id).
  - unfold bind, readFile_data, lift.
    destruct (dataFiles d !! id) as [s|]; [|done].
    by destruct (JSON_parse s).
Qed.

(** C2. When the clock and the expiry are valid dates, so that [save]
    returns an id, a payload that [JSON.parse] reads back from its
    serialisation is returned by [get] under that id, as long as the entry
    has not expired, and the metadata of the id records the UTF-8 byte
    length of the serialisation. *)
Theorem save_get_roundtrip (ttl : Z) (random : list N) (now later : Z)
    (tool : jsstring) (P : json) (client : jsstring) (d : CacheDir) :
  valid_time now = true -> valid_time (now + ttl * 1000) = true ->
  JSON_parse (JSON_stringify P) = Ok P ->
  later <= now + ttl * 1000 ->
  exists id d1 m,
    save ttl random now tool P client d = (Ok id, d1) /\
    get later id d1 = (Ok (Some P), d1) /\
    getMetadata id d1 = (Ok (Some m), d1) /\
    sizeBytes m = byteLength (JSON_stringify P).
Proof.
  intros Hnow Hexpiry Hparse Hlater. rewrite save_run by done.
  eexists _, _, _.
  split; [reflexivity|]. rewrite get_run, getMetadata_run. cbn.
  rewrite !lookup_insert_eq. cbn.
  destruct (Z.ltb_spec (now + ttl * 1000) later) as [|_]; [lia|].
  rewrite Hparse. done.
Qed.

(** C5, as amended. The chunk count that a [save] records, when the clock
    and the expiry are valid dates and it returns an id, is the length of
    the serialisation divided by ten thousand, rounded up; ten thousand is
    the default chunk size, and no configuration enters the computation. *)
Theorem save_chunk_count (ttl : Z) (random : list N) (now : Z)
    (tool : jsstring) (P : json) (client : jsstring) (d : CacheDir) :
  valid_time now = true -> valid_time (now + ttl * 1000) = true ->
  exists id d1 m,
    save ttl random now tool P client d = (Ok id, d1) /\
    getMetadata id d1 = (Ok (Some m), d1) /\
    chunks m = ceil_div (len (JSON_stringify P)) 10000 /\
    chunks m = ceil_div (len (JSON_stringify P)) (chunkSize DEFAULT_CONFIG).
Proof.
  intros Hnow Hexpiry. rewrite save_run by done.
  eexists _, _, _. split; [reflexivity|].
  rewrite getMetadata_run. cbn. rewrite lookup_insert_eq. done.
Qed.

(** C7. The claim fails on the directory of C8, which holds the metadata of
    an id without its payload, once that metadata has expired: [get] answers
    with nothing, but the [delete] that it runs stops at the missing payload
    and the metadata stays. The id is listed as before, and [cleanup], which
    counts it, leaves it as well. *)
Theorem get_leaves_expired_orphan :
  let k := js "resp_0a1b2c3d4e5f" in
  let d := mkCacheDir ∅ {[ k := sample_metadata ]} in
  expiresAt sample_metadata < 5000 /\
  get 5000 k d = (Ok None, d) /\
  metaFiles (snd (get 5000 k d)) !! k = Some sample_metadata /\
  list_ (snd (get 5000 k d)) = (Ok [sample_metadata], d) /\
  cleanup 5000 d = (Ok 1, d).
Proof.
  intros k d.
  assert (Hget : get 5000 k d = (Ok None, d)).
  { rewrite get_run. unfold d. cbn [metaFiles dataFiles].
    rewrite lookup_singleton_eq. by rewrite delete_run. }
  rewrite Hget. cbn [snd]. split; [done|]. split; [done|].
  split; [apply lookup_singleton_eq|]. by vm_compute.
Qed.

(** Where [delete] does what its name says. *)
Lemma delete_both (id s : jsstring) (m : ResponseMetadata) (d : CacheDir) :
  dataFiles d !! id = Some s -> metaFiles d !! id = Some m ->
  fst (delete id d) = Ok true /\
  dataFiles (snd (delete id d)) !! id = None /\
  metaFiles (snd (delete id d)) !! id = None.
Proof.
  intros Hs Hm. rewrite delete_run, Hs, Hm. cbn.
  by rewrite !lookup_delete_eq.
Qed.

Lemma delete_without_metadata (id s : jsstring) (d : CacheDir) :
  dataFiles d !! id = Some s -> metaFiles d !! id = None ->
  fst (delete id d) = Ok false /\
  dataFiles (snd (delete id d)) !! id = None /\
  metaFiles (snd (delete id d)) !! id = None.
Proof.
  intros Hs Hm. rewrite delete_run, Hs, Hm. cbn.
  by rewrite lookup_delete_eq.
Qed.

Lemma delete_without_data (id : jsstring) (d : CacheDir) :
  dataFiles d !! id = None -> delete id d = (Ok false, d).
Proof. intros Hs. by rewrite delete_run, Hs. Qed.

End CacheManagerFacts.

Import CacheManager.

(** C8. In a directory that holds the metadata file of an id but not its
    payload file, [delete] returns [false] and leaves the metadata file
    where it is. *)
Theorem delete_leaves_orphan_metadata :
  let d := mkCacheDir ∅ {[ js "resp_0a1b2c3d4e5f" := sample_metadata ]} in
  delete (js "resp_0a1b2c3d4e5f") d = (Ok false, d) /\
  metaFiles (snd (delete (js "resp_0a1b2c3d4e5f") d))
    !! js "resp_0a1b2c3d4e5f" = Some sample_metadata.
Proof.
  intros d.
  assert (Hrun : delete (js "resp_0a1b2c3d4e5f") d = (Ok false, d))
    by (apply delete_without_data; apply lookup_empty).
  rewrite Hrun. split; [done|]. unfold d. cbn [snd metaFiles].
  apply lookup_singleton_eq.
Qed.

(** The round trip of C2 on the value [[null, true]] of the small runtime,
    read back in the millisecond of its expiry. *)
Lemma save_get_roundtrip_witness :
  exists id d1 m,
    @save SmallRuntime.small 3600 [10; 27; 44; 61; 78; 95]%N 1000 (js "dom")
      (SmallRuntime.VArr [SmallRuntime.VNull; SmallRuntime.VBool true])
      (js "claude-ai") (mkCacheDir ∅ ∅) = (Ok id, d1) /\
    @get SmallRuntime.small 3601000 id d1
    = (Ok (Some (SmallRuntime.VArr [SmallRuntime.VNull; SmallRuntime.VBool true])),
       d1) /\
    getMetadata id d1 = (Ok (Some m), d1) /\
    sizeBytes m = 11.
Proof.
  exact (@save_get_roundtrip SmallRuntime.small 3600 [10; 27; 44; 61; 78; 95]%N
           1000 3601000 (js "dom")
           (SmallRuntime.VArr [SmallRuntime.VNull; SmallRuntime.VBool true])
           (js "claude-ai") (mkCacheDir ∅ ∅) eq_refl eq_refl eq_refl
           ltac:(lia)).
Defined.

(** The chunk count of C5 for the payload [null], saved at a valid date. *)
Lemma save_chunk_count_witness :
  exists id d1 m,
    @save SmallRuntime.small 3600 [10; 27; 44; 61; 78; 95]%N 1000 (js "dom")
      SmallRuntime.VNull (js "claude-ai") (mkCacheDir ∅ ∅) = (Ok id, d1) /\
    getMetadata id d1 = (Ok (Some m), d1) /\
    chunks m = 1.
Proof.
  destruct (@save_chunk_count SmallRuntime.small 3600 [10; 27; 44; 61; 78; 95]%N
              1000 (js "dom") SmallRuntime.VNull (js "claude-ai")
              (mkCacheDir ∅ ∅) eq_refl eq_refl)
    as (id & d1 & m & Hsave & Hmeta & Hchunks & _).
  exists id, d1, m. split; [done|]. split; [done|]. by rewrite Hchunks.
Defined.

(** C5, as stated, fails when the configured chunk size is not ten thousand:
    with [MCP_CACHE_CHUNK_SIZE=2] the payload [null], four units long, is
    recorded with one chunk, not two. *)
Lemma save_chunk_count_not_configured :
  ~ (forall (R : Runtime) (env : Env) (config : StreamConfig) (ttl : Z)
       (random : list N) (now : Z) (tool : jsstring) (P : json)
       (client : jsstring) (d : CacheDir),
       ConfigManager.loadConfig env None = Some config ->
       exists id d1 m,
         save ttl random now tool P client d = (Ok id, d1) /\
         getMetadata id d1 = (Ok (Some m), d1) /\
         chunks m = ceil_div (len (JSON_stringify P)) (chunkSize config)).
Proof.
  intros Hclaim.
  destruct (Hclaim SmallRuntime.small
              (mkEnv None (Some (js "2")) None None None None None)
              (mkStreamConfig 25000 2 3600 (js "/home/user/.mcp-cache/cache")
                 true true false)
              3600 [10; 27; 44; 61; 78; 95]%N 1000 (js "dom")
              SmallRuntime.VNull (js "claude-ai") (mkCacheDir ∅ ∅) eq_refl)
    as (id & d1 & m & Hsave & Hmeta & Hchunks).
  rewrite save_run in Hsave by reflexivity. injection Hsave as <- <-.
  rewrite getMetadata_run in Hmeta. cbn in Hmeta.
  rewrite lookup_insert_eq in Hmeta. injection Hmeta as <-.
  vm_compute in Hchunks. discriminate Hchunks.
Qed.

(** ** The size gate *)

Section MCPProxyFacts.
Context `{Runtime}.
Import MCPProxy.

(** The summary names the id under which the response was saved, its size in
    KiB, its chunk count and its expiry. *)
Lemma saved_summary_contents (size : Z) (id : jsstring) (m : ResponseMetadata) :
  let text := saved_summary size id (Some m) in
  includes text id = true /\
  includes text (toFixed2 size 1024) = true /\
  includes text (Number_toString (chunks m)) = true /\
  includes text (toISOString (expiresAt m)) = true.
Proof.
  cbn zeta. unfold saved_summary. repeat split.
  - do 5 apply includes_later. apply includes_here.
  - apply includes_later. apply includes_here.
  - do 3 apply includes_later. apply includes_here.
  - do 16 apply includes_later.
    rewrite <- (app_nil_r (toISOString (expiresAt m))) at 1.
    apply includes_here.
Qed.

(** A text answer is never the forwarded response. *)
Lemma text_is_not_forwarded (text : jsstring) (e : bool) (response : json) :
  TextContent text e <> Forwarded response.
Proof. discriminate. Qed.

(** C1. Once the target server has answered with a value, the call measures
    the length of its serialisation against the smaller of 900000 and four
    times the token limit. Above it, the value is saved and the call returns
    a text that names the new id, the size in KiB, the chunk count and the
    expiry of the saved entry; otherwise the call returns the value itself
    and the cache directory is as it was. The clock and the expiry that the
    ttl of the cache manager gives are valid dates, as [save] needs them. *)
Theorem size_gate (p : Proxy) (toolName : jsstring) (response : json)
    (random : list N) (now : Z) (d : CacheDir) :
  valid_time now = true ->
  valid_time (now + cacheManager_ttl p * 1000) = true ->
  let size := len (JSON_stringify response) in
  let maxSize := Z.min 900000 (maxTokens (configManager p) * 4) in
  let saved :=
    save (cacheManager_ttl p) random now toolName response (client_label p) d in
  exists id m,
    fst saved = Ok id /\
    metaFiles (snd saved) !! id = Some m /\
    forwardToolCall p toolName (Resolved (Some response)) random now d
    = (if size >? maxSize
       then (Ok (TextContent (saved_summary size id (Some m)) false), snd saved)
       else (Ok (Forwarded response), d)) /\
    includes (saved_summary size id (Some m)) id = true /\
    includes (saved_summary size id (Some m)) (toFixed2 size 1024) = true /\
    includes (saved_summary size id (Some m)) (Number_toString (chunks m))
      = true /\
    includes (saved_summary size id (Some m)) (toISOString (expiresAt m))
      = true.
Proof.
  intros Hnow Hexpiry size maxSize saved. subst saved.
  rewrite save_run by done. cbn [fst snd].
  eexists _, _. split; [reflexivity|].
  split; [cbn; apply lookup_insert_eq|].
  split; [|apply saved_summary_contents].
  unfold forwardToolCall, try_catch, mbind, io_bind, ConfigManager.getMaxTokens.
  unfold bind at 1. unfold bind at 1. cbn [await serializable ret].
  fold size. fold maxSize.
  destruct (size >? maxSize); [|done].
  unfold bind at 1. rewrite save_run by done.
  unfold bind at 1. rewrite getMetadata_run. cbn [metaFiles].
  by rewrite lookup_insert_eq.
Qed.

End MCPProxyFacts.

(** The gate of C1 on the value [[null, true]], with a token limit of one. *)
Lemma size_gate_witness :
  exists id m,
    fst (@CacheManager.save SmallRuntime.small
           (MCPProxy.cacheManager_ttl tiny_limit) random 1000 (js "dom")
           sample_value (MCPProxy.client_label tiny_limit)
           (CacheManager.mkCacheDir ∅ ∅)) = Ok id /\
    CacheManager.metaFiles
      (snd (@CacheManager.save SmallRuntime.small
              (MCPProxy.cacheManager_ttl tiny_limit) random 1000 (js "dom")
              sample_value (MCPProxy.client_label tiny_limit)
              (CacheManager.mkCacheDir ∅ ∅))) !! id = Some m.
Proof.
  pose proof (@size_gate SmallRuntime.small tiny_limit (js "dom") sample_value
                random 1000 (CacheManager.mkCacheDir ∅ ∅) eq_refl eq_refl)
    as Hgate.
  cbv zeta in Hgate. destruct Hgate as (id & m & Hid & Hm & _).
  by exists id, m.
Defined.

(** ** The transport *)

Section TransportFacts.
Context `{Runtime}.
Import TargetServerTransport.

Lemma well_formed_initial : well_formed initial.
Proof. split; intros k x Hk; cbn in Hk; by rewrite lookup_empty in Hk. Qed.

Lemma settle_fresh (id : Z) (s : Settlement) (t : Transport) :
  promises t !! id = None ->
  settle id s t
  = mkTransport (messageHandlers t) (notificationHandlers t) (nextId t)
      (inputStream t) (<[id := s]> (promises t)) (timers t) (delivered t).
Proof. intros Hp. unfold settle. by rewrite Hp. Qed.

(** What an event does to a transport, by the handler it finds. *)
Lemma step_receive_found (t : Transport) (message : Message) (k : Z) :
  well_formed t -> msg_id message = Some k ->
  is_Some (messageHandlers t !! k) ->
  exists s,
    settles k (Receive message) = Some s /\
    step t (Receive message)
    = mkTransport (base.delete k (messageHandlers t)) (notificationHandlers t)
        (nextId t) (inputStream t) (<[k := s]> (promises t)) (timers t)
        (delivered t).
Proof.
  intros Hwf Hk [h Hh]. destruct (proj1 Hwf k h Hh) as (-> & _ & Hp).
  cbn [step settles]. unfold handleMessage. rewrite Hk, Hh.
  rewrite decide_True by done. eexists. split; [reflexivity|].
  unfold run_handler.
  destruct (msg_error message) as [err|]; by rewrite settle_fresh.
Qed.

Lemma step_timer_found (t : Transport) (k : Z) :
  well_formed t -> is_Some (messageHandlers t !! k) ->
  step t (TimerFired k)
  = mkTransport (base.delete k (messageHandlers t)) (notificationHandlers t)
      (nextId t) (inputStream t)
      (<[k := Rejected (mkError (js "Request timeout"))]> (promises t))
      (timers t) (delivered t).
Proof.
  intros Hwf [h Hh]. destruct (proj1 Hwf k h Hh) as (-> & _ & Hp).
  cbn [step]. unfold on_timeout. rewrite Hh. by rewrite settle_fresh.
Qed.

(** An event leaves the handlers and the promises as they are, or it
    registers the next id, or it settles a request that was waiting. *)
Lemma step_cases (t : Transport) (e : Event) :
  well_formed t ->
  (messageHandlers (step t e) = messageHandlers t /\
   promises (step t e) = promises t /\ nextId (step t e) = nextId t) \/
  (messageHandlers (step t e)
   = <[nextId t := SettleRequest (nextId t)]> (messageHandlers t) /\
   promises (step t e) = promises t /\ nextId (step t e) = nextId t + 1 /\
   forall id, settles id e = None) \/
  (exists k s,
     is_Some (messageHandlers t !! k) /\ settles k e = Some s /\
     (forall id, id <> k -> settles id e = None) /\
     messageHandlers (step t e) = base.delete k (messageHandlers t) /\
     promises (step t e) = <[k := s]> (promises t) /\
     nextId (step t e) = nextId t).
Proof.
  intros Hwf. destruct e as [method params|method params| |message|k].
  - right; left. by cbn.
  - by left.
  - by left.
  - destruct (msg_id message) as [k|] eqn:Hk.
    + destruct (messageHandlers t !! k) as [h|] eqn:Hh.
      * right; right.
        destruct (step_receive_found t message k Hwf Hk) as (s & Hs & ->);
          [by eexists|].
        exists k, s. split; [by eexists|]. split; [done|].
        split; [|done]. intros id Hid. cbn. rewrite Hk.
        by rewrite decide_False by congruence.
      * left. cbn. unfold handleMessage. by rewrite Hk, Hh.
    + left. cbn. unfold handleMessage. rewrite Hk.
      by destruct (msg_method message) as [[|c m]|].
  - destruct (messageHandlers t !! k) as [h|] eqn:Hh.
    + right; right. rewrite step_timer_found by (done || by eexists).
      exists k, (Rejected (mkError (js "Request timeout"))).
      split; [by eexists|]. split; [cbn; by rewrite decide_True|].
      split; [|done]. intros id Hid. cbn. by rewrite decide_False.
    + left. cbn. unfold on_timeout. by rewrite Hh.
Qed.

Lemma settles_needs_handler (t : Transport) (e : Event) (id : Z) :
  well_formed t -> messageHandlers t !! id = None ->
  messageHandlers (step t e) !! id = None \/ id = nextId t.
Proof.
  intros Hwf Hid.
  destruct (step_cases t e Hwf) as [(-> & _)|[(-> & _)|(k & s & _ & _ & _ & -> & _)]].
  - by left.
  - destruct (decide (id = nextId t)); [by right|left].
    by rewrite lookup_insert_ne.
  - left. destruct (decide (id = k)) as [->|];
      [apply lookup_delete_eq|by rewrite lookup_delete_ne].
Qed.

Lemma well_formed_step (t : Transport) (e : Event) :
  well_formed t -> well_formed (step t e).
Proof.
  intros Hwf. pose proof Hwf as [Hh Hp].
  destruct (step_cases t e Hwf)
    as [(Eh & Ep & En)|[(Eh & Ep & En & _)|(k & s & Hk & _ & _ & Eh & Ep & En)]];
    split; rewrite ?Eh, ?Ep, ?En.
  - done.
  - done.
  - intros j h Hj. destruct (decide (j = nextId t)) as [->|Hne].
    + rewrite lookup_insert_eq in Hj. injection Hj as <-.
      split; [done|]. split; [lia|].
      destruct (promises t !! nextId t) as [s|] eqn:Hs; [|done].
      apply Hp in Hs. lia.
    + rewrite lookup_insert_ne in Hj by done.
      destruct (Hh j h Hj) as (? & ? & ?). split; [done|]. split; [lia|done].
  - intros j s Hj. apply Hp in Hj. lia.
  - intros j h Hj. destruct (decide (j = k)) as [->|Hne].
    + by rewrite lookup_delete_eq in Hj.
    + rewrite lookup_delete_ne in Hj by done.
      destruct (Hh j h Hj) as (? & ? & ?). split; [done|]. split; [done|].
      by rewrite lookup_insert_ne.
  - intros j s' Hj. destruct (decide (j = k)) as [->|Hne].
    + destruct Hk as [h Hk]. by destruct (Hh k h Hk) as (_ & ? & _).
    + rewrite lookup_insert_ne in Hj by done. by apply Hp in Hj.
Qed.

Lemma well_formed_run (events : list Event) (t : Transport) :
  well_formed t -> well_formed (run events t).
Proof.
  revert t. induction events as [|e events IH]; intros t Hwf; [done|].
  cbn. apply IH. by apply well_formed_step.
Qed.

Lemma nextId_step (t : Transport) (e : Event) :
  well_formed t -> nextId t <= nextId (step t e).
Proof.
  intros Hwf.
  destruct (step_cases t e Hwf)
    as [(_ & _ & ->)|[(_ & _ & -> & _)|(k & s & _ & _ & _ & _ & _ & ->)]]; lia.
Qed.

Lemma nextId_run (events : list Event) (t : Transport) :
  well_formed t -> nextId t <= nextId (run events t).
Proof.
  revert t. induction events as [|e events IH]; intros t Hwf; [cbn; lia|].
  cbn. pose proof (nextId_step t e Hwf).
  pose proof (IH (step t e) (well_formed_step t e Hwf)). unfold run in *. lia.
Qed.

(** A settled request stays as it is. *)
Lemma settled_step (id : Z) (s : Settlement) (t : Transport) (e : Event) :
  well_formed t -> settled id s t -> settled id s (step t e).
Proof.
  intros Hwf [Hh Hp]. pose proof Hwf as [Hwh Hwp]. unfold settled.
  destruct (step_cases t e Hwf)
    as [(-> & -> & _)|[(-> & -> & _)|(k & s' & [h Hk] & _ & _ & -> & -> & _)]].
  - done.
  - split; [|done]. rewrite lookup_insert_ne; [done|].
    apply Hwp in Hp. lia.
  - assert (id <> k) by congruence.
    by rewrite lookup_delete_ne, lookup_insert_ne.
Qed.

Lemma settled_run (id : Z) (s : Settlement) (events : list Event)
    (t : Transport) :
  well_formed t -> settled id s t -> settled id s (run events t).
Proof.
  revert t. induction events as [|e events IH]; intros t Hwf Hs; [done|].
  cbn. apply IH; [by apply well_formed_step|by apply settled_step].
Qed.

(** A waiting request is settled by the first event that answers it or
    times it out, and waits until then. *)
Lemma pending_step (id : Z) (t : Transport) (e : Event) :
  well_formed t -> pending id t ->
  match settles id e with
  | Some s => settled id s (step t e)
  | None => pending id (step t e)
  end.
Proof.
  intros Hwf [Hh Hp]. pose proof Hwf as [Hwh Hwp].
  destruct (step_cases t e Hwf)
    as [(Eh & Ep & _)|[(Eh & Ep & _ & Hnone)|(k & s & [h Hk] & Hs & Hother & Eh & Ep & _)]].
  - assert (settles id e = None) as ->; [|by unfold pending; rewrite Eh, Ep].
    destruct e as [method params|method params| |message|k]; [done..| |].
    + cbn. destruct (decide (msg_id message = Some id)) as [Hid|]; [|done].
      exfalso. cbn in Eh, Ep. unfold handleMessage in Ep.
      rewrite Hid, Hh in Ep. cbn in Ep. unfold run_handler in Ep.
      assert (Hin : forall x, (<[id := x]> (promises t)) !! id = promises t !! id
                  -> False) by (intros x; rewrite lookup_insert_eq, Hp; done).
      destruct (msg_error message); rewrite settle_fresh in Ep by done;
        cbn in Ep; eapply Hin; by rewrite Ep.
    + cbn. destruct (decide (k = id)) as [->|]; [|done].
      exfalso. cbn in Ep. unfold on_timeout in Ep. rewrite Hh in Ep.
      rewrite settle_fresh in Ep by done. cbn in Ep.
      assert (Hl : (<[id := Rejected (mkError (js "Request timeout"))]>
                      (promises t)) !! id = promises t !! id) by by rewrite Ep.
      by rewrite lookup_insert_eq, Hp in Hl.
  - rewrite Hnone. unfold pending. rewrite Eh, Ep. split; [|done].
    rewrite lookup_insert_ne; [done|].
    destruct (Hwh id _ Hh) as (_ & ? & _). lia.
  - destruct (decide (id = k)) as [->|Hne].
    + rewrite Hs. unfold settled. rewrite Eh, Ep.
      by rewrite lookup_delete_eq, lookup_insert_eq.
    + rewrite (Hother id Hne). unfold pending. rewrite Eh, Ep.
      by rewrite lookup_delete_ne, lookup_insert_ne.
Qed.

Lemma pending_run (id : Z) (events : list Event) (t : Transport) :
  well_formed t -> pending id t ->
  match first_settling id events with
  | Some s => settled id s (run events t)
  | None => pending id (run events t)
  end.
Proof.
  revert t. induction events as [|e events IH]; intros t Hwf Hp; [done|].
  cbn [first_settling]. pose proof (pending_step id t e Hwf Hp) as Hstep.
  destruct (settles id e) as [s|].
  - cbn. apply settled_run; [by apply well_formed_step|done].
  - apply (IH (step t e)); [by apply well_formed_step|done].
Qed.

Lemma sendRequest_pending (method : jsstring) (params : option json)
    (t : Transport) :
  well_formed t ->
  pending (nextId t) (snd (sendRequest method params t)).
Proof.
  intros [Hh Hp]. split; cbn; [apply lookup_insert_eq|].
  destruct (promises t !! nextId t) as [s|] eqn:Hs; [|done].
  apply Hp in Hs. lia.
Qed.

(** C9. [sendRequest] gives the request the next id, one more than the
    one before and below every id given later, registers its handler and a
    timer of 30000 milliseconds. Whatever happens next, the promise of the
    request is settled by the first event that is a response with its id or
    its timer firing, and by nothing else: a response resolves it with its
    [result], or rejects it with the message of its [error]; the timer
    rejects it with ["Request timeout"]. Once that has happened the handler
    is gone, and a response with the id leaves the transport as it is. *)
Theorem request_lifecycle (t : Transport) (method : jsstring)
    (params : option json) (events : list Event) :
  well_formed t ->
  let id := fst (sendRequest method params t) in
  let t1 := snd (sendRequest method params t) in
  id = nextId t /\ nextId t1 = id + 1 /\
  timers t1 = (30000, id) :: timers t /\
  messageHandlers t1 !! id = Some (SettleRequest id) /\
  promises t1 !! id = None /\
  (forall method' params',
     id < fst (sendRequest method' params' (run events t1))) /\
  promises (run events t1) !! id = first_settling id events /\
  (forall s, first_settling id events = Some s ->
     messageHandlers (run events t1) !! id = None /\
     forall message, msg_id message = Some id ->
       handleMessage message (run events t1) = run events t1) /\
  (forall message later,
     msg_id message = Some id -> first_settling id events = None ->
     promises (run (events ++ Receive message :: later) t1) !! id
     = Some match msg_error message with
            | Some err =>
                Rejected (mkError match error_message err with
                                  | Some (c :: m) => c :: m
                                  | _ => js "Unknown error"
                                  end)
            | None => Resolved (msg_result message)
            end) /\
  (forall later,
     first_settling id events = None ->
     promises (run (events ++ TimerFired id :: later) t1) !! id
     = Some (Rejected (mkError (js "Request timeout")))).
Proof.
  intros Hwf id t1.
  assert (Hwf1 : well_formed t1) by apply (well_formed_step t (Send method params) Hwf).
  assert (Hpending : pending id t1) by by apply sendRequest_pending.
  assert (Htrace : forall evs,
            promises (run evs t1) !! id = first_settling id evs).
  { intros evs. pose proof (pending_run id evs t1 Hwf1 Hpending) as Hrun.
    destruct (first_settling id evs); by destruct Hrun. }
  assert (Hfirst : forall evs e later,
            first_settling id evs = None ->
            first_settling id (evs ++ e :: later)
            = match settles id e with
              | Some s => Some s
              | None => first_settling id later
              end).
  { induction evs as [|e' evs IH]; intros e later Hnone; [done|].
    cbn [first_settling app] in *.
    destruct (settles id e'); [done|]. by apply IH. }
  split; [done|]. split; [done|]. split; [done|].
  split; [apply Hpending|]. split; [apply Hpending|].
  split; [|split; [apply Htrace|split; [|split]]].
  - intros method' params'. cbn [fst sendRequest].
    pose proof (nextId_run events t1 Hwf1). cbn in *. lia.
  - intros s Hs. pose proof (pending_run id events t1 Hwf1 Hpending) as Hrun.
    rewrite Hs in Hrun. destruct Hrun as [Hgone _]. split; [done|].
    intros message Hid. unfold handleMessage. by rewrite Hid, Hgone.
  - intros message later Hid Hnone. rewrite Htrace, (Hfirst _ _ _ Hnone).
    cbn. by rewrite decide_True.
  - intros later Hnone. rewrite Htrace, (Hfirst _ _ _ Hnone).
    cbn. by rewrite decide_True.
Qed.

End TransportFacts.

(** The life of the first request of a transport: the target answers it, and
    the timer that fires afterwards changes nothing. *)
Lemma request_lifecycle_witness :
  let t1 := snd (@TargetServerTransport.sendRequest SmallRuntime.small
                   (js "tools/call") None TargetServerTransport.initial) in
  let answer :=
    @TargetServerTransport.mkMessage SmallRuntime.small (Some 1)
      (Some (SmallRuntime.VBool true)) None None in
  TargetServerTransport.promises
    (TargetServerTransport.run
       [TargetServerTransport.Receive answer; TargetServerTransport.TimerFired 1]
       t1) !! 1
  = Some (@Resolved SmallRuntime.small (Some (SmallRuntime.VBool true))).
Proof.
  intros t1 answer.
  exact (proj1 (proj2 (proj2 (proj2 (proj2 (proj2 (proj2
           (@request_lifecycle SmallRuntime.small TargetServerTransport.initial
              (js "tools/call") None
              [TargetServerTransport.Receive answer;
               TargetServerTransport.TimerFired 1]
              (@well_formed_initial SmallRuntime.small))))))))).
Defined.

(** ** Worked examples on the small runtime *)

Section Examples.
Import SmallRuntime CacheManager MCPProxy.

Example toFixed2_rounds : toFixed2 1000000 1024 = js "976.56".
Proof. reflexivity. Qed.

Example generateId_hex : generateId random = js "resp_0a1b2c3d4e5f".
Proof. reflexivity. Qed.

Example byteLength_units :
  byteLength [104; 233; 8364; 55357; 56832; 55357]%N = 13 /\
  len [104; 233; 8364; 55357; 56832; 55357]%N = 6.
Proof. split; reflexivity. Qed.

Example extractChunk_first :
  rbind (QueryEngine.extractChunk (VArr [VNull; VBool true]) 0 8)
    (fun c => Ok (QueryEngine.chunk c))
  = Ok ([91; 10; 32; 32]%N ++ js "null").
Proof. reflexivity. Qed.

(** A response below the limit comes back as it is. *)
Example forward_small :
  fst (forwardToolCall defaults (js "dom") (Resolved (Some (VBool true)))
         random 1700000000123 (mkCacheDir ∅ ∅))
  = Ok (Forwarded (VBool true)).
Proof. reflexivity. Qed.

(** With a token limit of one the limit is four units, and a response of
    eleven units is saved and summarised. *)
Example forward_large :
  fst (forwardToolCall tiny_limit (js "dom")
         (Resolved (Some (VArr [VNull; VBool true])))
         random 1700000000123 (mkCacheDir ∅ ∅))
  = Ok (TextContent
          (js "Response too large (0.01KB, 1 chunks). Saved as resp_0a1b2c3d4e5f."
           ++ [newline; newline] ++
           js "Use query_response('resp_0a1b2c3d4e5f', '<query>') to search."
           ++ [newline] ++
           js "Use get_chunk('resp_0a1b2c3d4e5f', 0) to read first chunk."
           ++ [newline; newline] ++
           js "Expires: 2023-11-14T23:13:20.123Z")
          false).
Proof. reflexivity. Qed.

(** A response without a [result] is reported as a failed call. *)
Example forward_undefined :
  fst (forwardToolCall defaults (js "dom") (Resolved None)
         random 1700000000123 (mkCacheDir ∅ ∅))
  = Ok (TextContent
          (js "Error calling dom: Cannot read properties of undefined (reading 'length')")
          true).
Proof. reflexivity. Qed.

(** A rejection that speaks of the maximum length gets the fixed advice. *)
Example forward_size_error :
  fst (forwardToolCall defaults (js "dom")
         (Rejected (mkError (js "Response exceeds maximum length of 1048576 bytes")))
         random 1700000000123 (mkCacheDir ∅ ∅))
  = Ok (TextContent size_limit_text false).
Proof. reflexivity. Qed.

End Examples.

(** ** More about strings *)

Lemma startsWith_prefix (s p : jsstring) :
  startsWith s p = true <-> exists r, s = p ++ r.
Proof.
  revert s. induction p as [|c p IH]; intros s.
  - split; [intros _; by exists s|intros _; by destruct s].
  - destruct s as [|d s]; cbn [startsWith app].
    + split; [done|by intros [r Hr]].
    + rewrite andb_true_iff, IH. split.
      * intros [Hc [r ->]]. apply N.eqb_eq in Hc as ->. by exists r.
      * intros [r Hr]. injection Hr as -> ->.
        split; [apply N.eqb_refl|by exists r].
Qed.

Lemma endsWith_suffix (s p : jsstring) :
  endsWith s p = true <-> exists r, s = r ++ p.
Proof.
  unfold endsWith. rewrite startsWith_prefix. split.
  - intros [r Hr]. exists (rev r).
    rewrite <- (rev_involutive s), Hr, rev_app_distr. by rewrite rev_involutive.
  - intros [r ->]. exists (rev r). by rewrite rev_app_distr.
Qed.

Lemma elem_of_rev_1 (c : N) (s : jsstring) : c ∈ rev s -> c ∈ s.
Proof. rewrite !list_elem_of_In. apply in_rev. Qed.

(** The name of a payload file of a dotless id does not look like the name
    of a metadata file. *)
Lemma data_name_not_meta (k : jsstring) :
  46%N ∉ k -> endsWith (k ++ js ".json") (js ".meta.json") = false.
Proof.
  intros Hk. destruct (endsWith _ _) eqn:He; [exfalso|done].
  apply endsWith_suffix in He as [r Hr].
  change (js ".meta.json") with (js ".meta" ++ js ".json") in Hr.
  rewrite (assoc_L (++)) in Hr. apply app_inv_tail in Hr. subst k.
  apply Hk. apply elem_of_app. right. apply list_elem_of_In.
  vm_compute. tauto.
Qed.

Lemma remove_first_suffix (k : jsstring) :
  46%N ∉ k -> CacheManager.remove_first (js ".meta.json") (k ++ js ".meta.json") = k.
Proof.
  induction k as [|c k IH]; intros Hk; [reflexivity|].
  cbn [app CacheManager.remove_first].
  assert (Hc : c <> 46%N) by (intros ->; apply Hk; left).
  assert (Hs : startsWith (c :: k ++ js ".meta.json") (js ".meta.json") = false).
  { change (js ".meta.json") with (46%N :: js "meta.json").
    cbn [startsWith]. by destruct (N.eqb_spec 46 c) as [|_]; [congruence|]. }
  rewrite Hs. f_equal. apply IH. intros Hin. apply Hk. by right.
Qed.

(** ** More about the cache store *)

Section CacheStoreFacts.
Context `{Runtime}.
Import CacheManager.

Lemma refresh_run (ttl now : Z) (k : jsstring) (d : CacheDir) :
  refresh ttl now k d =
  match metaFiles d !! k with
  | Some m =>
      if valid_time (now + ttl * 1000)
      then
        (Ok true,
         mkCacheDir (dataFiles d)
           (<[k := mkResponseMetadata (id m) (tool m) (sizeBytes m)
                     (createdAt m) (now + ttl * 1000) (client m) (chunks m)
                     (indexed m)]>
              (metaFiles d)))
      else (Throw (mkError (js "Invalid time value")), d)
  | None => (Ok false, d)
  end.
Proof.
  unfold refresh, mbind, io_bind. unfold bind at 1. rewrite getMetadata_run.
  destruct (metaFiles d !! k) as [m|]; [|done].
  unfold bind, lift, Date_toISOString.
  by destruct (valid_time (now + ttl * 1000)).
Qed.

(** X2. [refresh] of an id with metadata, when the new expiry
    [now + ttl * 1000] is a valid date, returns [true] and moves the expiry
    there, whatever it was before: the other fields of the record, the
    records of other ids and every payload file stay, and where the id has a
    payload that [JSON.parse] reads, a [get] no later than the new expiry
    returns it, also when the entry had expired before the refresh. When
    the new expiry is no valid date, [refresh] throws and writes nothing. *)
Theorem refresh_extends (ttl now : Z) (k : jsstring) (m : ResponseMetadata)
    (d : CacheDir) :
  metaFiles d !! k = Some m ->
  (valid_time (now + ttl * 1000) = true ->
   exists d1 m1,
     refresh ttl now k d = (Ok true, d1) /\
     metaFiles d1 !! k = Some m1 /\
     expiresAt m1 = now + ttl * 1000 /\
     (id m1, tool m1, sizeBytes m1, createdAt m1, client m1, chunks m1,
      indexed m1)
     = (id m, tool m, sizeBytes m, createdAt m, client m, chunks m,
        indexed m) /\
     dataFiles d1 = dataFiles d /\
     (forall k', k' <> k -> metaFiles d1 !! k' = metaFiles d !! k') /\
     (forall later s v,
        dataFiles d !! k = Some s -> JSON_parse s = Ok v ->
        later <= now + ttl * 1000 ->
        get later k d1 = (Ok (Some v), d1))) /\
  (valid_time (now + ttl * 1000) = false ->
   refresh ttl now k d = (Throw (mkError (js "Invalid time value")), d)).
Proof.
  intros Hm. rewrite refresh_run, Hm. split; intros ->; [|done].
  eexists _, _. split; [reflexivity|]. cbn [metaFiles dataFiles].
  split; [apply lookup_insert_eq|]. split; [reflexivity|].
  split; [reflexivity|]. split; [reflexivity|].
  split; [intros k' Hk'; by rewrite lookup_insert_ne|].
  intros later s v Hs Hv Hlater.
  rewrite get_run. cbn [metaFiles dataFiles]. rewrite lookup_insert_eq.
  cbn [expiresAt]. destruct (Z.ltb_spec (now + ttl * 1000) later); [lia|].
  by rewrite Hs, Hv.
Qed.

Lemma generateId_dotless (random : list N) : 46%N ∉ generateId random.
Proof.
  unfold generateId. intros [Hin|Hin]%elem_of_app.
  - apply list_elem_of_In in Hin. vm_compute in Hin.
    repeat destruct Hin as [Hin|Hin]; done.
  - unfold hex in Hin. apply list_elem_of_bind in Hin as (b & Hin & _).
    assert (Hd : forall n, 46%N <> hex_digit n)
      by (intros n; unfold hex_digit; destruct (N.ltb_spec n 10); lia).
    apply list_elem_of_In in Hin. cbn in Hin.
    destruct Hin as [Hin|[Hin|[]]]; symmetry in Hin; by apply Hd in Hin.
Qed.

Lemma consistent_empty : consistent (mkCacheDir ∅ ∅).
Proof. split; intros k x Hk; cbn in Hk; by rewrite lookup_empty in Hk. Qed.

Lemma consistent_delete (k : jsstring) (d : CacheDir) :
  consistent d -> consistent (snd (delete k d)).
Proof.
  intros [Hmeta Hdata]. rewrite delete_run.
  destruct (dataFiles d !! k) eqn:Hk; [|done].
  destruct (metaFiles d !! k) eqn:Hm; split; cbn; intros k' x Hx.
  - destruct (decide (k' = k)) as [->|];
      [by rewrite lookup_delete_eq in Hx|rewrite lookup_delete_ne in Hx by done].
    by apply Hmeta.
  - destruct (decide (k' = k)) as [->|];
      [by rewrite lookup_delete_eq in Hx|rewrite lookup_delete_ne in Hx by done].
    by apply (Hdata k' x).
  - by apply Hmeta.
  - destruct (decide (k' = k)) as [->|];
      [by rewrite lookup_delete_eq in Hx|rewrite lookup_delete_ne in Hx by done].
    by apply (Hdata k' x).
Qed.

Lemma delete_ok (k : jsstring) (d : CacheDir) :
  exists b, delete k d = (Ok b, snd (delete k d)).
Proof.
  rewrite delete_run.
  destruct (dataFiles d !! k); [destruct (metaFiles d !! k)|]; by eexists.
Qed.

Lemma delete_other (k k' : jsstring) (d : CacheDir) :
  k' <> k ->
  dataFiles (snd (delete k d)) !! k' = dataFiles d !! k' /\
  metaFiles (snd (delete k d)) !! k' = metaFiles d !! k'.
Proof.
  intros Hk. rewrite delete_run.
  destruct (dataFiles d !! k); [destruct (metaFiles d !! k)|]; cbn;
    by rewrite ?lookup_delete_ne.
Qed.

Lemma delete_meta_at (k : jsstring) (d : CacheDir) :
  metaFiles (snd (delete k d)) !! k
  = if bool_decide (is_Some (dataFiles d !! k)) then None else metaFiles d !! k.
Proof.
  rewrite delete_run. destruct (dataFiles d !! k) as [s|] eqn:Hs.
  - rewrite bool_decide_eq_true_2 by by eexists.
    destruct (metaFiles d !! k) eqn:Hm; cbn; [apply lookup_delete_eq|done].
  - rewrite bool_decide_eq_false_2; [done|]. by intros [? ?].
Qed.

Lemma filter_all {A} (f : A -> bool) (l : list A) :
  (forall x, x ∈ l -> f x = true) -> List.filter f l = l.
Proof.
  induction l as [|a l IH]; intros Hf; [done|]. cbn.
  rewrite Hf by left. f_equal. apply IH. intros x Hx. apply Hf. by right.
Qed.

Lemma filter_none {A} (f : A -> bool) (l : list A) :
  (forall x, x ∈ l -> f x = false) -> List.filter f l = [].
Proof.
  induction l as [|a l IH]; intros Hf; [done|]. cbn.
  rewrite Hf by left. apply IH. intros x Hx. apply Hf. by right.
Qed.

Lemma omap_Some {A} (l : list A) : omap (fun m => m) (Some <$> l) = l.
Proof. induction l as [|a l IH]; [done|]. cbn. by rewrite IH. Qed.

Lemma mapM_cons_run {A B} (f : A -> io B) (x : A) (l : list A) (d : CacheDir) :
  mapM f (x :: l) d =
  match f x d with
  | (Ok y, d1) =>
      match mapM f l d1 with
      | (Ok r, d2) => (Ok (y :: r), d2)
      | (Throw e, d2) => (Throw e, d2)
      end
  | (Throw e, d1) => (Throw e, d1)
  end.
Proof.
  change (mapM f (x :: l))
    with (f x ≫= fun y => mapM f l ≫= fun k => mret (y :: k)).
  unfold mbind, io_bind, mret, io_ret. unfold bind at 1.
  destruct (f x d) as [[y|e] d1]; [|done]. unfold bind.
  by destruct (mapM f l d1) as [[r|e] d2].
Qed.

Lemma mapM_getMetadata (l : list (jsstring * ResponseMetadata)) (d : CacheDir) :
  (forall k m, (k, m) ∈ l -> metaFiles d !! k = Some m /\ 46%N ∉ k) ->
  mapM (fun file => getMetadata (remove_first (js ".meta.json") file))
       ((fun k => k ++ js ".meta.json") <$> l.*1) d
  = (Ok (Some <$> l.*2), d).
Proof.
  induction l as [|[k m] l IH]; intros Hl; [done|].
  destruct (Hl k m ltac:(left)) as [Hm Hk].
  rewrite !fmap_cons, mapM_cons_run. cbn [fst snd].
  rewrite getMetadata_run, remove_first_suffix by done.
  rewrite Hm, IH; [done|]. intros k' m' Hin. apply Hl. by right.
Qed.

(** The listing of a consistent directory: the metadata records, as many as
    there are metadata files. *)
Lemma list_run (d : CacheDir) :
  consistent d -> list_ d = (Ok (map_to_list (metaFiles d)).*2, d).
Proof.
  intros [Hmeta Hdata]. unfold list_, try_catch, mbind, io_bind.
  unfold bind at 1. unfold readdir. rewrite List.filter_app.
  rewrite filter_none, filter_all; cycle 1.
  - intros f [k [-> Hk]]%list_elem_of_fmap. apply endsWith_suffix. by eexists.
  - intros f [k [-> Hk]]%list_elem_of_fmap. apply data_name_not_meta.
    apply list_elem_of_fmap in Hk as [[k' s] [-> Hk]].
    apply elem_of_map_to_list in Hk. by apply (Hdata k' s).
  - cbn [app]. unfold bind at 1. rewrite mapM_getMetadata.
    + unfold ret. by rewrite omap_Some.
    + intros k m Hk. apply elem_of_map_to_list in Hk.
      split; [done|]. by apply (Hmeta k m).
Qed.

(** X3. In a consistent directory [list] returns one record for every
    metadata file and nothing else, expired or not, and changes nothing; an
    id with a payload file only is not listed. *)
Theorem list_lists_metadata (d : CacheDir) :
  consistent d ->
  exists items,
    list_ d = (Ok items, d) /\
    len items = Z.of_nat (size (metaFiles d)) /\
    (forall m, m ∈ items <-> metaFiles d !! id m = Some m) /\
    (forall k, (exists m, m ∈ items /\ id m = k) <-> is_Some (metaFiles d !! k)).
Proof.
  intros Hd. rewrite (list_run d Hd). eexists. split; [reflexivity|].
  destruct Hd as [Hmeta _].
  assert (Hin : forall m, m ∈ (map_to_list (metaFiles d)).*2
                          <-> metaFiles d !! id m = Some m).
  { intros m. rewrite list_elem_of_fmap. split.
    - intros [[k m'] [-> Hk]]. apply elem_of_map_to_list in Hk. cbn.
      by destruct (Hmeta k m' Hk) as [-> _].
    - intros Hm. exists (id m, m). split; [done|]. by apply elem_of_map_to_list. }
  split; [|split; [done|]].
  - unfold len. by rewrite length_fmap, length_map_to_list.
  - intros k. split.
    + intros (m & Hm & <-). apply Hin in Hm. by eexists.
    + intros [m Hm]. exists m. destruct (Hmeta k m Hm) as [Hid _].
      split; [|done]. apply Hin. by rewrite Hid.
Qed.

Lemma cleanup_loop_run (now : Z) (l : list (jsstring * ResponseMetadata))
    (c : Z) (d : CacheDir) :
  NoDup l.*1 ->
  (forall k m, (k, m) ∈ l -> metaFiles d !! k = Some m /\ id m = k) ->
  exists d',
    cleanup_loop now l.*2 c d
    = (Ok (c + len (List.filter (fun m => expiresAt m <? now) l.*2)), d') /\
    forall k,
      dataFiles d' !! k
      = (if bool_decide (k ∈ l.*1) && expired now d k
         then None else dataFiles d !! k) /\
      metaFiles d' !! k
      = (if bool_decide (k ∈ l.*1) && expired now d k
            && bool_decide (is_Some (dataFiles d !! k))
         then None else metaFiles d !! k).
Proof.
  revert c d. induction l as [|[k0 m0] l IH]; intros c d Hnd Hl.
  - exists d. split; [cbn; unfold ret; do 2 f_equal; unfold len; cbn; lia|].
    intros k. by rewrite bool_decide_eq_false_2 by (cbn; apply not_elem_of_nil).
  - cbn [fmap list_fmap fst snd] in Hnd. apply NoDup_cons in Hnd as [Hk0 Hnd].
    destruct (Hl k0 m0 ltac:(left)) as [Hm0 Hid].
    assert (Hrest : forall d1,
              (forall k, k <> k0 -> metaFiles d1 !! k = metaFiles d !! k) ->
              forall k m, (k, m) ∈ l -> metaFiles d1 !! k = Some m /\ id m = k).
    { intros d1 Hd1 k m Hin. destruct (Hl k m ltac:(by right)) as [Hm Hi].
      split; [|done]. rewrite Hd1; [done|]. intros ->. apply Hk0.
      apply list_elem_of_fmap. by exists (k0, m). }
    cbn [fmap list_fmap fst snd cleanup_loop List.filter].
    destruct (expiresAt m0 <? now) eqn:Hexp.
    + unfold mbind, io_bind, bind. rewrite Hid.
      destruct (delete_ok k0 d) as [b ->].
      destruct (IH (c + 1) (snd (delete k0 d)) Hnd) as (d' & Hrun & Hlook).
      { apply Hrest. intros k Hk. by apply delete_other. }
      exists d'. split.
      { fold (cleanup_loop now). rewrite Hrun. do 2 f_equal.
        unfold len. cbn [length]. lia. }
      intros k. destruct (Hlook k) as [Hd' Hm']. rewrite Hd', Hm'.
      destruct (decide (k = k0)) as [->|Hne].
      * rewrite (bool_decide_eq_false_2 (k0 ∈ l.*1)) by done.
        rewrite (bool_decide_eq_true_2 (k0 ∈ k0 :: l.*1)) by left.
        cbn [andb].
        assert (expired now d k0 = true) as ->
          by (unfold expired; by rewrite Hm0).
        rewrite delete_no_data, delete_meta_at. cbn [andb].
        by destruct (bool_decide (is_Some (dataFiles d !! k0))).
      * destruct (delete_other k0 k d Hne) as [-> Hmo].
        assert (expired now (snd (delete k0 d)) k = expired now d k) as ->
          by (unfold expired; by rewrite Hmo).
        rewrite Hmo.
        assert (bool_decide (k ∈ k0 :: l.*1) = bool_decide (k ∈ l.*1)) as ->
          by (apply bool_decide_ext; rewrite elem_of_cons;
              split; [intros [Heq|Hin]; [congruence|done]|by right]).
        done.
    + destruct (IH c d Hnd) as (d' & Hrun & Hlook).
      { apply Hrest. done. }
      exists d'. split; [done|].
      intros k. destruct (Hlook k) as [-> ->].
      destruct (decide (k = k0)) as [->|Hne].
      * rewrite (bool_decide_eq_false_2 (k0 ∈ l.*1)) by done.
        unfold expired. rewrite Hm0, Hexp. by rewrite !andb_false_r.
      * assert (bool_decide (k ∈ k0 :: l.*1) = bool_decide (k ∈ l.*1)) as ->
          by (apply bool_decide_ext; rewrite elem_of_cons;
              split; [intros [Heq|Hin]; [congruence|done]|by right]).
        done.
Qed.

Lemma cleanup_run (now : Z) (d : CacheDir) :
  consistent d ->
  exists items d',
    list_ d = (Ok items, d) /\
    cleanup now d
    = (Ok (len (List.filter (fun m => expiresAt m <? now) items)), d') /\
    forall k,
      dataFiles d' !! k
      = (if expired now d k then None else dataFiles d !! k) /\
      metaFiles d' !! k
      = (if expired now d k && bool_decide (is_Some (dataFiles d !! k))
         then None else metaFiles d !! k).
Proof.
  intros Hd. pose proof (list_run d Hd) as Hlist.
  destruct (cleanup_loop_run now (map_to_list (metaFiles d)) 0 d)
    as (d' & Hrun & Hlook).
  { apply NoDup_fst_map_to_list. }
  { intros k m Hk. apply elem_of_map_to_list in Hk.
    split; [done|]. by apply (proj1 Hd k m). }
  exists (map_to_list (metaFiles d)).*2, d'. split; [done|]. split.
  - unfold cleanup, mbind, io_bind, bind. by rewrite Hlist, Hrun.
  - intros k. destruct (Hlook k) as [-> ->].
    destruct (expired now d k) eqn:Hexp; [|by rewrite !andb_false_r].
    rewrite bool_decide_eq_true_2; [done|].
    unfold expired in Hexp. destruct (metaFiles d !! k) as [m|] eqn:Hm; [|done].
    apply list_elem_of_fmap. exists (k, m). split; [done|].
    by apply elem_of_map_to_list.
Qed.

(** X4. In a consistent directory [cleanup] returns the number of listed
    records that have expired, whether or not their files could be removed.
    Afterwards an id whose metadata had expired has no payload file, and no
    metadata file either if it had a payload file; the files of every other
    id are as they were. *)
Theorem cleanup_sweeps (now : Z) (d : CacheDir) :
  consistent d ->
  exists items d',
    list_ d = (Ok items, d) /\
    cleanup now d
    = (Ok (len (List.filter (fun m => expiresAt m <? now) items)), d') /\
    forall k,
      dataFiles d' !! k
      = (if expired now d k then None else dataFiles d !! k) /\
      metaFiles d' !! k
      = (if expired now d k && bool_decide (is_Some (dataFiles d !! k))
         then None else metaFiles d !! k).
Proof. apply cleanup_run. Qed.

Lemma save_other (ttl : Z) (random : list N) (now : Z) (tool : jsstring)
    (data : json) (client k : jsstring) (d : CacheDir) :
  k <> generateId random ->
  dataFiles (snd (save ttl random now tool data client d)) !! k
  = dataFiles d !! k /\
  metaFiles (snd (save ttl random now tool data client d)) !! k
  = metaFiles d !! k.
Proof.
  intros Hk. rewrite save_cases.
  destruct (valid_time now && valid_time (now + ttl * 1000)); [|done].
  cbn. by rewrite !lookup_insert_ne.
Qed.

(** X1. An id without a full stop that has neither file in a consistent
    directory is harmless: [get] and [getMetadata] answer with nothing,
    [delete] and [refresh] return [false], none of them throws, and each
    leaves the directory exactly as it was, so that no record comes into
    being for the id. *)
Theorem unknown_id_harmless (ttl now : Z) (k : jsstring) (d : CacheDir) :
  consistent d -> 46%N ∉ k ->
  dataFiles d !! k = None -> metaFiles d !! k = None ->
  get now k d = (Ok None, d) /\
  getMetadata k d = (Ok None, d) /\
  delete k d = (Ok false, d) /\
  refresh ttl now k d = (Ok false, d).
Proof.
  intros _ _ Hdata Hmeta.
  rewrite get_run, getMetadata_run, delete_run, refresh_run, Hdata, Hmeta.
  done.
Qed.

(** X5. The manager keeps its directory consistent: starting from a
    consistent directory, such as the empty one, [save], [get], [delete],
    [refresh], [list] and [cleanup] end in a directory where every metadata
    record sits under its own id and no id holds a full stop. *)
Theorem consistent_kept (ttl now : Z) (random : list N) (tool : jsstring)
    (data : json) (client k : jsstring) (d : CacheDir) :
  consistent d ->
  consistent (snd (save ttl random now tool data client d)) /\
  consistent (snd (get now k d)) /\
  consistent (snd (delete k d)) /\
  consistent (snd (refresh ttl now k d)) /\
  consistent (snd (list_ d)) /\
  consistent (snd (cleanup now d)).
Proof.
  intros Hd. pose proof Hd as [Hmeta Hdata].
  split; [|split; [|split; [by apply consistent_delete|split; [|split]]]].
  - rewrite save_cases.
    destruct (valid_time now && valid_time (now + ttl * 1000)); [|done].
    split; cbn; intros k' x Hx.
    + destruct (decide (k' = generateId random)) as [->|Hne].
      * rewrite lookup_insert_eq in Hx. injection Hx as <-.
        split; [done|apply generateId_dotless].
      * rewrite lookup_insert_ne in Hx by done. by apply Hmeta.
    + destruct (decide (k' = generateId random)) as [->|Hne];
        [apply generateId_dotless|].
      rewrite lookup_insert_ne in Hx by done. by apply (Hdata k' x).
  - rewrite get_run.
    destruct (match metaFiles d !! k with
              | Some m => expiresAt m <? now
              | None => false
              end); [by apply consistent_delete|].
    destruct (dataFiles d !! k) as [s|]; [|done]. by destruct (JSON_parse s).
  - rewrite refresh_run. destruct (metaFiles d !! k) as [m|] eqn:Hm; [|done].
    destruct (valid_time (now + ttl * 1000)); [|done].
    split; cbn; intros k' x Hx; [|by apply (Hdata k' x)].
    destruct (decide (k' = k)) as [->|Hne].
    + rewrite lookup_insert_eq in Hx. injection Hx as <-. cbn.
      by apply Hmeta.
    + rewrite lookup_insert_ne in Hx by done. by apply Hmeta.
  - by rewrite list_run.
  - destruct (cleanup_run now d Hd) as (items & d' & _ & -> & Hlook).
    cbn [snd]. split; intros k' x Hx.
    + destruct (Hlook k') as [_ Hm]. rewrite Hm in Hx.
      destruct (_ && _) in Hx; [done|]. by apply Hmeta.
    + destruct (Hlook k') as [Hs _]. rewrite Hs in Hx.
      destruct (expired now d k') in Hx; [done|]. by apply (Hdata k' x).
Qed.

End CacheStoreFacts.

Section CacheIdFacts.
Context `{Runtime}.
Import CacheManager.

Lemma hex_digit_inj (a b : N) :
  (a < 16)%N -> (b < 16)%N -> hex_digit a = hex_digit b -> a = b.
Proof.
  unfold hex_digit. intros Ha Hb.
  destruct (N.ltb_spec a 10), (N.ltb_spec b 10); lia.
Qed.

Lemma hex_digit_lower (a : N) : (a < 16)%N -> lower_hex (hex_digit a).
Proof.
  unfold hex_digit, lower_hex. intros Ha. destruct (N.ltb_spec a 10); lia.
Qed.

Lemma hex_cons (b : N) (l : list N) :
  hex (b :: l) = hex_digit (b / 16) :: hex_digit (b mod 16) :: hex l.
Proof. reflexivity. Qed.

Lemma byte_digits (b : N) :
  (b < 256)%N -> (b / 16 < 16)%N /\ (b mod 16 < 16)%N.
Proof.
  intros Hb. split; [apply N.Div0.div_lt_upper_bound; lia|].
  apply N.mod_lt. lia.
Qed.

Lemma hex_inj (l1 l2 : list N) :
  bytes l1 -> bytes l2 -> hex l1 = hex l2 -> l1 = l2.
Proof.
  intros H1. revert l2. induction H1 as [|b1 l1 Hb1 _ IH]; intros l2 H2 Heq.
  - destruct H2 as [|b2 l2 _ _]; [done|]. by rewrite hex_cons in Heq.
  - destruct H2 as [|b2 l2 Hb2 H2]; [by rewrite hex_cons in Heq|].
    rewrite !hex_cons in Heq. injection Heq as Hhi Hlo Hrest.
    destruct (byte_digits b1 Hb1), (byte_digits b2 Hb2).
    apply hex_digit_inj in Hhi; [|done..]. apply hex_digit_inj in Hlo; [|done..].
    f_equal; [|by apply IH].
    rewrite (N.div_mod b1 16), (N.div_mod b2 16) by lia. by rewrite Hhi, Hlo.
Qed.

(** X6. The id that [generateId] makes of random bytes is ["resp_"] followed
    by two lower-case hexadecimal digits for each byte, and different bytes
    give different ids: with six bytes the id has seventeen units and takes
    one of 2^48 values. *)
Theorem generateId_format (random : list N) :
  bytes random ->
  (exists digits,
     generateId random = js "resp_" ++ digits /\
     length digits = (2 * length random)%nat /\
     Forall lower_hex digits) /\
  (length random = 6%nat -> length (generateId random) = 17%nat) /\
  (forall other, bytes other -> generateId other = generateId random ->
     other = random).
Proof.
  intros Hr.
  assert (Hlen : length (hex random) = (2 * length random)%nat).
  { clear Hr. induction random as [|b l IH]; [done|].
    rewrite hex_cons. cbn [length]. lia. }
  split; [|split].
  - exists (hex random). split; [done|]. split; [done|].
    induction Hr as [|b l Hb _ IH]; [constructor|].
    rewrite hex_cons. destruct (byte_digits b Hb).
    constructor; [by apply hex_digit_lower|].
    constructor; [by apply hex_digit_lower|].
    apply IH. cbn [length] in Hlen. rewrite hex_cons in Hlen. cbn in Hlen. lia.
  - intros H6. unfold generateId. rewrite length_app, Hlen, H6. done.
  - intros other Ho Heq. unfold generateId in Heq.
    apply app_inv_head in Heq. by apply hex_inj.
Qed.

Lemma get_after_save (ttl : Z) (random : list N) (now later : Z)
    (tool : jsstring) (P : json) (client : jsstring) (d : CacheDir) :
  valid_time now = true -> valid_time (now + ttl * 1000) = true ->
  JSON_parse (JSON_stringify P) = Ok P -> later <= now + ttl * 1000 ->
  get later (generateId random) (snd (save ttl random now tool P client d))
  = (Ok (Some P), snd (save ttl random now tool P client d)).
Proof.
  intros Hnow Hexpiry HP Hl. rewrite save_run by done. cbn [snd].
  rewrite get_run.
  cbn [metaFiles dataFiles]. rewrite !lookup_insert_eq. cbn [expiresAt].
  destruct (Z.ltb_spec (now + ttl * 1000) later); [lia|]. by rewrite HP.
Qed.

(** X7. [save] does not look for the id it is about to use. Of two saves
    that return, their clocks and expiries being valid dates: saved under
    different random bytes, an earlier payload and its metadata are untouched
    and [get] still returns the payload; saved under the same bytes, the
    earlier payload is replaced by the later one. *)
Theorem save_twice (ttl : Z) (r1 r2 : list N) (t1 t2 later : Z)
    (tool1 tool2 client1 client2 : jsstring) (P1 P2 : json) (d : CacheDir) :
  bytes r1 -> bytes r2 ->
  valid_time t1 = true -> valid_time (t1 + ttl * 1000) = true ->
  valid_time t2 = true -> valid_time (t2 + ttl * 1000) = true ->
  JSON_parse (JSON_stringify P1) = Ok P1 ->
  JSON_parse (JSON_stringify P2) = Ok P2 ->
  later <= t1 + ttl * 1000 -> later <= t2 + ttl * 1000 ->
  let d1 := snd (save ttl r1 t1 tool1 P1 client1 d) in
  let d2 := snd (save ttl r2 t2 tool2 P2 client2 d1) in
  get later (generateId r2) d2 = (Ok (Some P2), d2) /\
  (r1 <> r2 ->
   get later (generateId r1) d2 = (Ok (Some P1), d2) /\
   metaFiles d2 !! generateId r1 = metaFiles d1 !! generateId r1) /\
  (r1 = r2 ->
   get later (generateId r1) d2 = (Ok (Some P2), d2) /\
   dataFiles d2 !! generateId r1 = Some (JSON_stringify P2)).
Proof.
  intros Hr1 Hr2 Ht1 He1 Ht2 He2 HP1 HP2 Hl1 Hl2 d1 d2.
  assert (Hget2 : get later (generateId r2) d2 = (Ok (Some P2), d2))
    by by apply get_after_save.
  split; [done|]. split.
  - intros Hne.
    assert (Hid : generateId r1 <> generateId r2).
    { intros Heq. apply Hne. unfold generateId in Heq.
      apply app_inv_head in Heq. by apply hex_inj. }
    destruct (save_other ttl r2 t2 tool2 P2 client2 (generateId r1) d1 Hid)
      as [Hdata Hmeta].
    fold d2 in Hdata, Hmeta. split; [|done].
    pose proof (get_after_save ttl r1 t1 later tool1 P1 client1 d Ht1 He1
                  HP1 Hl1) as Hget1.
    fold d1 in Hget1.
    rewrite get_run in Hget1. rewrite get_run, Hmeta, Hdata.
    destruct (match metaFiles d1 !! generateId r1 with
              | Some m => expiresAt m <? later
              | None => false
              end); [done|].
    destruct (dataFiles d1 !! generateId r1) as [s|]; [|done].
    destruct (JSON_parse s); [|done]. by injection Hget1 as ->.
  - intros ->. split; [done|]. unfold d2. rewrite save_run by done.
    cbn [snd dataFiles]. apply lookup_insert_eq.
Qed.

(** X8. When the metadata of a stored response has expired, a [get] answers
    with nothing and the id is gone from what [list] returns next, while the
    records of the other ids are listed as before. *)
Theorem lazy_expiry_unlists (now : Z) (k s : jsstring) (m : ResponseMetadata)
    (d : CacheDir) :
  consistent d ->
  metaFiles d !! k = Some m -> expiresAt m < now -> dataFiles d !! k = Some s ->
  let d1 := snd (get now k d) in
  fst (get now k d) = Ok None /\
  exists items,
    list_ d1 = (Ok items, d1) /\
    (forall m', m' ∈ items -> id m' <> k) /\
    (forall m', id m' <> k -> m' ∈ items <-> metaFiles d !! id m' = Some m').
Proof.
  intros Hd Hm Hexp Hs d1.
  assert (Hget : get now k d = (Ok None, snd (delete k d))).
  { rewrite get_run, Hm.
    by destruct (Z.ltb_spec (expiresAt m) now) as [_|]; [|lia]. }
  subst d1. rewrite Hget. cbn [fst snd]. split; [done|].
  pose proof (consistent_delete k d Hd) as Hd1.
  rewrite (list_run _ Hd1). eexists. split; [reflexivity|].
  assert (Hgone : metaFiles (snd (delete k d)) !! k = None)
    by (apply delete_stored; by eexists).
  assert (Hin : forall m', m' ∈ (map_to_list (metaFiles (snd (delete k d)))).*2
                           <-> metaFiles (snd (delete k d)) !! id m' = Some m').
  { intros m'. rewrite list_elem_of_fmap. split.
    - intros [[k' m''] [-> Hk]]. apply elem_of_map_to_list in Hk. cbn.
      by destruct (proj1 Hd1 k' m'' Hk) as [-> _].
    - intros Hm'. exists (id m', m'). split; [done|].
      by apply elem_of_map_to_list. }
  split.
  - intros m' Hm' Hk. apply Hin in Hm'. rewrite Hk in Hm'. congruence.
  - intros m' Hk. rewrite Hin.
    by destruct (delete_other k (id m') d Hk) as [_ ->].
Qed.

(** X9. After [delete] has removed a stored response and returned [true],
    a second [delete] of the id returns [false], [get] and [getMetadata]
    answer with nothing, and all three leave the directory as it is; the
    files of the other ids were not touched by the first [delete]. *)
Theorem delete_then (now : Z) (k s : jsstring) (m : ResponseMetadata)
    (d : CacheDir) :
  dataFiles d !! k = Some s -> metaFiles d !! k = Some m ->
  let d1 := snd (delete k d) in
  fst (delete k d) = Ok true /\
  delete k d1 = (Ok false, d1) /\
  get now k d1 = (Ok None, d1) /\
  getMetadata k d1 = (Ok None, d1) /\
  (forall k', k' <> k ->
     dataFiles d1 !! k' = dataFiles d !! k' /\
     metaFiles d1 !! k' = metaFiles d !! k').
Proof.
  intros Hs Hm d1.
  destruct (delete_both k s m d Hs Hm) as (Hok & Hdata & Hmeta).
  fold d1 in Hdata, Hmeta.
  split; [done|]. split; [by apply delete_without_data|].
  split; [by rewrite get_run, Hmeta, Hdata|].
  split; [by rewrite getMetadata_run, Hmeta|].
  intros k' Hk'. by apply delete_other.
Qed.

End CacheIdFacts.

(** *** The store on the sample directory *)

Lemma sample_dir_consistent : CacheManager.consistent sample_dir.
Proof.
  assert (Hid : 46%N ∉ js "resp_0a1b2c3d4e5f").
  { intros Hin. apply list_elem_of_In in Hin. vm_compute in Hin.
    repeat destruct Hin as [Hin|Hin]; done. }
  split; intros k x Hk; cbn in Hk;
    apply lookup_singleton_Some in Hk as [<- <-]; by try split.
Qed.

Lemma random_bytes : bytes random.
Proof. repeat constructor. Qed.

Lemma refresh_extends_witness :
  exists d1,
    CacheManager.refresh 3600 5000 (js "resp_0a1b2c3d4e5f") sample_dir
    = (Ok true, d1).
Proof.
  destruct (proj1 (@refresh_extends SmallRuntime.small 3600 5000
                     (js "resp_0a1b2c3d4e5f") sample_metadata sample_dir
                     (lookup_singleton_eq _ _)) eq_refl)
    as (d1 & m1 & Hrun & _).
  by exists d1.
Defined.

Lemma list_lists_metadata_witness :
  exists items, CacheManager.list_ sample_dir = (Ok items, sample_dir).
Proof.
  destruct (list_lists_metadata sample_dir sample_dir_consistent)
    as (items & Hrun & _).
  by exists items.
Defined.

Lemma cleanup_sweeps_witness :
  exists n d', CacheManager.cleanup 5000 sample_dir = (Ok n, d').
Proof.
  destruct (cleanup_sweeps 5000 sample_dir sample_dir_consistent)
    as (items & d' & _ & Hrun & _).
  by eexists _, _.
Defined.

Lemma unknown_id_harmless_witness :
  CacheManager.delete (js "resp_ffffffffffff") sample_dir
  = (Ok false, sample_dir).
Proof.
  assert (Hid : 46%N ∉ js "resp_ffffffffffff").
  { intros Hin. apply list_elem_of_In in Hin. vm_compute in Hin.
    repeat destruct Hin as [Hin|Hin]; done. }
  assert (Hne : js "resp_0a1b2c3d4e5f" <> js "resp_ffffffffffff").
  { intros Heq. vm_compute in Heq. discriminate Heq. }
  exact (proj1 (proj2 (proj2 (@unknown_id_harmless SmallRuntime.small 3600 5000
           (js "resp_ffffffffffff") sample_dir sample_dir_consistent Hid
           (lookup_singleton_ne _ _ _ Hne) (lookup_singleton_ne _ _ _ Hne))))).
Defined.

Lemma consistent_kept_witness :
  CacheManager.consistent
    (snd (@CacheManager.save SmallRuntime.small 3600 random 1000 (js "dom")
            SmallRuntime.VNull (js "claude-ai") sample_dir)).
Proof.
  exact (proj1 (@consistent_kept SmallRuntime.small 3600 1000 random (js "dom")
           SmallRuntime.VNull (js "claude-ai") (js "resp_0a1b2c3d4e5f")
           sample_dir sample_dir_consistent)).
Defined.

Lemma generateId_format_witness :
  length (CacheManager.generateId random) = 17%nat.
Proof.
  exact (proj1 (proj2 (generateId_format random random_bytes)) eq_refl).
Defined.

Lemma save_twice_witness :
  let d1 := snd (@CacheManager.save SmallRuntime.small 3600 random 1000
                   (js "dom") SmallRuntime.VNull (js "claude-ai")
                   (CacheManager.mkCacheDir ∅ ∅)) in
  let d2 := snd (@CacheManager.save SmallRuntime.small 3600 [1; 2; 3; 4; 5; 6]%N
                   2000 (js "page") (SmallRuntime.VBool true) (js "claude-ai")
                   d1) in
  @CacheManager.get SmallRuntime.small 3000 (CacheManager.generateId random) d2
  = (Ok (Some SmallRuntime.VNull), d2).
Proof.
  intros d1 d2.
  assert (Hbytes : bytes [1; 2; 3; 4; 5; 6]%N) by repeat constructor.
  exact (proj1 (proj1 (proj2 (@save_twice SmallRuntime.small 3600 random
           [1; 2; 3; 4; 5; 6]%N 1000 2000 3000 (js "dom") (js "page")
           (js "claude-ai") (js "claude-ai") SmallRuntime.VNull
           (SmallRuntime.VBool true) (CacheManager.mkCacheDir ∅ ∅)
           random_bytes Hbytes eq_refl eq_refl eq_refl eq_refl
           eq_refl eq_refl ltac:(lia) ltac:(lia)))
           ltac:(discriminate))).
Defined.

Lemma lazy_expiry_unlists_witness :
  fst (@CacheManager.get SmallRuntime.small 5000 (js "resp_0a1b2c3d4e5f")
         sample_dir) = Ok None.
Proof.
  exact (proj1 (@lazy_expiry_unlists SmallRuntime.small 5000
           (js "resp_0a1b2c3d4e5f") (js "true") sample_metadata sample_dir
           sample_dir_consistent (lookup_singleton_eq _ _) ltac:(cbn; lia)
           (lookup_singleton_eq _ _))).
Defined.

Lemma delete_then_witness :
  fst (CacheManager.delete (js "resp_0a1b2c3d4e5f") sample_dir) = Ok true.
Proof.
  exact (proj1 (@delete_then SmallRuntime.small 5000 (js "resp_0a1b2c3d4e5f")
           (js "true") sample_metadata sample_dir
           (lookup_singleton_eq _ _) (lookup_singleton_eq _ _))).
Defined.

(** ** More about the query engine *)

Lemma slice_sublist {A} (l : list A) (start end_ : Z) :
  slice l start end_ `sublist_of` l.
Proof.
  unfold slice. etrans; [apply sublist_take|apply sublist_drop].
Qed.

Lemma slice_length_le {A} (l : list A) (start count : Z) :
  0 < count -> len (slice l start (start + count)) <= count.
Proof.
  intros Hc. unfold slice, relative_index, len.
  rewrite length_take, length_drop.
  destruct (Z.ltb_spec start 0), (Z.ltb_spec (start + count) 0); lia.
Qed.

Section QueryEngineMore.
Context `{Runtime}.
Import QueryEngine.

(** X10. A page never holds more results than its limit, which is at least
    one for every limit that is not negative and one hundred when none is
    given, and this for every offset, negative ones included; the results
    are matches in their original order and [total] counts all matches. *)
Theorem page_bounded (A : Type) (matches : list A) (options : QueryOptions) :
  (forall L, limit options = Some L -> 0 <= L) ->
  let page := applyPagination matches options in
  1 <= page_limit page /\
  (limit options = None -> page_limit page = 100) /\
  len (results page) <= page_limit page /\
  results page `sublist_of` matches /\
  total page = len matches.
Proof.
  intros Hlimit page. subst page. unfold applyPagination.
  cbn [page_limit results total].
  assert (Hpos : 1 <= or_number (limit options) 100).
  { unfold or_number. destruct (limit options) as [L|]; [|lia].
    specialize (Hlimit L eq_refl). destruct (Z.eqb_spec L 0); lia. }
  split; [done|]. split; [by intros ->|].
  split; [apply slice_length_le; lia|]. split; [apply slice_sublist|done].
Qed.

(** X11. For a chunk size of at least one and a chunk number in range,
    [extractChunk] returns the units from [chunkNumber * chunkSize] on: every
    chunk but the last holds exactly [chunkSize] units and says [hasMore],
    the last holds between one and [chunkSize] units and does not; the
    [chunkSize] that is reported is the length of the chunk. *)
Theorem extractChunk_sizes (data : json) (k size : Z) :
  0 < size ->
  0 <= k < ceil_div (len (JSON_stringify_indent data)) size ->
  exists c,
    extractChunk data k size = Ok c /\
    chunk c = take (Z.to_nat size)
                (drop (Z.to_nat (k * size)) (JSON_stringify_indent data)) /\
    chunkSize c = len (chunk c) /\
    1 <= len (chunk c) <= size /\
    (k < totalChunks c - 1 -> len (chunk c) = size /\ chunk_hasMore c = true) /\
    (k = totalChunks c - 1 ->
     len (chunk c) = len (JSON_stringify_indent data) - k * size /\
     chunk_hasMore c = false).
Proof.
  intros Hsize Hk. rewrite extractChunk_in_range by done.
  set (s := JSON_stringify_indent data) in *. eexists. split; [reflexivity|].
  cbn zeta. cbn [chunk chunkSize totalChunks chunk_hasMore].
  replace (Z.to_nat k * Z.to_nat size)%nat with (Z.to_nat (k * size)) by nia.
  pose proof (len_nonneg s) as Hn0.
  destruct (ceil_div_bounds (len s) size Hn0 Hsize) as (Ht0 & Hcover & Hlast).
  assert (Hpos : 0 < len s).
  { destruct (Z.eq_dec (len s) 0) as [E|]; [|lia].
    rewrite E in Hk. unfold ceil_div in Hk.
    change (- 0) with 0 in Hk. rewrite Z.div_0_l in Hk by lia. lia. }
  specialize (Hlast Hpos).
  assert (Hstart : k * size <= (ceil_div (len s) size - 1) * size)
    by (apply Z.mul_le_mono_nonneg_r; lia).
  assert (Hlen : len (take (Z.to_nat size) (drop (Z.to_nat (k * size)) s))
                 = Z.min size (len s - k * size)).
  { unfold len in *. rewrite length_take, length_drop. nia. }
  split; [done|]. split; [done|]. rewrite Hlen.
  split; [lia|]. split.
  - intros Hmore. split; [|by apply Z.ltb_lt].
    assert ((k + 1) * size <= (ceil_div (len s) size - 1) * size)
      by (apply Z.mul_le_mono_nonneg_r; lia).
    lia.
  - intros Hend. split; [|apply Z.ltb_ge; lia].
    rewrite Hend in *. lia.
Qed.

Lemma collect_Forall (P : Match -> Prop) (f : jsstring -> Z -> option Match)
    (lines : list jsstring) (i0 : Z) :
  (forall l j m, lines !! j = Some l -> f l (i0 + Z.of_nat j) = Some m -> P m) ->
  Forall P (collect f lines i0).
Proof.
  revert i0. induction lines as [|l lines IH]; intros i0 Hf; [constructor|].
  cbn [collect].
  assert (Hrest : Forall P (collect f lines (i0 + 1))).
  { apply IH. intros l' j m Hj Hm. apply (Hf l' (S j) m Hj).
    by replace (i0 + Z.of_nat (S j)) with (i0 + 1 + Z.of_nat j) by lia. }
  destruct (f l i0) as [m|] eqn:Hm; [|done].
  constructor; [|done]. apply (Hf l 0%nat m eq_refl).
  by replace (i0 + Z.of_nat 0) with i0 by lia.
Qed.

Lemma collect_length (p : jsstring -> bool) (f : jsstring -> Z -> option Match)
    (lines : list jsstring) (i0 : Z) :
  (forall l i, is_Some (f l i) <-> p l = true) ->
  length (collect f lines i0) = length (List.filter p lines).
Proof.
  intros Hf. revert i0. induction lines as [|l lines IH]; intros i0; [done|].
  cbn [collect List.filter]. pose proof (Hf l i0) as Hl.
  destruct (f l i0) as [m|], (p l).
  - cbn. by rewrite IH.
  - destruct Hl as [Hl _]. by specialize (Hl ltac:(by eexists)).
  - destruct Hl as [_ [? Hl]]; done.
  - apply IH.
Qed.

(** X12. A text search never throws. Its [total] is the number of lines of
    the indented serialisation that contain the query, compared without
    regard to case unless [caseSensitive] is set, and every result gives
    the number of such a line, counted from one, and its trimmed text. *)
Theorem queryText_finds_lines (data : json) (q : jsstring)
    (options : QueryOptions) :
  let lines := split newline (JSON_stringify_indent data) in
  let fold s := if nullish (caseSensitive options) false
                then s else toLowerCase s in
  exists page,
    queryText data q options = Ok page /\
    total page
    = len (List.filter (fun l => includes (fold l) (fold q)) lines) /\
    Forall (fun r =>
              exists l,
                nth_js lines (line (the_match r) - 1) = Some l /\
                includes (fold l) (fold q) = true /\
                content (the_match r) = trim l)
           (results page).
Proof.
  intros lines fold. unfold queryText. fold lines.
  set (f := fun (line : jsstring) (index : Z) =>
              if includes
                   (if nullish (caseSensitive options) false
                    then line else toLowerCase line)
                   (if nullish (caseSensitive options) false
                    then q else toLowerCase q)
              then Some (mkMatch (index + 1) (trim line) None
                           (Some ((index * 100) / len lines)))
              else None).
  assert (Hshape :
    Forall (fun m =>
              1 <= line m <= len lines /\
              exists l, nth_js lines (line m - 1) = Some l /\
                        includes (fold l) (fold q) = true /\
                        content m = trim l)
           (collect f lines 0)).
  { apply collect_Forall. intros l j m Hj Hm. unfold f in Hm.
    destruct (includes _ _) eqn:Hinc; [|done]. injection Hm as <-.
    cbn [line content]. pose proof (lookup_lt_Some _ _ _ Hj) as Hlt.
    split; [unfold len; lia|]. exists l.
    split; [|done]. unfold nth_js.
    destruct (Z.ltb_spec (0 + Z.of_nat j + 1 - 1) 0); [lia|].
    by replace (Z.to_nat (0 + Z.of_nat j + 1 - 1)) with j by lia. }
  destruct (add_context_all lines (nullish (contextLines options) 2)
              (collect f lines 0)) as (withContext & Hrun & Hproj).
  { eapply Forall_impl; [exact Hshape|]. by intros m [Hm _]. }
  unfold applyPaginationWithContext. rewrite Hrun. cbn [rbind].
  eexists. split; [reflexivity|]. cbn [total results]. split.
  - unfold len. f_equal. apply collect_length. intros l i. unfold f.
    fold (fold l) (fold q). destruct (includes (fold l) (fold q)).
    + split; [done|by eexists].
    + split; [by intros [? ?]|done].
  - apply Forall_forall. intros r Hr.
    assert (Hin : the_match r ∈ collect f lines 0).
    { rewrite <- Hproj. apply list_elem_of_fmap_2.
      eapply elem_of_sublist; [exact Hr|apply slice_sublist]. }
    rewrite Forall_forall in Hshape. by destruct (Hshape _ Hin) as [_ ?].
Qed.

Lemma context_lines_window (allLines : list jsstring) (lo : Z) (n : nat) :
  0 <= lo -> lo + Z.of_nat n <= len allLines ->
  context_lines allLines lo (lo + Z.of_nat n)
  = Ok (trim <$> take n (drop (Z.to_nat lo) allLines)).
Proof.
  unfold context_lines. replace (lo + Z.of_nat n - lo) with (Z.of_nat n) by lia.
  revert lo. induction n as [|n IH]; intros lo Hlo Hhi; [done|].
  rewrite seqZ_cons by lia. cbn [rmapM].
  assert (Hx : exists x, allLines !! Z.to_nat lo = Some x)
    by (apply lookup_lt_is_Some_2; unfold len in Hhi; lia).
  destruct Hx as [x Hx]. unfold nth_js at 1.
  destruct (Z.ltb_spec lo 0); [lia|]. rewrite Hx. cbn [rbind].
  replace (Z.pred (Z.of_nat (S n))) with (Z.of_nat n) by lia.
  rewrite (IH (Z.succ lo)) by lia. cbn [rbind].
  rewrite (drop_S _ _ _ Hx). cbn [take fmap list_fmap].
  by replace (Z.to_nat (Z.succ lo)) with (S (Z.to_nat lo)) by lia.
Qed.

Lemma context_lines_between (allLines : list jsstring) (lo hi : Z) :
  0 <= lo <= hi -> hi <= len allLines ->
  context_lines allLines lo hi
  = Ok (trim <$> take (Z.to_nat (hi - lo)) (drop (Z.to_nat lo) allLines)).
Proof.
  intros Hlo Hhi.
  rewrite <- (context_lines_window allLines lo (Z.to_nat (hi - lo))) by lia.
  f_equal. lia.
Qed.

Lemma add_context_window (allLines : list jsstring) (c : Z) (m : Match) :
  0 <= c -> 1 <= line m <= len allLines ->
  add_context allLines c m
  = Ok (mkMatchWithContext m
          (trim <$> take (Z.to_nat (Z.min c (line m - 1)))
                      (drop (Z.to_nat (line m - 1 - Z.min c (line m - 1)))
                         allLines))
          (trim <$> take (Z.to_nat (Z.min c (len allLines - line m)))
                      (drop (Z.to_nat (line m)) allLines))).
Proof.
  intros Hc Hm. unfold add_context.
  rewrite !context_lines_between by lia. cbn [rbind]. do 2 f_equal.
  - replace (Z.to_nat (line m - 1 - Z.max 0 (line m - 1 - c)))
      with (Z.to_nat (Z.min c (line m - 1))) by lia.
    by replace (Z.to_nat (Z.max 0 (line m - 1 - c)))
      with (Z.to_nat (line m - 1 - Z.min c (line m - 1))) by lia.
  - replace (Z.to_nat (Z.min (len allLines - 1) (line m - 1 + c) + 1
                       - (line m - 1 + 1)))
      with (Z.to_nat (Z.min c (len allLines - line m))) by lia.
    by replace (line m - 1 + 1) with (line m) by lia.
Qed.

(** X13. For a number of context lines that is not negative (two when none
    is given) and matches that lie on the lines, every result carries the
    trimmed lines just before and just after its own line: as many as
    asked for, or as many as there are up to the first and the last line. *)
Theorem context_window (matches : list Match) (allLines : list jsstring)
    (options : QueryOptions) :
  let c := nullish (contextLines options) 2 in
  0 <= c ->
  Forall (fun m => 1 <= line m <= len allLines) matches ->
  exists page,
    applyPaginationWithContext matches allLines options = Ok page /\
    Forall (fun r =>
              let n := line (the_match r) in
              the_match r ∈ matches /\
              len (before r) = Z.min c (n - 1) /\
              len (after r) = Z.min c (len allLines - n) /\
              before r = trim <$> take (Z.to_nat (Z.min c (n - 1)))
                                    (drop (Z.to_nat (n - 1 - Z.min c (n - 1)))
                                       allLines) /\
              after r = trim <$> take (Z.to_nat (Z.min c (len allLines - n)))
                                   (drop (Z.to_nat n) allLines))
           (results page).
Proof.
  intros c Hc Hlines. unfold applyPaginationWithContext. fold c.
  rewrite Forall_forall in Hlines.
  erewrite rmapM_ok; cycle 1.
  { intros m Hm. apply add_context_window; [done|by apply Hlines]. }
  cbn [rbind]. eexists. split; [reflexivity|]. cbn [results].
  apply Forall_forall. intros r Hr.
  eapply elem_of_sublist in Hr; [|apply slice_sublist].
  apply list_elem_of_fmap in Hr as (m & -> & Hm). cbn [the_match before after].
  specialize (Hlines m Hm). split; [done|].
  unfold len in *. rewrite !length_fmap, !length_take, !length_drop.
  repeat split; lia.
Qed.

Lemma lastIndexOf_absent (c : N) (s : jsstring) (i found : Z) :
  c ∉ s -> lastIndexOf_from c s i found = found.
Proof.
  revert i found. induction s as [|d s IH]; intros i found Hc; [done|].
  cbn [lastIndexOf_from]. destruct (N.eqb_spec d c) as [->|_].
  - exfalso. apply Hc. left.
  - apply IH. intros Hin. apply Hc. by right.
Qed.

Lemma lastIndexOf_last (c : N) (front back : jsstring) (i found : Z) :
  c ∉ back ->
  lastIndexOf_from c (front ++ c :: back) i found = i + len front.
Proof.
  intros Hback. revert i found.
  induction front as [|d front IH]; intros i found.
  - cbn [app lastIndexOf_from]. rewrite N.eqb_refl.
    rewrite lastIndexOf_absent by done. unfold len. cbn. lia.
  - cbn [app lastIndexOf_from]. rewrite IH. unfold len. cbn [length]. lia.
Qed.

(** A search with a compiled expression, as [queryRegex] runs it. *)
Lemma regex_search (data : json) (pattern fl : jsstring)
    (options : QueryOptions) :
  let lines := split newline (JSON_stringify_indent data) in
  match RegExp_new pattern fl with
  | Throw e =>
      catch
        (rbind (RegExp_new pattern fl)
           (fun regex =>
              applyPaginationWithContext
                (collect
                   (fun line index =>
                      match String_match line regex with
                      | Some lineMatches =>
                          Some (mkMatch (index + 1) (trim line)
                                  (head lineMatches)
                                  (Some ((index * 100) / len lines)))
                      | None => None
                      end) lines 0) lines options))
        (fun error =>
           Throw (mkError (js "Regex query failed: " ++ message error)))
      = Throw (mkError (js "Regex query failed: " ++ message e))
  | Ok re =>
      exists page,
        catch
          (rbind (RegExp_new pattern fl)
             (fun regex =>
                applyPaginationWithContext
                  (collect
                     (fun line index =>
                        match String_match line regex with
                        | Some lineMatches =>
                            Some (mkMatch (index + 1) (trim line)
                                    (head lineMatches)
                                    (Some ((index * 100) / len lines)))
                        | None => None
                        end) lines 0) lines options))
          (fun error =>
             Throw (mkError (js "Regex query failed: " ++ message error)))
        = Ok page /\
        total page
        = len (List.filter
                 (fun l => bool_decide (is_Some (String_match l re))) lines) /\
        Forall (fun r =>
                  exists l found,
                    nth_js lines (line (the_match r) - 1) = Some l /\
                    String_match l re = Some found /\
                    matched (the_match r) = head found /\
                    content (the_match r) = trim l)
               (results page)
  end.
Proof.
  intros lines. destruct (RegExp_new pattern fl) as [re|e]; [|done].
  cbn [rbind].
  set (f := fun (line : jsstring) (index : Z) =>
              match String_match line re with
              | Some lineMatches =>
                  Some (mkMatch (index + 1) (trim line) (head lineMatches)
                          (Some ((index * 100) / len lines)))
              | None => None
              end).
  assert (Hshape :
    Forall (fun m =>
              1 <= line m <= len lines /\
              exists l found, nth_js lines (line m - 1) = Some l /\
                              String_match l re = Some found /\
                              matched m = head found /\ content m = trim l)
           (collect f lines 0)).
  { apply collect_Forall. intros l j m Hj Hm. unfold f in Hm.
    destruct (String_match l re) as [found|] eqn:Hmatch; [|done].
    injection Hm as <-. cbn [line content matched].
    pose proof (lookup_lt_Some _ _ _ Hj) as Hlt.
    split; [unfold len; lia|]. exists l, found.
    split; [|done]. unfold nth_js.
    destruct (Z.ltb_spec (0 + Z.of_nat j + 1 - 1) 0); [lia|].
    by replace (Z.to_nat (0 + Z.of_nat j + 1 - 1)) with j by lia. }
  destruct (add_context_all lines (nullish (contextLines options) 2)
              (collect f lines 0)) as (withContext & Hrun & Hproj).
  { eapply Forall_impl; [exact Hshape|]. by intros m [Hm _]. }
  unfold applyPaginationWithContext. rewrite Hrun. cbn [rbind catch].
  eexists. split; [reflexivity|]. cbn [total results]. split.
  - unfold len. f_equal. apply collect_length. intros l i. unfold f.
    destruct (String_match l re) as [found|].
    + split; [intros _; by apply bool_decide_eq_true_2|by eexists].
    + split; [by intros [? ?]|].
      intros Hb. apply bool_decide_eq_true_1 in Hb. by destruct Hb.
  - apply Forall_forall. intros r Hr.
    assert (Hin : the_match r ∈ collect f lines 0).
    { rewrite <- Hproj. apply list_elem_of_fmap_2.
      eapply elem_of_sublist; [exact Hr|apply slice_sublist]. }
    rewrite Forall_forall in Hshape. by destruct (Hshape _ Hin) as [_ ?].
Qed.

(** X14. A regular-expression query of the form slash, pattern, slash, flags,
    where the flags hold no slash, compiles the pattern with the flags
    after the last slash, [gi] when there are none, and always with [g]. If
    the expression does not compile the query throws ["Regex query failed: "]
    and the message; otherwise [total] is the number of lines the
    expression matches and every result gives such a line, its trimmed text
    and the first match on it. *)
Theorem queryRegex_compiles (data : json) (pattern flags : jsstring)
    (options : QueryOptions) :
  slash ∉ flags ->
  let lines := split newline (JSON_stringify_indent data) in
  let compiled :=
    RegExp_new pattern
      match flags with
      | [] => js "gi"
      | _ => if includes flags (js "g") then flags else flags ++ js "g"
      end in
  let q := js "/" ++ pattern ++ js "/" ++ flags in
  match compiled with
  | Throw e =>
      queryRegex data q options
      = Throw (mkError (js "Regex query failed: " ++ message e))
  | Ok re =>
      exists page,
        queryRegex data q options = Ok page /\
        total page
        = len (List.filter
                 (fun l => bool_decide (is_Some (String_match l re))) lines) /\
        Forall (fun r =>
                  exists l found,
                    nth_js lines (line (the_match r) - 1) = Some l /\
                    String_match l re = Some found /\
                    matched (the_match r) = head found /\
                    content (the_match r) = trim l)
               (results page)
  end.
Proof.
  intros Hflags lines compiled q. unfold queryRegex.
  assert (Hlast : lastIndexOf q slash = 1 + len pattern).
  { unfold lastIndexOf, q. change (js "/") with [slash].
    change ([slash] ++ pattern ++ [slash] ++ flags)
      with ((slash :: pattern) ++ slash :: flags).
    rewrite lastIndexOf_last by done. unfold len. cbn [length]. lia. }
  rewrite Hlast.
  assert (Hpattern : slice q 1 (1 + len pattern) = pattern).
  { rewrite slice_take_drop by (pose proof (len_nonneg pattern); lia).
    unfold q. change (js "/") with [slash]. cbn [app Z.to_nat Pos.to_nat
      Pos.iter_op Nat.add drop]. unfold len. rewrite Nat2Z.id.
    apply take_app_length. }
  assert (Hf : slice_from q (1 + len pattern + 1) = flags).
  { unfold slice_from.
    replace (len q) with (1 + len pattern + 1 + len flags)
      by (unfold q, len; change (js "/") with [slash];
          rewrite !length_app; cbn [length]; lia).
    rewrite slice_take_drop
      by (pose proof (len_nonneg pattern); pose proof (len_nonneg flags); lia).
    unfold q. change (js "/") with [slash].
    replace (Z.to_nat (1 + len pattern + 1))
      with (length ([slash] ++ pattern ++ [slash])) 
      by (rewrite !length_app; unfold len; cbn [length]; lia).
    rewrite !(assoc_L (++)), drop_app_length. unfold len.
    rewrite Nat2Z.id. apply take_ge. lia. }
  rewrite Hpattern, Hf. subst compiled. fold lines.
  pose proof (regex_search data pattern) as Htail. cbn zeta in Htail.
  fold lines in Htail.
  destruct flags as [|c fl].
  - apply (Htail (js "gi")).
  - cbn beta iota. destruct (includes (c :: fl) (js "g")); apply Htail.
Qed.

Lemma slice_whole {A} (l : list A) : slice l 0 (len l) = l.
Proof.
  pose proof (slice_take_drop l 0 (len l) ltac:(lia) (len_nonneg l)) as Hs.
  rewrite Z.add_0_l in Hs. rewrite Hs. cbn [Z.to_nat drop]. unfold len.
  rewrite Nat2Z.id. apply firstn_all.
Qed.

Lemma slice_middle {A} (a b : A) (middle : list A) :
  slice (a :: middle ++ [b]) 1 (-1) = middle.
Proof.
  unfold slice, relative_index, len. cbn [length Z.ltb Z.compare].
  rewrite length_app. cbn [length].
  replace (Z.to_nat (Z.min 1 (Z.of_nat (S (length middle + 1))))) with 1%nat
    by lia.
  replace (Z.to_nat
             (Z.max (Z.of_nat (S (length middle + 1)) + -1) 0
              - Z.min 1 (Z.of_nat (S (length middle + 1)))))
    with (length middle) by lia.
  cbn [drop]. apply take_app_length.
Qed.

(** X29. A query that is run in regex mode without being written between
    slashes is not compiled as it stands. When the query holds no slash at
    all, the expression is compiled from the query without its first and
    its last unit, and the whole query, with [g] added unless it holds one,
    serves as the flags. What [RegExp] makes of that decides the answer: if
    it throws, the query throws ["Regex query failed: "] and the message,
    and otherwise the lines are searched with the expression it returns. *)
Theorem queryRegex_without_slash (data : json) (q : jsstring)
    (options : QueryOptions) :
  slash ∉ q ->
  let lines := split newline (JSON_stringify_indent data) in
  let compiled :=
    RegExp_new (slice q 1 (-1))
      match q with
      | [] => js "gi"
      | _ => if includes q (js "g") then q else q ++ js "g"
      end in
  (forall a middle b, q = a :: middle ++ [b] -> slice q 1 (-1) = middle) /\
  match compiled with
  | Throw e =>
      queryRegex data q options
      = Throw (mkError (js "Regex query failed: " ++ message e))
  | Ok re =>
      exists page,
        queryRegex data q options = Ok page /\
        total page
        = len (List.filter
                 (fun l => bool_decide (is_Some (String_match l re))) lines)
  end.
Proof.
  intros Hq lines compiled. split.
  { intros a middle b ->. apply slice_middle. }
  unfold queryRegex. unfold lastIndexOf.
  rewrite lastIndexOf_absent by done.
  change (-1 + 1) with 0. unfold slice_from. rewrite slice_whole.
  subst compiled. fold lines.
  pose proof (regex_search data (slice q 1 (-1))) as Htail.
  cbn zeta in Htail. fold lines in Htail.
  assert (Hweaker : forall fl,
    match RegExp_new (slice q 1 (-1)) fl with
    | Throw e =>
        catch
          (rbind (RegExp_new (slice q 1 (-1)) fl)
             (fun regex =>
                applyPaginationWithContext
                  (collect
                     (fun line index =>
                        match String_match line regex with
                        | Some lineMatches =>
                            Some (mkMatch (index + 1) (trim line)
                                    (head lineMatches)
                                    (Some ((index * 100) / len lines)))
                        | None => None
                        end) lines 0) lines options))
          (fun error =>
             Throw (mkError (js "Regex query failed: " ++ message error)))
        = Throw (mkError (js "Regex query failed: " ++ message e))
    | Ok re =>
        exists page,
          catch
            (rbind (RegExp_new (slice q 1 (-1)) fl)
               (fun regex =>
                  applyPaginationWithContext
                    (collect
                       (fun line index =>
                          match String_match line regex with
                          | Some lineMatches =>
                              Some (mkMatch (index + 1) (trim line)
                                      (head lineMatches)
                                      (Some ((index * 100) / len lines)))
                          | None => None
                          end) lines 0) lines options))
            (fun error =>
               Throw (mkError (js "Regex query failed: " ++ message error)))
          = Ok page /\
          total page
          = len (List.filter
                   (fun l => bool_decide (is_Some (String_match l re))) lines)
    end).
  { intros fl. specialize (Htail fl options).
    destruct (RegExp_new (slice q 1 (-1)) fl) as [re|e]; [|done].
    destruct Htail as (page & Hpage & Htotal & _). by exists page. }
  destruct q as [|c q'].
  - apply (Hweaker (js "gi")).
  - cbn beta iota. destruct (includes (c :: q') (js "g")); apply Hweaker.
Qed.

End QueryEngineMore.

(** ** More about the transport *)

Lemma split_snoc (sep : N) (s : jsstring) :
  exists init lst, split sep s = init ++ [lst].
Proof.
  induction s as [|c s (init & lst & IH)]; [by exists [], []|].
  cbn [split]. rewrite IH. destruct (c =? sep)%N.
  - by exists ([] :: init), lst.
  - destruct init as [|l0 init]; [by exists [], (c :: lst)|].
    by exists ((c :: l0) :: init), lst.
Qed.

Lemma split_app (sep : N) (x b : jsstring) (init : list jsstring)
    (lst : jsstring) :
  split sep x = init ++ [lst] ->
  split sep (x ++ b) = init ++ split sep (lst ++ b).
Proof.
  revert init lst. induction x as [|c x IH]; intros init lst Hx.
  - cbn in Hx. destruct init as [|? [|? ?]]; [|done..].
    by injection Hx as <-.
  - destruct (split_snoc sep x) as (init' & lst' & Hx').
    specialize (IH init' lst' Hx'). cbn [split app] in *.
    rewrite Hx' in Hx. rewrite IH. destruct (c =? sep)%N eqn:E.
    + change ([] :: init' ++ [lst']) with (([] :: init') ++ [lst']) in Hx.
      by apply app_inj_tail in Hx as [<- <-].
    + destruct init' as [|l0 init'].
      * cbn [app] in Hx. destruct init as [|? [|? ?]]; [|done..].
        injection Hx as <-. cbn [app].
        cbn [split]. by rewrite E.

      * cbn [app] in Hx.
        change ((c :: l0) :: init' ++ [lst'])
          with (((c :: l0) :: init') ++ [lst']) in Hx.
        by apply app_inj_tail in Hx as [<- <-].
Qed.

Lemma split_plain (sep : N) (s : jsstring) : sep ∉ s -> split sep s = [s].
Proof.
  induction s as [|c s IH]; intros Hs; [done|]. cbn [split].
  destruct (N.eqb_spec c sep) as [->|_]; [exfalso; apply Hs; left|].
  rewrite IH; [done|]. intros Hin. apply Hs. by right.
Qed.

Lemma split_line (sep : N) (l s : jsstring) :
  sep ∉ l -> split sep (l ++ sep :: s) = l :: split sep s.
Proof.
  intros Hl. rewrite (split_app sep l (sep :: s) [] l) by by apply split_plain.
  cbn [app]. destruct (split_snoc sep (sep :: s)) as (i & x & Hx).
  clear Hx. induction l as [|c l IH].
  - cbn [app split]. by rewrite N.eqb_refl.
  - cbn [app split]. destruct (N.eqb_spec c sep) as [->|_];
      [exfalso; apply Hl; left|].
    rewrite IH; [done|]. intros Hin. apply Hl. by right.
Qed.

Section FramingFacts.
Context `{Runtime}.
Import TargetServerTransport Framing.
Variable decode : jsstring -> result Message.

Lemma handleData_app (a b : jsstring) (c : Connection) :
  handleData decode b (handleData decode a c) = handleData decode (a ++ b) c.
Proof.
  unfold handleData. cbn [buffer transport].
  destruct (split_snoc newline (buffer c ++ a)) as (init & lst & Ha).
  rewrite (assoc_L (++)), (split_app _ _ b init lst Ha), Ha.
  rewrite last_snoc, removelast_last.
  change (default [] (Some lst)) with lst.
  destruct (split_snoc newline (lst ++ b)) as (init' & lst' & ->).
  rewrite (assoc_L (++) init), !last_snoc, !removelast_last.
  by rewrite foldl_app.
Qed.

Lemma handleData_complete (lines : list jsstring) (rest : jsstring)
    (t : Transport) :
  Forall (fun l => newline ∉ l) lines -> newline ∉ rest ->
  handleData decode (mjoin ((fun l => l ++ [newline]) <$> lines) ++ rest)
    (mkConnection [] t)
  = mkConnection rest (foldl (handleLine decode) t lines).
Proof.
  intros Hlines Hrest.
  unfold handleData. cbn [buffer transport]. rewrite app_nil_l.
  assert (Hsplit : split newline
                     (mjoin ((fun l => l ++ [newline]) <$> lines) ++ rest)
                   = lines ++ [rest]).
  { induction Hlines as [|l lines Hl _ IH]; [by apply split_plain|].
    cbn [fmap list_fmap mjoin list_join].
    rewrite <- !(assoc_L (++)). cbn [app].
    rewrite split_line by done. cbn [app]. f_equal. exact IH. }
  by rewrite Hsplit, last_snoc, removelast_last.
Qed.

(** X15. The framing does not depend on how the output of the target
    server is cut into chunks: handing over a text in any number of chunks,
    one after the other, leaves the same buffer and the same transport as
    handing it over in one piece. *)
Theorem handleData_chunks (a : jsstring) (chunks : list jsstring)
    (c : Connection) :
  foldl (fun c' chunk => handleData decode chunk c')
    (handleData decode a c) chunks
  = handleData decode (a ++ mjoin chunks) c.
Proof.
  revert a. induction chunks as [|b chunks IH]; intros a.
  - cbn. by rewrite app_nil_r.
  - cbn [foldl mjoin list_join]. rewrite handleData_app, IH.
    by rewrite (assoc_L (++)).
Qed.

(** X16. Only complete lines are handled: of a text made of lines that each
    end in a newline, followed by a rest without newline, every line is
    handled once and in order, and the rest is kept in the buffer. A blank
    line, and a line that cannot be read as a message, changes nothing, and
    the lines after it are handled all the same. *)
Theorem handleData_lines (lines : list jsstring) (rest : jsstring)
    (t : Transport) :
  Forall (fun l => newline ∉ l) lines -> newline ∉ rest ->
  handleData decode (mjoin ((fun l => l ++ [newline]) <$> lines) ++ rest)
    (mkConnection [] t)
  = mkConnection rest (foldl (handleLine decode) t lines) /\
  (forall l t', trim l = [] -> handleLine decode t' l = t') /\
  (forall l t' e, decode l = Throw e -> handleLine decode t' l = t') /\
  (forall l t' message,
     trim l <> [] -> decode l = Ok message ->
     handleLine decode t' l = handleMessage message t').
Proof.
  intros Hlines Hrest. split; [|split; [|split]].
  - by apply handleData_complete.
  - intros l t' Hl. unfold handleLine. by rewrite Hl.
  - intros l t' e He. unfold handleLine. rewrite He. by destruct (trim l).
  - intros l t' message Hl Hm. unfold handleLine. rewrite Hm.
    by destruct (trim l).
Qed.

End FramingFacts.

Lemma handleData_lines_witness :
  @Framing.handleData SmallRuntime.small (fun _ => Throw (mkError []))
    (mjoin ((fun l => l ++ [newline]) <$> [js "{}"]) ++ js "{")
    (Framing.mkConnection [] TargetServerTransport.initial)
  = Framing.mkConnection (js "{") TargetServerTransport.initial.
Proof.
  assert (Hline : newline ∉ js "{}").
  { intros Hin. apply list_elem_of_In in Hin. vm_compute in Hin.
    repeat destruct Hin as [Hin|Hin]; done. }
  assert (Hrest : newline ∉ js "{").
  { intros Hin. apply list_elem_of_In in Hin. vm_compute in Hin.
    repeat destruct Hin as [Hin|Hin]; done. }
  exact (proj1 (@handleData_lines SmallRuntime.small
           (fun _ => Throw (mkError [])) [js "{}"] (js "{")
           TargetServerTransport.initial
           ltac:(by repeat constructor) Hrest)).
Defined.

(** *** The query engine on small inputs *)

Lemma page_bounded_witness :
  len (QueryEngine.results
         (QueryEngine.applyPagination [10; 20; 30]
            (mkQueryOptions None (Some 2) (Some (-1)) None None))) <= 2.
Proof.
  exact (proj1 (proj2 (proj2
           (page_bounded Z [10; 20; 30]
              (mkQueryOptions None (Some 2) (Some (-1)) None None)
              ltac:(intros L [= <-]; lia))))).
Defined.

Lemma extractChunk_sizes_witness :
  exists c,
    @QueryEngine.extractChunk SmallRuntime.small
      (SmallRuntime.VArr [SmallRuntime.VNull; SmallRuntime.VBool true]) 1 10
    = Ok c.
Proof.
  destruct (@extractChunk_sizes SmallRuntime.small
              (SmallRuntime.VArr [SmallRuntime.VNull; SmallRuntime.VBool true])
              1 10 ltac:(lia) ltac:(split; [lia|reflexivity]))
    as (c & Hc & _).
  by exists c.
Defined.

Lemma context_window_witness :
  exists page,
    QueryEngine.applyPaginationWithContext
      [QueryEngine.mkMatch 2 (js "b") None None] [js "a"; js " b"; js "c"]
      (mkQueryOptions None None None (Some 1) None) = Ok page.
Proof.
  destruct (context_window
              [QueryEngine.mkMatch 2 (js "b") None None]
              [js "a"; js " b"; js "c"]
              (mkQueryOptions None None None (Some 1) None)
              ltac:(cbn; lia)
              ltac:(constructor; [unfold len; cbn; lia|constructor]))
    as (page & Hpage & _).
  by exists page.
Defined.

Lemma queryRegex_compiles_witness :
  exists page,
    @QueryEngine.queryRegex SmallRuntime.small
      (SmallRuntime.VArr [SmallRuntime.VNull; SmallRuntime.VBool true])
      (js "/" ++ js "true" ++ js "/" ++ js "i")
      (mkQueryOptions None None None None None) = Ok page.
Proof.
  assert (Hflags : slash ∉ js "i").
  { intros Hin. apply list_elem_of_In in Hin. vm_compute in Hin.
    repeat destruct Hin as [Hin|Hin]; done. }
  pose proof (@queryRegex_compiles SmallRuntime.small
                (SmallRuntime.VArr [SmallRuntime.VNull; SmallRuntime.VBool true])
                (js "true") (js "i")
                (mkQueryOptions None None None None None) Hflags) as Hq.
  cbn zeta in Hq. destruct Hq as (page & Hpage & _). by exists page.
Defined.

(** ** More about the requests of the transport *)

Section TransportMore.
Context `{Runtime}.
Import TargetServerTransport.

Lemma nextId_exact (t : Transport) (e : Event) :
  nextId (step t e)
  = nextId t + match e with Send _ _ => 1 | _ => 0 end.
Proof.
  destruct e as [method params|method params| |message|k]; cbn; try lia.
  - unfold handleMessage. destruct (msg_id message) as [k|].
    + destruct (messageHandlers t !! k) as [[j]|]; [|lia]. cbn.
      destruct (msg_error message); unfold settle;
        destruct (promises t !! j); cbn; lia.
    + destruct (msg_method message) as [[|c m]|]; cbn; lia.
  - unfold on_timeout. destruct (messageHandlers t !! k); [|lia].
    unfold settle. cbn. destruct (promises t !! k); cbn; lia.
Qed.

Lemma nextId_sends (events : list Event) (t : Transport) :
  nextId (run events t) = nextId t + sends events.
Proof.
  revert t. induction events as [|e events IH]; intros t;
    [unfold sends, len; cbn; lia|].
  cbn [run foldl]. fold (run events (step t e)). rewrite IH, nextId_exact.
  unfold sends, len. destruct e; cbn [List.filter length]; lia.
Qed.

Lemma accounted_step (t : Transport) (e : Event) :
  well_formed t -> accounted t -> accounted (step t e).
Proof.
  intros Hwf Hacc. pose proof Hwf as [Hwh Hwp]. unfold accounted.
  destruct (step_cases t e Hwf)
    as [(-> & -> & ->)|[(-> & -> & -> & _)|(k & s & [h Hk] & _ & _ & -> & -> & ->)]].
  - done.
  - intros j Hj. destruct (decide (j = nextId t)) as [->|Hne].
    + left. split; [apply lookup_insert_eq|].
      destruct (promises t !! nextId t) as [s|] eqn:Hs; [|done].
      apply Hwp in Hs. lia.
    + rewrite lookup_insert_ne by done. apply Hacc. lia.
  - intros j Hj. destruct (decide (j = k)) as [->|Hne].
    + right. by rewrite lookup_delete_eq, lookup_insert_eq.
    + rewrite lookup_delete_ne, lookup_insert_ne by done. by apply Hacc.
Qed.

Lemma accounted_run (events : list Event) (t : Transport) :
  well_formed t -> accounted t -> accounted (run events t).
Proof.
  revert t. induction events as [|e events IH]; intros t Hwf Hacc; [done|].
  cbn. apply IH; [by apply well_formed_step|by apply accounted_step].
Qed.

Lemma below_one_step (t : Transport) (e : Event) :
  well_formed t -> 1 <= nextId t ->
  (forall k, k < 1 ->
     messageHandlers t !! k = None /\ promises t !! k = None) ->
  forall k, k < 1 ->
    messageHandlers (step t e) !! k = None /\ promises (step t e) !! k = None.
Proof.
  intros Hwf Hn Hlow j Hj. destruct (Hlow j Hj) as [Hh Hp].
  destruct (step_cases t e Hwf)
    as [(-> & -> & _)|[(-> & -> & _)|(k & s & [h Hk] & _ & _ & -> & -> & _)]].
  - done.
  - by rewrite lookup_insert_ne by lia.
  - assert (j <> k).
    { intros ->. destruct (Hlow k Hj) as [Hk' _]. congruence. }
    by rewrite lookup_delete_ne, lookup_insert_ne.
Qed.

Lemma below_one_run (events : list Event) (t : Transport) :
  well_formed t -> 1 <= nextId t ->
  (forall k, k < 1 ->
     messageHandlers t !! k = None /\ promises t !! k = None) ->
  forall k, k < 1 ->
    messageHandlers (run events t) !! k = None /\
    promises (run events t) !! k = None.
Proof.
  revert t. induction events as [|e events IH]; intros t Hwf Hn Hlow; [done|].
  cbn. apply IH; [by apply well_formed_step| |by apply below_one_step].
  pose proof (nextId_step t e Hwf). lia.
Qed.

(** X17. No request is lost or counted twice. Whatever a fresh transport has
    sent, received and timed out, the ids handed out are exactly the numbers
    from one to the number of requests sent; each of them is either waiting,
    with its own handler, or settled, with no handler left, and no other id
    has a handler or a promise. *)
Theorem requests_accounted (events : list Event) :
  let t := run events initial in
  nextId t = 1 + sends events /\
  (forall k, 1 <= k <= sends events ->
     pending k t \/ exists s, settled k s t) /\
  (forall k, k < 1 \/ sends events < k ->
     messageHandlers t !! k = None /\ promises t !! k = None).
Proof.
  intros t. subst t. pose proof (nextId_sends events initial) as Hn.
  cbn [nextId initial] in Hn.
  pose proof (well_formed_run events initial well_formed_initial) as [Hwh Hwp].
  assert (Hacc : accounted (run events initial)).
  { apply accounted_run; [apply well_formed_initial|].
    intros k Hk. cbn in Hk. lia. }
  split; [done|]. split.
  - intros k Hk. destruct (Hacc k) as [Hp|[Hh [s Hs]]]; [lia|by left|].
    right. by exists s.
  - intros k [Hk|Hk].
    + apply below_one_run; [apply well_formed_initial|cbn; lia| |done].
      intros j _. by cbn.
    + split.
      * destruct (messageHandlers (run events initial) !! k) as [h|] eqn:Hh;
          [|done].
        destruct (Hwh k h Hh) as (_ & Hlt & _). lia.
      * destruct (promises (run events initial) !! k) as [s|] eqn:Hs; [|done].
        apply Hwp in Hs. lia.
Qed.

(** X18. Responses to different requests can arrive in either order: on a
    reachable transport, handling two responses with different ids one
    after the other gives the same transport as handling them the other
    way round. *)
Theorem responses_commute (t : Transport) (m1 m2 : Message) (i j : Z) :
  well_formed t -> msg_id m1 = Some i -> msg_id m2 = Some j -> i <> j ->
  handleMessage m1 (handleMessage m2 t)
  = handleMessage m2 (handleMessage m1 t).
Proof.
  intros Hwf H1 H2 Hij.
  assert (Hstep : forall m k t', well_formed t' -> msg_id m = Some k ->
            handleMessage m t'
            = match messageHandlers t' !! k with
              | Some _ =>
                  mkTransport (base.delete k (messageHandlers t'))
                    (notificationHandlers t') (nextId t') (inputStream t')
                    (<[k := default (Resolved None) (settles k (Receive m))]>
                       (promises t'))
                    (timers t') (delivered t')
              | None => t'
              end).
  { intros m k t' Hwf' Hm.
    destruct (messageHandlers t' !! k) as [h|] eqn:Hh.
    - destruct (step_receive_found t' m k Hwf' Hm) as (s & -> & Hs);
        [by eexists|]. exact Hs.
    - unfold handleMessage. by rewrite Hm, Hh. }
  pose proof (well_formed_step t (Receive m1) Hwf) as Hwf1.
  pose proof (well_formed_step t (Receive m2) Hwf) as Hwf2.
  cbn [step] in Hwf1, Hwf2.
  rewrite (Hstep m1 i _ Hwf2 H1), (Hstep m2 j _ Hwf1 H2).
  rewrite (Hstep m1 i t Hwf H1), (Hstep m2 j t Hwf H2).
  destruct (messageHandlers t !! i) as [hi|] eqn:Hi,
           (messageHandlers t !! j) as [hj|] eqn:Hj;
    cbn [messageHandlers promises notificationHandlers nextId inputStream
         timers delivered];
    rewrite ?lookup_delete_ne, ?Hi, ?Hj by done; [|done..].
  f_equal; [apply delete_delete|by apply insert_insert_ne].
Qed.

End TransportMore.

Lemma responses_commute_witness :
  let t :=
    snd (@TargetServerTransport.sendRequest SmallRuntime.small (js "b") None
           (snd (@TargetServerTransport.sendRequest SmallRuntime.small
                   (js "a") None TargetServerTransport.initial))) in
  let m1 := TargetServerTransport.mkMessage (Some 1) None None None in
  let m2 := TargetServerTransport.mkMessage (Some 2) None None None in
  TargetServerTransport.handleMessage m1
    (TargetServerTransport.handleMessage m2 t)
  = TargetServerTransport.handleMessage m2
      (TargetServerTransport.handleMessage m1 t).
Proof.
  intros t m1 m2.
  apply (@responses_commute SmallRuntime.small t m1 m2 1 2);
    [|reflexivity|reflexivity|lia].
  exact (@well_formed_run SmallRuntime.small
           [TargetServerTransport.Send (js "a") None;
            TargetServerTransport.Send (js "b") None]
           TargetServerTransport.initial
           (@well_formed_initial SmallRuntime.small)).
Defined.

(** ** The management tools *)

Section ManagementFacts.
Context `{Runtime}.
Import CacheManager MCPProxy.
Variable query : json -> jsstring -> QueryOptions -> result QueryEngineSrc.Output.
Variable results_text : QueryEngineSrc.Output -> jsstring.
Variable metadata_text : ResponseMetadata -> jsstring.
Variable list_text : list ResponseMetadata -> jsstring.

Local Abbreviation manage :=
  (handleManagementTool query results_text metadata_text list_text).










Ltac dispatch :=
  unfold handleManagementTool;
  repeat match goal with
         | |- context [decide (?a = ?b)] =>
             let E := fresh "E" in
             destruct (decide (a = b)) as [E|E];
             [try (exfalso; vm_compute in E; discriminate E)
             |try (exfalso; apply E; reflexivity)]
         end;
  try reflexivity.

Lemma manage_query_response (now : Z) (p : Proxy) (args : ToolArgs) :
  manage now p (js "query_response") args
  = try_catch (handleQueryResponse query results_text now args) error_text.
Proof. dispatch. Qed.

Lemma manage_get_chunk (now : Z) (p : Proxy) (args : ToolArgs) :
  manage now p (js "get_chunk") args
  = try_catch (handleGetChunk now p args) error_text.
Proof. dispatch. Qed.

Lemma manage_list_responses (now : Z) (p : Proxy) (args : ToolArgs) :
  manage now p (js "list_responses") args
  = try_catch (handleListResponses list_text) error_text.
Proof. dispatch. Qed.

Lemma manage_get_response_info (now : Z) (p : Proxy) (args : ToolArgs) :
  manage now p (js "get_response_info") args
  = try_catch (handleGetResponseInfo metadata_text args) error_text.
Proof. dispatch. Qed.

Lemma manage_refresh_response (now : Z) (p : Proxy) (args : ToolArgs) :
  manage now p (js "refresh_response") args
  = try_catch (handleRefreshResponse now p args) error_text.
Proof. dispatch. Qed.

Lemma manage_delete_response (now : Z) (p : Proxy) (args : ToolArgs) :
  manage now p (js "delete_response") args
  = try_catch (handleDeleteResponse args) error_text.
Proof. dispatch. Qed.

(** The two handlers that read the payload, on a payload that [get]
    returns and on an id for which it returns nothing. *)
Lemma handleGetChunk_run (now : Z) (p : Proxy) (args : ToolArgs) (v : json)
    (d : CacheDir) :
  get now (response_id args) d = (Ok (Some v), d) -> truthy v = true ->
  handleGetChunk now p args d
  = match QueryEngine.extractChunk v (chunk_number args)
            (chunkSize (configManager p)) with
    | Ok result => (Ok (TextContent (chunk_text args result) false), d)
    | Throw e => (Throw e, d)
    end.
Proof.
  intros Hget Hv. unfold handleGetChunk, mbind, io_bind.
  unfold bind at 1. rewrite Hget, Hv. unfold bind, lift.
  by destruct (QueryEngine.extractChunk _ _ _).
Qed.

Lemma handleQueryResponse_run (now : Z) (args : ToolArgs) (v : json)
    (d : CacheDir) :
  get now (response_id args) d = (Ok (Some v), d) -> truthy v = true ->
  handleQueryResponse query results_text now args d
  = match query v (arg_query args)
            (mkQueryOptions (arg_mode args) (arg_limit args) None None None)
    with
    | Ok results =>
        (Ok (TextContent
               (if len (results_text results) >? MAX_RESPONSE_SIZE
                then truncated_text results_text results
                else results_text results) false), d)
    | Throw e => (Throw e, d)
    end.
Proof.
  intros Hget Hv. unfold handleQueryResponse, mbind, io_bind.
  unfold bind at 1. rewrite Hget, Hv. unfold bind, lift.
  destruct (query _ _ _) as [results|e]; [|done].
  cbn zeta. by destruct (len _ >? _).
Qed.

Lemma get_nothing (now : Z) (k : jsstring) (d : CacheDir) :
  dataFiles d !! k = None -> metaFiles d !! k = None ->
  get now k d = (Ok None, d).
Proof. intros Hs Hm. by rewrite get_run, Hm, Hs. Qed.

Lemma reads_nothing (now : Z) (p : Proxy) (args : ToolArgs) (d : CacheDir) :
  get now (response_id args) d = (Ok None, d) ->
  let gone :=
    (Ok (TextContent
           (js "Error: Response " ++ response_id args ++
            js " not found or expired") false), d) in
  manage now p (js "query_response") args d = gone /\
  manage now p (js "get_chunk") args d = gone.
Proof.
  intros Hget gone.
  rewrite manage_query_response, manage_get_chunk.
  unfold try_catch, handleQueryResponse, handleGetChunk, mbind, io_bind, bind.
  by rewrite Hget.
Qed.

Lemma forwardToolCall_gate (p : Proxy) (toolName : jsstring) (response : json)
    (random : list N) (now : Z) (d : CacheDir) :
  let size := len (JSON_stringify response) in
  let saved :=
    save (cacheManager_ttl p) random now toolName response (client_label p) d in
  forwardToolCall p toolName (Resolved (Some response)) random now d
  = if size >? Z.min 900000 (maxTokens (configManager p) * 4)
    then
      if valid_time now && valid_time (now + cacheManager_ttl p * 1000)
      then
        (Ok (TextContent
               (saved_summary size (generateId random)
                  (metaFiles (snd saved) !! generateId random)) false),
         snd saved)
      else
        (Ok (TextContent
               (js "Error calling " ++ toolName ++ js ": Invalid time value")
               true), d)
    else (Ok (Forwarded response), d).
Proof.
  intros size saved. subst saved.
  unfold forwardToolCall, try_catch, mbind, io_bind, ConfigManager.getMaxTokens.
  unfold bind at 1. unfold bind at 1. cbn [await serializable ret].
  fold size.
  destruct (size >? Z.min 900000 (maxTokens (configManager p) * 4)); [|done].
  unfold bind at 1. rewrite save_cases.
  destruct (valid_time now && valid_time (now + cacheManager_ttl p * 1000));
    [|reflexivity].
  unfold bind at 1. by rewrite getMetadata_run.
Qed.

(** X20. What a forwarded call has put into the cache can be read back
    through [get_chunk]. When the clock and the expiry are valid dates, and
    the payload is read back by [JSON.parse], is truthy and was too large
    to be returned, then, until it expires, a call
    of [get_chunk] with the id of the saved response and a chunk number in
    range answers with the header [Chunk n+1/total of id:], an empty line,
    and the units of that chunk of the indented serialisation, in pieces of
    the configured chunk size; the cache directory stays as it is. *)
Theorem cached_call_chunks (p : Proxy) (toolName : jsstring) (response : json)
    (random : list N) (now later : Z) (args : ToolArgs) (d : CacheDir) :
  valid_time now = true ->
  valid_time (now + cacheManager_ttl p * 1000) = true ->
  JSON_parse (JSON_stringify response) = Ok response ->
  truthy response = true ->
  Z.min 900000 (maxTokens (configManager p) * 4)
  < len (JSON_stringify response) ->
  later <= now + cacheManager_ttl p * 1000 ->
  response_id args = generateId random ->
  let text := JSON_stringify_indent response in
  let size := chunkSize (configManager p) in
  0 < size ->
  0 <= chunk_number args < ceil_div (len text) size ->
  let d1 :=
    snd (forwardToolCall p toolName (Resolved (Some response)) random now d) in
  manage later p (js "get_chunk") args d1
  = (Ok (TextContent
           (js "Chunk " ++ Number_toString (chunk_number args + 1) ++ js "/" ++
            Number_toString (ceil_div (len text) size) ++ js " of " ++
            generateId random ++ js ":" ++ [newline; newline] ++
            take (Z.to_nat size)
              (drop (Z.to_nat (chunk_number args * size)) text)) false), d1).
Proof.
  intros Hnow Hexpiry Hparse Hv Hbig Hlater Hid text size Hsize Hk d1.
  subst d1.
  pose proof (forwardToolCall_gate p toolName response random now d) as Hgate.
  cbn zeta in Hgate. rewrite Hnow, Hexpiry in Hgate. cbn [andb] in Hgate.
  destruct (Z.gtb_spec (len (JSON_stringify response))
              (Z.min 900000 (maxTokens (configManager p) * 4))); [|lia].
  rewrite Hgate. cbn [snd].
  rewrite manage_get_chunk. unfold try_catch.
  rewrite (handleGetChunk_run later p args response); [| |done].
  - fold size. rewrite extractChunk_in_range by done. fold text.
    unfold chunk_text. cbn zeta.
    cbn [QueryEngine.chunk QueryEngine.totalChunks]. rewrite Hid.
    by replace (Z.to_nat (chunk_number args) * Z.to_nat size)%nat
      with (Z.to_nat (chunk_number args * size)) by nia.
  - rewrite Hid. by apply get_after_save.
Qed.

(** X21. Once [delete_response] has answered that it deleted a stored
    response, every management tool reports the id as gone, each in its own
    words, and leaves the cache directory as it is: [query_response] and
    [get_chunk] say that it is not found or expired, [get_response_info]
    that it is not found, [refresh_response] that the refresh failed and a
    second [delete_response] that the deletion failed. None of the answers
    is an exception or carries [isError]. *)
Theorem deleted_response_reported (now : Z) (p : Proxy) (args : ToolArgs)
    (s : jsstring) (m : ResponseMetadata) (d : CacheDir) :
  dataFiles d !! response_id args = Some s ->
  metaFiles d !! response_id args = Some m ->
  let id := response_id args in
  let d1 := snd (manage now p (js "delete_response") args d) in
  let gone :=
    (Ok (TextContent (js "Error: Response " ++ id ++ js " not found or expired")
           false), d1) in
  fst (manage now p (js "delete_response") args d)
  = Ok (TextContent (js "Deleted " ++ id) false) /\
  manage now p (js "query_response") args d1 = gone /\
  manage now p (js "get_chunk") args d1 = gone /\
  manage now p (js "get_response_info") args d1
  = (Ok (TextContent (js "Error: Response " ++ id ++ js " not found") false),
     d1) /\
  manage now p (js "refresh_response") args d1
  = (Ok (TextContent (js "Error: Failed to refresh " ++ id) false), d1) /\
  manage now p (js "delete_response") args d1
  = (Ok (TextContent (js "Failed to delete " ++ id) false), d1).
Proof.
  intros Hs Hm id d1 gone. subst gone d1. fold id.
  destruct (delete_both id s m d Hs Hm) as (Hok & Hdata & Hmeta).
  assert (Hdel : manage now p (js "delete_response") args d
                 = (Ok (TextContent (js "Deleted " ++ id) false),
                    snd (delete id d))).
  { rewrite manage_delete_response.
    unfold try_catch, handleDeleteResponse, mbind, io_bind, bind. fold id.
    destruct (delete id d) as [r d'] eqn:Hrun. cbn in Hok. by subst r. }
  rewrite Hdel. cbn [fst snd]. set (d1 := snd (delete id d)) in *.
  split; [done|].
  destruct (reads_nothing now p args d1) as [Hq Hc];
    [by apply get_nothing|].
  split; [done|]. split; [done|]. split; [|split].
  - rewrite manage_get_response_info.
    unfold try_catch, handleGetResponseInfo, mbind, io_bind, bind.
    rewrite getMetadata_run. fold id. by rewrite Hmeta.
  - rewrite manage_refresh_response.
    unfold try_catch, handleRefreshResponse, mbind, io_bind. unfold bind at 1.
    rewrite refresh_run. fold id. by rewrite Hmeta.
  - rewrite manage_delete_response.
    unfold try_catch, handleDeleteResponse, mbind, io_bind, bind. fold id.
    by rewrite delete_without_data.
Qed.

Lemma query_first_page (exec_all : regexp -> jsstring -> option (list jsstring))
    (v : json) (q : jsstring) (md : option Mode) (l : option Z)
    (results : QueryEngineSrc.Output) :
  QueryEngineSrc.query exec_all v q (mkQueryOptions md l None None None)
  = Some (Ok results) ->
  QueryEngineSrc.output_offset results = 0 /\
  QueryEngineSrc.output_limit results = or_number l 100 /\
  (0 < or_number l 100 ->
   QueryEngineSrc.output_count results <= or_number l 100).
Proof.
  unfold QueryEngineSrc.query. cbn [mode].
  destruct (match md with Some m => m | None => QueryEngine.detectMode q end).
  - unfold QueryEngineSrc.queryText, QueryEngine.applyPagination.
    cbn [limit offset or_number]. intros [= <-]. cbn.
    split; [done|]. split; [done|].
    intros Hl. by apply (slice_length_le _ 0).
  - unfold QueryEngine.queryJsonPath, QueryEngine.applyPagination.
    cbn [limit offset or_number].
    destruct (JSONPath q v) as [rs|e]; [|done]. cbn [rbind catch].
    intros [= <-]. cbn. split; [done|]. split; [done|].
    intros Hl. by apply (slice_length_le rs 0).
  - unfold QueryEngineSrc.queryRegex, QueryEngine.applyPagination.
    cbn [limit offset or_number].
    destruct (RegExp_new _ _) as [re|e]; [|done].
    destruct (exec_all _ _) as [ms|]; [|done]. cbn [rbind].
    intros [= <-]. cbn. split; [done|]. split; [done|].
    intros Hl. by apply (slice_length_le ms 0).
Qed.

(** X22. Through [query_response] only the first page of the matches can
    be seen. For a stored payload that is truthy and not expired, the call
    asks the engine of [src/src/query.ts] with the [mode] and [limit] of its
    arguments and nothing else. When that call comes back with a page, the
    page starts at offset zero, its limit is the one given, or one hundred
    when none or zero is given, it holds no more results than a positive
    limit, and the answer is the serialised page, or, beyond 800000 units,
    the text that announces the truncation; when it throws, the answer is
    ["Error: "] and its message. The cache directory stays as it is. *)
Theorem query_response_first_page
    (exec_all : regexp -> jsstring -> option (list jsstring))
    (now : Z) (p : Proxy) (args : ToolArgs) (s : jsstring) (v : json)
    (d : CacheDir) (outcome : result QueryEngineSrc.Output) :
  dataFiles d !! response_id args = Some s -> JSON_parse s = Ok v ->
  truthy v = true ->
  (forall m, metaFiles d !! response_id args = Some m -> now <= expiresAt m) ->
  let options :=
    mkQueryOptions (arg_mode args) (arg_limit args) None None None in
  QueryEngineSrc.query exec_all v (arg_query args) options = Some outcome ->
  query v (arg_query args) options = outcome ->
  match outcome with
  | Ok results =>
      QueryEngineSrc.output_offset results = 0 /\
      QueryEngineSrc.output_limit results = or_number (arg_limit args) 100 /\
      (0 < or_number (arg_limit args) 100 ->
       QueryEngineSrc.output_count results
       <= or_number (arg_limit args) 100) /\
      manage now p (js "query_response") args d
      = (Ok (TextContent
               (if len (results_text results) >? 800000
                then truncated_text results_text results
                else results_text results) false), d)
  | Throw e =>
      manage now p (js "query_response") args d
      = (Ok (TextContent (js "Error: " ++ message e) false), d)
  end.
Proof.
  intros Hs Hparse Hv Hfresh options Hengine Hquery.
  assert (Hget : get now (response_id args) d = (Ok (Some v), d)).
  { rewrite get_run, Hs, Hparse.
    destruct (metaFiles d !! response_id args) as [m|] eqn:Hm; [|done].
    specialize (Hfresh m eq_refl).
    by destruct (Z.ltb_spec (expiresAt m) now); [lia|]. }
  rewrite manage_query_response. unfold try_catch.
  rewrite (handleQueryResponse_run now args v d Hget Hv).
  fold options. rewrite Hquery.
  destruct outcome as [results|e]; [|done].
  destruct (query_first_page _ _ _ _ _ _ Hengine) as (Ho & Hl & Hc). done.
Qed.

(** X23. The names that [tools/list] advertises as management tools are
    exactly the names that [tools/call] treats as such. A call under such a
    name never reaches the target server, whatever its answer would have
    been, and runs one of the six handlers; a call under any other name is
    forwarded. *)
Theorem management_tools_routed (toolName : jsstring) :
  (isManagementTool toolName = true <->
   toolName ∈ tool_name <$> getManagementTools) /\
  (isManagementTool toolName = true ->
   forall now p args outcome random,
     callTool query results_text metadata_text list_text now p toolName
       args
       outcome random
     = manage now p toolName args /\
     exists handler,
       handler ∈ [ handleQueryResponse query results_text now args;
                   handleGetChunk now p args;
                   handleListResponses list_text;
                   handleGetResponseInfo metadata_text args;
                   handleRefreshResponse now p args;
                   handleDeleteResponse args ] /\
       manage now p toolName args = try_catch handler error_text) /\
  (isManagementTool toolName = false ->
   forall now p args outcome random,
     callTool query results_text metadata_text list_text now p toolName
       args
       outcome random
     = forwardToolCall p toolName outcome random now).
Proof.
  split; [|split].
  - unfold isManagementTool. rewrite bool_decide_eq_true. done.
  - intros Hname now p args outcome random. unfold callTool. rewrite Hname.
    split; [done|]. apply bool_decide_eq_true in Hname.
    repeat (apply elem_of_cons in Hname as [->|Hname]);
      [| | | | | |by apply elem_of_nil in Hname].
    + eexists. split; [|apply manage_query_response]. set_solver.
    + eexists. split; [|apply manage_get_chunk]. set_solver.
    + eexists. split; [|apply manage_list_responses]. set_solver.
    + eexists. split; [|apply manage_get_response_info]. set_solver.
    + eexists. split; [|apply manage_refresh_response]. set_solver.
    + eexists. split; [|apply manage_delete_response]. set_solver.
  - intros Hname now p args outcome random. unfold callTool. by rewrite Hname.
Qed.

End ManagementFacts.

(** ** Calls that fail, and the proxy as it is started *)

Section ForwardFacts.
Context `{Runtime}.
Import CacheManager MCPProxy TargetServerTransport.

Lemma forwardToolCall_rejected (p : Proxy) (toolName : jsstring) (e : Error)
    (random : list N) (now : Z) (d : CacheDir) :
  forwardToolCall p toolName (Rejected e) random now d
  = (Ok (if includes (message e) (js "maximum length")
            || includes (message e) (js "exceeds")
         then TextContent size_limit_text false
         else TextContent
                (js "Error calling " ++ toolName ++ js ": " ++ message e) true),
     d).
Proof.
  unfold forwardToolCall, try_catch, mbind, io_bind. unfold bind at 1.
  cbn [await throw].
  by destruct (includes (message e) (js "maximum length")
               || includes (message e) (js "exceeds")).
Qed.

(** X24. A forwarded call whose request is rejected never throws and caches
    nothing. When the first event that settles the request of the call
    rejects it, the promise of the request is rejected with that error and
    the caller gets a text: the advice about the protocol size limit,
    without [isError], if the message contains [maximum length] or
    [exceeds], and otherwise ["Error calling "], the tool name and the
    message, with [isError]. A request that times out is reported in the
    second way, and so is a response that carries neither a result nor an
    error. *)
Theorem failed_call_reported (p : Proxy) (toolName : jsstring)
    (t : Transport) (params : option json) (events : list Event) (e : Error)
    (random : list N) (now : Z) (d : CacheDir) :
  well_formed t ->
  let id := fst (sendRequest (js "tools/call") params t) in
  let t1 := snd (sendRequest (js "tools/call") params t) in
  first_settling id events = Some (Rejected e) ->
  let size_error :=
    includes (message e) (js "maximum length")
    || includes (message e) (js "exceeds") in
  settled id (Rejected e) (run events t1) /\
  forwardToolCall p toolName (Rejected e) random now d
  = (Ok (if size_error then TextContent size_limit_text false
         else TextContent
                (js "Error calling " ++ toolName ++ js ": " ++ message e) true),
     d) /\
  forwardToolCall p toolName (Rejected (mkError (js "Request timeout")))
    random now d
  = (Ok (TextContent (js "Error calling " ++ toolName ++
                      js ": Request timeout") true), d) /\
  forwardToolCall p toolName (Resolved None) random now d
  = (Ok (TextContent
           (js "Error calling " ++ toolName ++
            js ": Cannot read properties of undefined (reading 'length')")
           true), d).
Proof.
  intros Hwf id t1 Hfirst size_error.
  assert (Hwf1 : well_formed t1)
    by apply (well_formed_step t (Send (js "tools/call") params) Hwf).
  pose proof (pending_run id events t1 Hwf1
                (sendRequest_pending (js "tools/call") params t Hwf)) as Hrun.
  rewrite Hfirst in Hrun.
  split; [done|]. split; [apply forwardToolCall_rejected|]. split.
  - by rewrite forwardToolCall_rejected.
  - reflexivity.
Qed.

(** X25. After [start] the proxy works for the client [claude-ai], whoever
    connects. Unless [MCP_CACHE_MAX_TOKENS] is set, its token limit is the
    25000 of that client, so a response is returned as it is exactly when its
    serialisation has at most 100000 units; when the variable holds a number
    [n], exactly when it has at most the smaller of 900000 and [4 * n]
    units. A longer response is saved for the client [claude-ai] with the
    ttl of the configuration, provided that the expiry is a valid date; with
    a ttl that takes the expiry out of the range of dates the call answers
    with an error and nothing is saved. *)
Theorem started_proxy_gate (env : Env) (p : Proxy) (toolName : jsstring)
    (response : json) (random : list N) (now : Z) (d : CacheDir) :
  start env = Some p -> valid_time now = true ->
  let limit :=
    match env_set (MCP_CACHE_MAX_TOKENS env) with
    | Some s => Z.min 900000 (4 * default 0 (parseInt s))
    | None => 100000
    end in
  let expiry := now + ttl (configManager p) * 1000 in
  let answer :=
    forwardToolCall p toolName (Resolved (Some response)) random now d in
  client_label p = js "claude-ai" /\
  cacheManager_ttl p = ttl (configManager p) /\
  (len (JSON_stringify response) <= limit ->
   answer = (Ok (Forwarded response), d)) /\
  (limit < len (JSON_stringify response) -> valid_time expiry = true ->
   exists text,
     fst answer = Ok (TextContent text false) /\
     metaFiles (snd answer) !! generateId random
     = Some (mkResponseMetadata (generateId random) toolName
               (byteLength (JSON_stringify response)) now expiry
               (js "claude-ai")
               (ceil_div (len (JSON_stringify response)) 10000) false)) /\
  (limit < len (JSON_stringify response) -> valid_time expiry = false ->
   answer
   = (Ok (TextContent
            (js "Error calling " ++ toolName ++ js ": Invalid time value")
            true), d)).
Proof.
  intros Hstart Hnow limit expiry answer. subst answer expiry.
  unfold start in Hstart.
  destruct (ConfigManager.loadConfig env _) as [config|] eqn:Hconfig;
    [|done].
  cbn in Hstart. injection Hstart as <-.
  assert (Hlimit : Z.min 900000 (maxTokens config * 4) = limit).
  { subst limit. unfold ConfigManager.loadConfig in Hconfig.
    destruct (ConfigManager.override_number (MCP_CACHE_MAX_TOKENS env) _)
      as [n|] eqn:Hn; [|done].
    destruct (ConfigManager.override_number (MCP_CACHE_CHUNK_SIZE env) _);
      [|done].
    destruct (ConfigManager.override_number (MCP_CACHE_TTL env) _); [|done].
    cbn in Hconfig. injection Hconfig as <-. cbn [maxTokens].
    unfold ConfigManager.override_number in Hn.
    destruct (env_set (MCP_CACHE_MAX_TOKENS env)) as [s|].
    - rewrite Hn. cbn. lia.
    - injection Hn as <-. by vm_compute. }
  split; [done|]. split; [done|].
  rewrite forwardToolCall_gate. cbn [configManager cacheManager_ttl].
  rewrite Hlimit, Hnow. cbn [andb]. split; [|split].
  - intros Hsmall.
    by destruct (Z.gtb_spec (len (JSON_stringify response)) limit); [lia|].
  - intros Hbig Hexpiry. rewrite Hexpiry.
    destruct (Z.gtb_spec (len (JSON_stringify response)) limit); [|lia].
    eexists. split; [reflexivity|]. rewrite save_run by done.
    cbn [snd metaFiles]. by rewrite lookup_insert_eq.
  - intros Hbig ->.
    by destruct (Z.gtb_spec (len (JSON_stringify response)) limit); [|lia].
Qed.

(** X26. A tool call from end to end. When the line that answers the
    request of the call arrives in two chunks, decodes to a response with the
    id of the request, a result and no error, and the result is small
    enough, then after the second chunk the buffer is empty, the promise of
    the request is resolved with the result, and the call returns the result
    as it is, with the cache directory untouched. *)
Theorem response_in_chunks_forwarded (decode : jsstring -> result Message)
    (p : Proxy) (toolName : jsstring) (t : Transport) (params : option json)
    (line a b : jsstring) (message : Message) (v : json) (random : list N)
    (now : Z) (d : CacheDir) :
  well_formed t ->
  let id := fst (sendRequest (js "tools/call") params t) in
  let t1 := snd (sendRequest (js "tools/call") params t) in
  newline ∉ line -> trim line <> [] ->
  decode line = Ok message ->
  msg_id message = Some id -> msg_error message = None ->
  msg_result message = Some v ->
  a ++ b = line ++ [newline] ->
  len (JSON_stringify v) <= Z.min 900000 (maxTokens (configManager p) * 4) ->
  let c :=
    Framing.handleData decode b
      (Framing.handleData decode a (Framing.mkConnection [] t1)) in
  Framing.buffer c = [] /\
  settled id (Resolved (Some v)) (Framing.transport c) /\
  forwardToolCall p toolName (Resolved (Some v)) random now d
  = (Ok (Forwarded v), d).
Proof.
  intros Hwf id t1 Hline Htrim Hdecode Hid Herr Hres Hab Hsmall c. subst c.
  assert (Hwf1 : well_formed t1)
    by apply (well_formed_step t (Send (js "tools/call") params) Hwf).
  pose proof (sendRequest_pending (js "tools/call") params t Hwf) as Hpending.
  fold t1 in Hpending. change (nextId t) with id in Hpending.
  rewrite handleData_app, Hab.
  pose proof (handleData_complete decode [line] [] t1) as Hdata.
  cbn [fmap list_fmap mjoin list_join foldl] in Hdata.
  rewrite !app_nil_r in Hdata.
  rewrite Hdata by (by repeat constructor || by apply not_elem_of_nil).
  cbn [Framing.buffer Framing.transport]. split; [done|]. split.
  - unfold Framing.handleLine. rewrite Hdecode.
    destruct (trim line) as [|x l]; [done|].
    pose proof (pending_step id t1 (Receive message) Hwf1 Hpending) as Hstep.
    cbn [settles step] in Hstep.
    rewrite decide_True in Hstep by done. by rewrite Herr, Hres in Hstep.
  - rewrite forwardToolCall_gate.
    by destruct (Z.gtb_spec (len (JSON_stringify v))
                   (Z.min 900000 (maxTokens (configManager p) * 4))); [lia|].
Qed.

(** X30. An incoming message is taken as the response to a request by its
    id alone. A message that carries the id of a waiting request and neither
    result nor error, whether or not it carries a method, as a request of
    the target server does, resolves the waiting request with [undefined]
    and is not handed to the notification listeners; the forwarded call
    that waited for it then reports an error. With an id for which nothing
    waits, such a message leaves the transport as it is. *)
Theorem server_request_taken_as_response (p : Proxy) (toolName : jsstring)
    (t : Transport) (id : Z) (message : Message) (random : list N) (now : Z)
    (d : CacheDir) :
  well_formed t ->
  msg_id message = Some id ->
  msg_error message = None -> msg_result message = None ->
  let t' := handleMessage message t in
  delivered t' = delivered t /\
  (pending id t ->
   settled id (Resolved None) t' /\
   forwardToolCall p toolName (Resolved None) random now d
   = (Ok (TextContent
            (js "Error calling " ++ toolName ++
             js ": Cannot read properties of undefined (reading 'length')")
            true), d)) /\
  (messageHandlers t !! id = None -> t' = t).
Proof.
  intros Hwf Hid Herr Hres t'. subst t'. split; [|split].
  - destruct (messageHandlers t !! id) as [h|] eqn:Hh.
    + destruct (step_receive_found t message id Hwf Hid) as (s & _ & Hstep);
        [by eexists|].
      cbn [step] in Hstep. by rewrite Hstep.
    + unfold handleMessage. by rewrite Hid, Hh.
  - intros Hpending. split; [|reflexivity].
    pose proof (pending_step id t (Receive message) Hwf Hpending) as Hstep.
    cbn [settles step] in Hstep. rewrite decide_True in Hstep by done.
    by rewrite Herr, Hres in Hstep.
  - intros Hnone. unfold handleMessage. by rewrite Hid, Hnone.
Qed.

End ForwardFacts.

(** *** The proxy on small inputs *)

Lemma cached_call_chunks_witness :
  exists text,
    fst (sample_manage 2000 tiny_limit (js "get_chunk")
           (sample_args (CacheManager.generateId random))
           (snd (@MCPProxy.forwardToolCall SmallRuntime.small tiny_limit
                   (js "dom") (@Resolved SmallRuntime.small (Some sample_value))
                   random 1000
                   (CacheManager.mkCacheDir ∅ ∅))))
    = Ok (MCPProxy.TextContent text false).
Proof.
  eexists.
  exact (f_equal fst
           (@cached_call_chunks SmallRuntime.small _ _ _ _ tiny_limit (js "dom")
              sample_value random 1000 2000
              (sample_args (CacheManager.generateId random))
              (CacheManager.mkCacheDir ∅ ∅)
              eq_refl eq_refl eq_refl eq_refl eq_refl
              ltac:(unfold tiny_limit; cbn; lia) eq_refl eq_refl
              ltac:(split; [unfold sample_args; cbn; lia|reflexivity]))).
Defined.

Lemma deleted_response_reported_witness :
  fst (sample_manage 5000 defaults (js "delete_response")
         (sample_args (js "resp_0a1b2c3d4e5f")) sample_dir)
  = Ok (MCPProxy.TextContent (js "Deleted " ++ js "resp_0a1b2c3d4e5f") false).
Proof.
  exact (proj1 (@deleted_response_reported SmallRuntime.small _ _ _ _ 5000
                  defaults (sample_args (js "resp_0a1b2c3d4e5f")) (js "true")
                  sample_metadata sample_dir
                  (lookup_singleton_eq _ _) (lookup_singleton_eq _ _))).
Defined.

Lemma query_response_first_page_witness :
  exists text,
    sample_manage 1500 defaults (js "query_response")
      (sample_args (js "resp_0a1b2c3d4e5f")) sample_dir
    = (Ok (MCPProxy.TextContent text false), sample_dir).
Proof.
  assert (Hfresh : forall m,
            CacheManager.metaFiles sample_dir !! js "resp_0a1b2c3d4e5f"
            = Some m -> 1500 <= CacheManager.expiresAt m).
  { intros m Hm. unfold sample_dir in Hm. cbn [CacheManager.metaFiles] in Hm.
    rewrite lookup_singleton_eq in Hm. injection Hm as <-. cbn. lia. }
  pose proof (@query_response_first_page SmallRuntime.small sample_query
                sample_text (fun m => CacheManager.id m)
                (fun l => Number_toString (len l)) sample_exec
                1500 defaults (sample_args (js "resp_0a1b2c3d4e5f"))
                (js "true") (SmallRuntime.VBool true) sample_dir
                (sample_query (SmallRuntime.VBool true) (js "true")
                   (mkQueryOptions None None None None None))
                (lookup_singleton_eq _ _) eq_refl eq_refl Hfresh
                eq_refl eq_refl) as Hq.
  destruct (sample_query _ _ _) as [results|e].
  - destruct Hq as (_ & _ & _ & Hq). by eexists.
  - by eexists.
Defined.

Lemma failed_call_reported_witness :
  @MCPProxy.forwardToolCall SmallRuntime.small defaults (js "dom")
    (@Rejected SmallRuntime.small (mkError (js "Request timeout"))) random 0
    (CacheManager.mkCacheDir ∅ ∅)
  = (Ok (MCPProxy.TextContent
           (js "Error calling " ++ js "dom" ++ js ": Request timeout") true),
     CacheManager.mkCacheDir ∅ ∅).
Proof.
  exact (proj1 (proj2 (proj2
           (@failed_call_reported SmallRuntime.small defaults (js "dom")
              TargetServerTransport.initial None
              [TargetServerTransport.TimerFired 1]
              (mkError (js "Request timeout")) random 0
              (CacheManager.mkCacheDir ∅ ∅)
              (@well_formed_initial SmallRuntime.small) eq_refl)))).
Defined.

Lemma started_proxy_gate_witness :
  exists p,
    @MCPProxy.start SmallRuntime.small empty_env = Some p /\
    MCPProxy.client_label p = js "claude-ai".
Proof.
  eexists. split; [reflexivity|].
  exact (proj1 (@started_proxy_gate SmallRuntime.small empty_env _ (js "dom")
                  (SmallRuntime.VBool true) random 0
                  (CacheManager.mkCacheDir ∅ ∅) eq_refl eq_refl)).
Defined.

Lemma response_in_chunks_forwarded_witness :
  @MCPProxy.forwardToolCall SmallRuntime.small defaults (js "dom")
    (@Resolved SmallRuntime.small (Some (SmallRuntime.VBool true))) random 0
    (CacheManager.mkCacheDir ∅ ∅)
  = (Ok (@MCPProxy.Forwarded SmallRuntime.small (SmallRuntime.VBool true)),
     CacheManager.mkCacheDir ∅ ∅).
Proof.
  assert (Hline : newline ∉ js "{}").
  { intros Hin. apply list_elem_of_In in Hin. vm_compute in Hin.
    repeat destruct Hin as [Hin|Hin]; done. }
  exact (proj2 (proj2
           (@response_in_chunks_forwarded SmallRuntime.small
              (fun _ => Ok (@TargetServerTransport.mkMessage
                              SmallRuntime.small (Some 1)
                              (Some (SmallRuntime.VBool true)) None None))
              defaults (js "dom") TargetServerTransport.initial None
              (js "{}") (js "{") (js "}" ++ [newline])
              (@TargetServerTransport.mkMessage SmallRuntime.small (Some 1)
                 (Some (SmallRuntime.VBool true)) None None)
              (SmallRuntime.VBool true) random 0 (CacheManager.mkCacheDir ∅ ∅)
              (@well_formed_initial SmallRuntime.small) Hline
              ltac:(discriminate) eq_refl eq_refl eq_refl eq_refl eq_refl
              ltac:(vm_compute; discriminate)))).
Defined.

(** ** The configuration *)

Lemma js_String (c : ascii) (s : string) :
  js (String c s) = N_of_ascii c :: js s.
Proof. reflexivity. Qed.

Ltac digit :=
  match goal with
  | |- context [digit_of ?c] =>
      let v := eval vm_compute in (digit_of c) in
      change (digit_of c) with v
  end;
  cbn iota beta.

Lemma digits_value_acc (u : Decimal.uint) (a : positive) :
  digits_value (js (NilEmpty.string_of_uint u)) (Some (Z.pos a))
  = Some (Z.pos (Pos.of_uint_acc u a)).
Proof.
  revert a. induction u as [|u IH|u IH|u IH|u IH|u IH|u IH|u IH|u IH|u IH|u IH];
    intros a; [done|..];
    cbn [NilEmpty.string_of_uint Pos.of_uint_acc]; rewrite js_String;
    cbn [digits_value]; digit; rewrite <- IH; do 2 f_equal;
    cbn [default from_option]; unfold Datatypes.id; lia.
Qed.

Lemma digits_value_uint (u : Decimal.uint) (acc : option Z) :
  default 0 acc = 0 ->
  digits_value (js (NilEmpty.string_of_uint u)) acc
  = match u with
    | Decimal.Nil => acc
    | _ => Some (Z.of_N (Pos.of_uint u))
    end.
Proof.
  revert acc.
  induction u as [|u IH|u IH|u IH|u IH|u IH|u IH|u IH|u IH|u IH|u IH];
    intros acc Hacc; [done|..];
    cbn [NilEmpty.string_of_uint Pos.of_uint]; rewrite js_String;
    cbn [digits_value]; digit; rewrite Hacc.
  - rewrite IH by done. by destruct u.
  - apply (digits_value_acc u 1).
  - apply (digits_value_acc u 2).
  - apply (digits_value_acc u 3).
  - apply (digits_value_acc u 4).
  - apply (digits_value_acc u 5).
  - apply (digits_value_acc u 6).
  - apply (digits_value_acc u 7).
  - apply (digits_value_acc u 8).
  - apply (digits_value_acc u 9).
Qed.

Lemma to_double_safe (n : Z) : Z.abs n < 2 ^ 53 -> to_double n = Some n.
Proof.
  intros Hn. unfold to_double. cbv zeta.
  assert (Hlog : Z.log2 (Z.abs n) - 52 <= 0).
  { destruct (Z.eq_dec (Z.abs n) 0) as [->|Hne]; [done|].
    assert (Z.log2 (Z.abs n) < 53); [|lia].
    apply Z.log2_lt_pow2; lia. }
  destruct (Z.leb_spec (Z.log2 (Z.abs n) - 52) 0) as [_|]; [|lia].
  assert (Hbig : 2 ^ 53 < 2 ^ 1024) by (by apply Z.pow_lt_mono_r).
  destruct (Z.ltb_spec (Z.abs n) (2 ^ 1024)) as [_|]; [|lia].
  f_equal. lia.
Qed.

Lemma parseInt_pos (p : positive) :
  parseInt (js (NilEmpty.string_of_uint (Pos.to_uint p)))
  = to_double (Z.pos p) /\
  digits_value (js (NilEmpty.string_of_uint (Pos.to_uint p))) None
  = Some (Z.pos p).
Proof.
  pose proof (Unsigned.to_uint_nonnil p) as Hnil.
  pose proof (DecimalPos.Unsigned.of_to p) as Hp.
  pose proof (digits_value_uint (Pos.to_uint p) None eq_refl) as Hd.
  destruct (Pos.to_uint p) as [|u|u|u|u|u|u|u|u|u|u]; [done|..];
    rewrite Hp in Hd; (split; [|exact Hd]);
    unfold parseInt; cbn [NilEmpty.string_of_uint] in *;
    rewrite js_String in *;
    match goal with
    | Hd : digits_value ?l None = _ |- _ =>
        transitivity (digits_value l None ≫= to_double);
        [reflexivity|by rewrite Hd]
    end.
Qed.

(** [parseInt] reads the decimal text of an integer as its number value. *)
Lemma parseInt_toString (n : Z) : parseInt (Number_toString n) = to_double n.
Proof.
  unfold Number_toString. destruct n as [|p|p]; [done| |].
  - cbn [Z.to_int NilZero.string_of_int]. unfold NilZero.string_of_uint.
    pose proof (Unsigned.to_uint_nonnil p) as Hnil.
    pose proof (proj1 (parseInt_pos p)) as Hp.
    by destruct (Pos.to_uint p).
  - cbn [Z.to_int NilZero.string_of_int]. unfold NilZero.string_of_uint.
    pose proof (Unsigned.to_uint_nonnil p) as Hnil.
    pose proof (proj2 (parseInt_pos p)) as Hp.
    rewrite js_String. unfold parseInt.
    change (trimStart (N_of_ascii "-" :: ?s)) with (N_of_ascii "-" :: s).
    cbn [N.eqb N_of_ascii].
    destruct (Pos.to_uint p); [done|..]; by rewrite Hp.
Qed.

Lemma toString_not_empty (n : Z) :
  env_set (Some (Number_toString n)) = Some (Number_toString n).
Proof.
  unfold Number_toString. destruct n as [|p|p]; [done| |].
  - cbn [Z.to_int NilZero.string_of_int]. unfold NilZero.string_of_uint.
    pose proof (Unsigned.to_uint_nonnil p).
    by destruct (Pos.to_uint p).
  - by cbn [Z.to_int NilZero.string_of_int].
Qed.

Section ConfigFacts.
Context `{Runtime}.

(** X27. Numbers given in the environment are read back exactly, and they
    win over the presets: when [MCP_CACHE_MAX_TOKENS], [MCP_CACHE_CHUNK_SIZE]
    and [MCP_CACHE_TTL] hold the decimal texts of three integers below
    [2 ^ 53] in magnitude, the integers that a number holds exactly, the
    configuration is loaded, for every client and whatever the other
    variables hold, with these three integers as [maxTokens], [chunkSize]
    and [ttl]. *)
Theorem env_numbers_read_back (clientInfo : option ClientInfo) (n c t : Z)
    (dir indexing compress dbg : option jsstring) :
  Z.abs n < 2 ^ 53 -> Z.abs c < 2 ^ 53 -> Z.abs t < 2 ^ 53 ->
  exists config,
    ConfigManager.loadConfig
      (mkEnv (Some (Number_toString n)) (Some (Number_toString c))
         (Some (Number_toString t)) dir indexing compress dbg) clientInfo
    = Some config /\
    maxTokens config = n /\ chunkSize config = c /\ ttl config = t.
Proof.
  intros Hn Hc Ht.
  unfold ConfigManager.loadConfig, ConfigManager.override_number.
  cbn [MCP_CACHE_MAX_TOKENS MCP_CACHE_CHUNK_SIZE MCP_CACHE_TTL].
  rewrite !toString_not_empty, !parseInt_toString.
  rewrite !to_double_safe by done. cbn [mbind option_bind].
  eexists. split; [reflexivity|]. done.
Qed.

End ConfigFacts.

(** ** Sizes in units and in bytes *)

Lemma byteLength_from_bounds (s : jsstring) (prev_high : bool) :
  len s <= byteLength_from prev_high s <= 3 * len s.
Proof.
  revert prev_high. induction s as [|c s IH]; intros prev_high; [done|].
  cbn [byteLength_from]. unfold len in *. cbn [length].
  pose proof (IH false). pose proof (IH (is_high_surrogate c)).
  destruct (c <? 128)%N; [lia|]. destruct (c <? 2048)%N; [lia|].
  destruct (prev_high && is_low_surrogate c); lia.
Qed.

Lemma byteLength_from_ascii (s : jsstring) (prev_high : bool) :
  Forall (fun c => (c < 128)%N) s -> byteLength_from prev_high s = len s.
Proof.
  intros Hs. revert prev_high.
  induction Hs as [|c s Hc _ IH]; intros prev_high; [done|].
  cbn [byteLength_from]. destruct (N.ltb_spec c 128); [|lia].
  rewrite IH. unfold len. cbn [length]. lia.
Qed.

Section SizeFacts.
Context `{Runtime}.
Import CacheManager.

(** X28. The size that the proxy measures and the size that the store
    records are different quantities. Whenever [save] returns an id, the
    metadata of that id gives [sizeBytes] in UTF-8 bytes, which is at least
    the length of the serialisation in UTF-16 units, the quantity that the
    size gate and the chunk count use, and at most three times as much; the
    two agree when the serialisation is ASCII. When [save] throws, the
    clock or the expiry is no valid date and nothing has been written. *)
Theorem saved_size_bounds (ttl : Z) (random : list N) (now : Z)
    (tool : jsstring) (data : json) (client : jsstring) (d : CacheDir) :
  let units := len (JSON_stringify data) in
  match save ttl random now tool data client d with
  | (Ok k, d') =>
      exists m,
        metaFiles d' !! k = Some m /\
        units <= sizeBytes m <= 3 * units /\
        (Forall (fun c => (c < 128)%N) (JSON_stringify data) ->
         sizeBytes m = units) /\
        chunks m = ceil_div units 10000
  | (Throw e, d') =>
      d' = d /\ valid_time now && valid_time (now + ttl * 1000) = false
  end.
Proof.
  intros units. rewrite save_cases.
  destruct (valid_time now && valid_time (now + ttl * 1000)); [|done].
  cbn [metaFiles]. rewrite lookup_insert_eq. eexists. split; [reflexivity|].
  cbn [sizeBytes chunks]. split; [apply byteLength_from_bounds|].
  split; [apply byteLength_from_ascii|done].
Qed.

End SizeFacts.

Lemma queryRegex_without_slash_witness :
  exists page,
    @QueryEngine.queryRegex SmallRuntime.small sample_value (js "true")
      (mkQueryOptions (Some regex) None None None None) = Ok page.
Proof.
  assert (Hq : slash ∉ js "true").
  { intros Hin. apply list_elem_of_In in Hin. vm_compute in Hin.
    repeat destruct Hin as [Hin|Hin]; done. }
  pose proof (proj2 (@queryRegex_without_slash SmallRuntime.small sample_value
                       (js "true")
                       (mkQueryOptions (Some regex) None None None None) Hq))
    as Hrun.
  cbn zeta in Hrun. destruct Hrun as (page & Hpage & _). by exists page.
Defined.

Lemma server_request_taken_as_response_witness :
  let t :=
    snd (@TargetServerTransport.sendRequest SmallRuntime.small
           (js "tools/call") None TargetServerTransport.initial) in
  let message :=
    @TargetServerTransport.mkMessage SmallRuntime.small (Some 1) None None
      (Some (js "roots/list")) in
  TargetServerTransport.delivered
    (TargetServerTransport.handleMessage message t)
  = TargetServerTransport.delivered t.
Proof.
  intros t message.
  exact (proj1 (@server_request_taken_as_response SmallRuntime.small defaults
                  (js "dom") t 1 message random 0
                  (CacheManager.mkCacheDir ∅ ∅)
                  (@well_formed_run SmallRuntime.small
                     [TargetServerTransport.Send (js "tools/call") None]
                     TargetServerTransport.initial
                     (@well_formed_initial SmallRuntime.small))
                  eq_refl eq_refl eq_refl)).
Defined.

Lemma env_numbers_read_back_witness :
  exists config,
    @ConfigManager.loadConfig SmallRuntime.small
      (mkEnv (Some (Number_toString 50000)) (Some (Number_toString 2000))
         (Some (Number_toString (-1))) None None None None)
      (Some (mkClientInfo (js "cursor") (js "1.0")))
    = Some config /\
    maxTokens config = 50000 /\ chunkSize config = 2000 /\ ttl config = -1.
Proof.
  exact (@env_numbers_read_back SmallRuntime.small
           (Some (mkClientInfo (js "cursor") (js "1.0"))) 50000 2000 (-1)
           None None None None eq_refl eq_refl eq_refl).
Defined.
